(** * Sushi Go bot (royale_bot.py): game state model, decision engine and
      session loops, embedded as Rocq functions, with the properties of the
      specification stated and proved against them.

    Conventions of the embedding.
    - Card names are Python [str] values: [string].
    - A Python [list] is a [list]; [dict[str, list[str]]] is a
      [gmap string (list string)].
    - Python [int] fields that come from the wire ([player_count], [round])
      or that are subtracted from ([turn]) are [Z].  The rotation cursor
      [current_hand_ptr] is only ever assigned [0] and incremented, and the
      results of [len], [list.count] and [list.index] are never negative:
      these are [nat].
    - A Python call that may raise returns a [result]. *)

From Stdlib Require Import ZArith Lia Ascii.
From stdpp Require Import base option list strings gmap fin_maps.

Local Open Scope string_scope.
Local Open Scope list_scope.
Local Open Scope nat_scope.

(** ** Exceptions *)

Inductive exn : Type :=
  | ValueError
  | IndexError
  | ConnectionError.

Inductive result (A : Type) : Type :=
  | Ok (a : A)
  | Raise (e : exn).

Arguments Ok {A} a.
Arguments Raise {A} e.

(** [x ← m; k] runs [m] and passes its value on, or propagates what it raised. *)
#[global] Instance result_bind : MBind result := fun A B k m =>
  match m with
  | Ok a => k a
  | Raise e => Raise e
  end.

(** ** Python list primitives on card lists *)

Module Py.

(** [x in l] *)
Fixpoint contains (x : string) (l : list string) : bool :=
  match l with
  | [] => false
  | y :: l' => if String.eqb y x then true else contains x l'
  end.

(** [l.count(x)] *)
Fixpoint count (l : list string) (x : string) : nat :=
  match l with
  | [] => 0
  | y :: l' => (if String.eqb y x then 1 else 0) + count l' x
  end.

(** [l.index(x)]: first position of [x]; [ValueError] when absent. *)
Fixpoint index (l : list string) (x : string) : result nat :=
  match l with
  | [] => Raise ValueError
  | y :: l' => if String.eqb y x then Ok 0 else i ← index l' x; Ok (S i)
  end.

(** [l.remove(x)]: drops the first occurrence; [ValueError] when absent. *)
Fixpoint remove (l : list string) (x : string) : result (list string) :=
  match l with
  | [] => Raise ValueError
  | y :: l' => if String.eqb y x then Ok l' else r ← remove l' x; Ok (y :: r)
  end.

(** [[i for i, c in enumerate(l) if c == x]], counting from [start]. *)
Fixpoint indices_from (start : nat) (l : list string) (x : string) : list nat :=
  match l with
  | [] => []
  | y :: l' =>
      if String.eqb y x then start :: indices_from (S start) l' x
      else indices_from (S start) l' x
  end.

Definition indices (l : list string) (x : string) : list nat := indices_from 0 l x.

(** [l[i]] for a non-negative [i]; [IndexError] out of range. *)
Definition getitem {A : Type} (l : list A) (i : nat) : result A :=
  match l !! i with
  | Some a => Ok a
  | None => Raise IndexError
  end.

(** [max(l)] and [min(l)]; [ValueError] on the empty list. *)
Definition max (l : list nat) : result nat :=
  match l with
  | [] => Raise ValueError
  | x :: l' => Ok (fold_left Nat.max l' x)
  end.

Definition min (l : list nat) : result nat :=
  match l with
  | [] => Raise ValueError
  | x :: l' => Ok (fold_left Nat.min l' x)
  end.

(** [[x] * n] *)
Definition repeat_list {A : Type} (x : A) (n : Z) : list A := replicate (Z.to_nat n) x.

End Py.

(** ** Game state *)

Record GameState : Type := mkGameState {
  game_id : string;
  player_id : Z;
  rejoin_token : string;
  player_name : string;
  hand : list string;
  player_count : Z;
  all_hands : list (option (list string));
  current_hand_ptr : nat;
  my_tableau : list string;
  all_tableaux : gmap string (list string);
  last_card_played : option string;
  last_turn_reveals : gmap string (list string);
  round : Z;
  turn : Z
}.

(** The dataclass constructor with its defaults, as [join_game] and
    [_join_match] call it. *)
Definition new_GameState (gid : string) (pid : Z) (token name : string) : GameState :=
  {| game_id := gid; player_id := pid; rejoin_token := token; player_name := name;
     hand := []; player_count := 0; all_hands := []; current_hand_ptr := 0;
     my_tableau := []; all_tableaux := ∅; last_card_played := None;
     last_turn_reveals := ∅; round := 1; turn := 1 |}.

Definition next_hand (state : GameState) : option (list string) :=
  let idx := current_hand_ptr state + 1 in
  if idx <? length (all_hands state) then
    match all_hands state !! idx with
    | Some slot => slot
    | None => None
    end
  else None.

Definition count (state : GameState) (card : string) : nat :=
  Py.count (my_tableau state) card.

Definition has_chopsticks (state : GameState) : bool :=
  Py.contains "Chopsticks" (my_tableau state).

Definition has_unused_wasabi (state : GameState) : bool :=
  let wasabi := count state "Wasabi" in
  let nigiri := sum_list (map (count state) ["Egg Nigiri"; "Salmon Nigiri"; "Squid Nigiri"]) in
  nigiri <? wasabi.

Definition puddings (state : GameState) : nat := count state "Pudding".

(** ** Decision engine *)

Definition occurances (hand : list string) (card : string) : nat :=
  fold_left (fun res i => if String.eqb i card then res + 1 else res) hand 0.

Definition nigiri_types : list string := ["Egg Nigiri"; "Salmon Nigiri"; "Squid Nigiri"].

Definition valid_combo (state : GameState) (hand my_table : list string) : list string :=
  let res := [] in
  let res :=
    if (occurances my_table "Sashimi" mod 3 =? 2) && Py.contains "Sashimi" hand
    then res ++ ["Sashimi"] else res in
  let res :=
    if has_unused_wasabi state && Py.contains "Squid Nigiri" hand
    then res ++ ["Squid Nigiri"] else res in
  let res :=
    if has_unused_wasabi state && Py.contains "Salmon Nigiri" hand
    then res ++ ["Salmon Nigiri"] else res in
  let res :=
    if (occurances my_table "Tempura" mod 2 =? 1) && Py.contains "Tempura" hand
    then res ++ ["Tempura"] else res in
  let res :=
    if has_unused_wasabi state && Py.contains "Egg Nigiri" hand
    then res ++ ["Egg Nigiri"] else res in
  res.

Definition should_grab_chopsticks (hand : list string) (state : GameState) : bool :=
  if negb (Py.contains "Chopsticks" hand) then false
  else if has_chopsticks state then false
  else
    match next_hand state with
    | None => false
    | Some next_h =>
        if Py.contains "Wasabi" next_h && existsb (fun n => Py.contains n next_h) nigiri_types
        then true
        else if 2 <=? Py.count next_h "Sashimi" then true
        else if 2 <=? Py.count next_h "Tempura" then true
        else false
    end.

(** The fixed per-player-count table of turns in a round. *)
Definition total_turns (player_count : Z) : Z :=
  if (player_count =? 2)%Z then 10
  else if (player_count =? 3)%Z then 9
  else if (player_count =? 4)%Z then 8
  else if (player_count =? 5)%Z then 7
  else 0.

(** [[tableau.count("Pudding") for player, tableau in all_tableaux.items()]];
    only [max] and [min] of this list are used, whatever its order. *)
Definition pudding_counts (state : GameState) : list nat :=
  (fun kv => Py.count kv.2 "Pudding") <$> map_to_list (all_tableaux state).

(** The condition of the [elif] of the pudding rule, with Python's
    short-circuit evaluation of [and] and [or]. *)
Definition pudding_cond (state : GameState) (turns_left : Z) (counts : list nat) : result bool :=
  m1 ← Py.max counts;
  if puddings state <? m1 then
    m2 ← Py.max counts;
    if (Z.of_nat m2 <? Z.of_nat (puddings state) + turns_left)%Z then Ok true
    else m3 ← Py.min counts; Ok (puddings state <=? m3)
  else m3 ← Py.min counts; Ok (puddings state <=? m3).

Definition choose_card (hand : list string) (state : GameState) : result nat :=
  let combos := valid_combo state hand (my_tableau state) in
  match combos with
  | c :: _ => Py.index hand c
  | [] =>
  if should_grab_chopsticks hand state && Py.contains "Chopsticks" hand
  then Py.index hand "Chopsticks" else
  let turns_left := (total_turns (player_count state) - turn state)%Z in
  let counts := pudding_counts state in
  wanted ← (match counts with
            | [] => Ok false
            | _ => pudding_cond state turns_left counts
            end);
  if wanted && Py.contains "Pudding" hand then Py.index hand "Pudding" else
  let nigiri_count := length (List.filter (fun card => Py.contains card nigiri_types) hand) in
  if (2 <=? nigiri_count) && Py.contains "Wasabi" hand then Py.index hand "Wasabi" else
  if (count state "Dumpling" <? 5) && Py.contains "Dumpling" hand
  then Py.index hand "Dumpling" else
  if Py.contains "Squid Nigiri" hand then Py.index hand "Squid Nigiri" else
  if Py.contains "Salmon Nigiri" hand then Py.index hand "Salmon Nigiri" else
  if Py.contains "Egg Nigiri" hand then Py.index hand "Egg Nigiri" else
  if (count state "Sashimi" =? 1) && Py.contains "Sashimi" hand
  then Py.index hand "Sashimi" else
  if (count state "Tempura" =? 1) && Py.contains "Tempura" hand
  then Py.index hand "Tempura" else
  if Py.contains "Sashimi" hand then Py.index hand "Sashimi" else
  if Py.contains "Maki Roll (3)" hand then Py.index hand "Maki Roll (3)" else
  if Py.contains "Maki Roll (2)" hand then Py.index hand "Maki Roll (2)" else
  if Py.contains "Maki Roll (1)" hand then Py.index hand "Maki Roll (1)" else
  Ok 0
  end.

(** The first two elements of an index list of length at least 2. *)
Definition first_two (l : list nat) : option (nat * nat) :=
  match l with
  | a :: b :: _ => Some (a, b)
  | _ => None
  end.

Definition chopstick_combo (hand : list string) (state : GameState)
  : result (option (nat * nat)) :=
  if negb (has_chopsticks state) then Ok None else
  match (if occurances (my_tableau state) "Sashimi" mod 3 =? 1
         then first_two (Py.indices hand "Sashimi") else None) with
  | Some p => Ok (Some p)
  | None =>
  if Py.contains "Wasabi" hand && Py.contains "Squid Nigiri" hand then
    i ← Py.index hand "Wasabi"; j ← Py.index hand "Squid Nigiri"; Ok (Some (i, j))
  else
  if Py.contains "Wasabi" hand && Py.contains "Salmon Nigiri" hand then
    i ← Py.index hand "Wasabi"; j ← Py.index hand "Salmon Nigiri"; Ok (Some (i, j))
  else
  match (if occurances (my_tableau state) "Tempura" mod 2 =? 1
         then first_two (Py.indices hand "Tempura") else None) with
  | Some p => Ok (Some p)
  | None =>
  if Py.contains "Wasabi" hand && Py.contains "Egg Nigiri" hand then
    i ← Py.index hand "Wasabi"; j ← Py.index hand "Egg Nigiri"; Ok (Some (i, j))
  else Ok None
  end
  end.

(** [if chopstick_combos:] tests a 2-tuple, which is truthy whatever it
    holds, so only [None] takes the second return. *)
Definition choose_chopsticks (hand : list string) (state : GameState)
  : result (option (nat * nat)) :=
  chopstick_combos ← chopstick_combo hand state;
  match chopstick_combos with
  | Some p => Ok (Some p)
  | None => Ok None
  end.

(** ** Game state model: the handlers of [SushiGoBot]

    Each handler is given the value its message decodes to; decoding the
    wire line is the codec's part (see [Codec] below). *)

(** [_record_play(card)] *)
Definition _record_play (card : string) (state : GameState) : result GameState :=
  let ptr := current_hand_ptr state in
  all_hands' ←
    (if ptr <? length (all_hands state) then
       slot ← Py.getitem (all_hands state) ptr;
       match slot with
       | Some tracked =>
           if Py.contains card tracked then
             tracked' ← Py.remove tracked card;
             Ok (<[ptr := Some tracked']> (all_hands state))
           else Ok (all_hands state)
       | None => Ok (all_hands state)
       end
     else Ok (all_hands state));
  Ok {| game_id := game_id state; player_id := player_id state;
        rejoin_token := rejoin_token state; player_name := player_name state;
        hand := hand state; player_count := player_count state;
        all_hands := all_hands';
        current_hand_ptr := current_hand_ptr state;
        my_tableau := my_tableau state ++ [card];
        all_tableaux := all_tableaux state;
        last_card_played := Some card;
        last_turn_reveals := last_turn_reveals state;
        round := round state; turn := turn state |}.

(** [handle_game_start], for a [GAME_START] line carrying [count].  The
    model covers the counts for which the list [[None] * count] can be built;
    for a larger one the source raises OverflowError or MemoryError after
    [player_count] is assigned. *)
Definition handle_game_start (count : Z) (state : GameState) : GameState :=
  {| game_id := game_id state; player_id := player_id state;
     rejoin_token := rejoin_token state; player_name := player_name state;
     hand := hand state; player_count := count;
     all_hands := Py.repeat_list None count;
     current_hand_ptr := current_hand_ptr state;
     my_tableau := my_tableau state; all_tableaux := all_tableaux state;
     last_card_played := last_card_played state;
     last_turn_reveals := last_turn_reveals state;
     round := round state; turn := turn state |}.

(** [handle_round_start], for a [ROUND_START] line carrying [round_number]. *)
Definition handle_round_start (round_number : Z) (state : GameState) : GameState :=
  {| game_id := game_id state; player_id := player_id state;
     rejoin_token := rejoin_token state; player_name := player_name state;
     hand := hand state; player_count := player_count state;
     all_hands := Py.repeat_list None (Z.max (player_count state) 1);
     current_hand_ptr := 0;
     my_tableau := []; all_tableaux := ∅;
     last_card_played := None;
     last_turn_reveals := ∅;
     round := round_number; turn := 1 |}.

(** The loop of [handle_played] over [reveals.items()].  Each step writes the
    entry of its own player only, and the players of a dict are distinct, so
    the order in which the items are visited does not matter. *)
Definition extend_tableaux (reveals tableaux : gmap string (list string))
  : gmap string (list string) :=
  map_fold
    (fun player cards tabs =>
       let tabs := if decide (is_Some (tabs !! player)) then tabs else <[player := []]> tabs in
       <[player := default [] (tabs !! player) ++ cards]> tabs)
    tableaux reveals.

(** [handle_played], for a [PLAYED] line that parses to [reveals]. *)
Definition handle_played (reveals : gmap string (list string)) (state : GameState) : GameState :=
  let tableaux := extend_tableaux reveals (all_tableaux state) in
  let our_name := player_name state in
  {| game_id := game_id state; player_id := player_id state;
     rejoin_token := rejoin_token state; player_name := player_name state;
     hand := hand state; player_count := player_count state;
     all_hands := all_hands state;
     current_hand_ptr := current_hand_ptr state + 1;
     my_tableau := match tableaux !! our_name with
                   | Some t => t
                   | None => my_tableau state
                   end;
     all_tableaux := tableaux;
     last_card_played := last_card_played state;
     last_turn_reveals := reveals;
     round := round state; turn := (turn state + 1)%Z |}.

(** The [HAND] branch of [_play_game] before [play_turn]: the parsed hand
    becomes the working hand and a copy goes into the cursor slot. *)
Definition observe_hand (parsed : list string) (state : GameState) : GameState :=
  let ptr := current_hand_ptr state in
  {| game_id := game_id state; player_id := player_id state;
     rejoin_token := rejoin_token state; player_name := player_name state;
     hand := parsed; player_count := player_count state;
     all_hands := if ptr <? length (all_hands state)
                  then <[ptr := Some parsed]> (all_hands state)
                  else all_hands state;
     current_hand_ptr := current_hand_ptr state;
     my_tableau := my_tableau state; all_tableaux := all_tableaux state;
     last_card_played := last_card_played state;
     last_turn_reveals := last_turn_reveals state;
     round := round state; turn := turn state |}.

(** Commands sent to the server. *)
Inductive command : Type :=
  | JOIN (game : string) (name : string)
  | TOURNEY (tournament : string) (name : string)
  | TJOIN (match_token : string)
  | READY
  | PLAY (idx : nat)
  | CHOPSTICKS (idx1 idx2 : nat)
  | LEAVE.

(** [my_tableau.append(card)], then the Chopsticks card goes back to hand. *)
Definition return_chopsticks (card : string) (state : GameState) : result GameState :=
  let tableau := my_tableau state ++ [card] in
  tableau' ← (if Py.contains "Chopsticks" tableau then Py.remove tableau "Chopsticks"
              else Ok tableau);
  Ok {| game_id := game_id state; player_id := player_id state;
        rejoin_token := rejoin_token state; player_name := player_name state;
        hand := hand state; player_count := player_count state;
        all_hands := all_hands state;
        current_hand_ptr := current_hand_ptr state;
        my_tableau := tableau'; all_tableaux := all_tableaux state;
        last_card_played := last_card_played state;
        last_turn_reveals := last_turn_reveals state;
        round := round state; turn := turn state |}.

(** [play_turn]: the new state and the command sent, if any. *)
Definition play_turn (state : GameState) : result (GameState * list command) :=
  let hand := hand state in
  match hand with
  | [] => Ok (state, [])
  | _ =>
    let single :=
      card_index ← choose_card hand state;
      card ← Py.getitem hand card_index;
      state' ← _record_play card state;
      Ok (state', [PLAY card_index]) in
    if has_chopsticks state then
      chop ← choose_chopsticks hand state;
      match chop with
      | Some (idx1, idx2) =>
          card1 ← Py.getitem hand idx1;
          state1 ← _record_play card1 state;
          card2 ← Py.getitem hand idx2;
          state2 ← return_chopsticks card2 state1;
          Ok (state2, [CHOPSTICKS idx1 idx2])
      | None => single
      end
    else single
  end.

(** ** Session orchestrator

    The transport is out of scope: the bot sees the sequence of messages that
    successive [recv()] calls return (each already stripped) and logs the
    commands it sends.  [recv] raises [ConnectionError] when the sequence is
    exhausted.  The Python library calls that decode a line ([str.split],
    [int], the regular expression of [parse_hand], the splitting of
    [parse_played]) are a parameter of the session functions. *)

Record Codec : Type := mkCodec {
  codec_split : string → list string;
  codec_int : string → result Z;
  parse_hand : string → list string;
  parse_played : string → gmap string (list string)
}.

(** [msg.startswith(p)] *)
Definition startswith (msg p : string) : bool := String.prefix p msg.

(** The connection: messages still to be received, commands sent so far. *)
Record Conn : Type := mkConn {
  inbox : list string;
  sent : list command
}.

Definition recv (inbox : list string) : result (string * list string) :=
  match inbox with
  | [] => Raise ConnectionError
  | msg :: inbox' => Ok (msg, inbox')
  end.

(** [recv_until(predicate)]: the first non-empty message satisfying
    [predicate], and the messages after it. *)
Fixpoint recv_until (predicate : string → bool) (inbox : list string)
  : result (string * list string) :=
  match inbox with
  | [] => Raise ConnectionError
  | msg :: inbox' =>
      if negb (String.eqb msg EmptyString) && predicate msg then Ok (msg, inbox')
      else recv_until predicate inbox'
  end.

(** How [_play_game] ended: the value returned, the game state, the messages
    not yet read and the commands sent so far. *)
Record game_exit : Type := mkExit {
  returned : option string;
  final_state : GameState;
  unread : list string;
  outbox : list command
}.

Section Session.
Context (codec : Codec).

(** [handle_game_start(message)] *)
Definition handle_game_start_msg (message : string) (state : GameState) : result GameState :=
  let parts := codec_split codec message in
  if 2 <=? length parts then
    field ← Py.getitem parts 1;
    count ← codec_int codec field;
    Ok (handle_game_start count state)
  else Ok state.

(** [handle_round_start(message)] *)
Definition handle_round_start_msg (message : string) (state : GameState) : result GameState :=
  let parts := codec_split codec message in
  field ← Py.getitem parts 1;
  round_number ← codec_int codec field;
  Ok (handle_round_start round_number state).

(** [handle_played(message)] *)
Definition handle_played_msg (message : string) (state : GameState) : GameState :=
  handle_played (parse_played codec message) state.

(** [_play_game]: one iteration of its [while True] per message read; the
    outer [match] is [msg = self.recv()].  [handle_round_end] and
    [handle_game_end] decode the scores with [json.loads] and print them,
    catching JSONDecodeError and IndexError, and change nothing.  The model
    covers the ROUND_END and GAME_END lines on which [json.loads] raises
    nothing else; on the others (RecursionError on very deep nesting,
    ValueError on a number too long to convert) the source raises out of the
    loop. *)
Fixpoint _play_game (inbox : list string) (state : GameState) (sent : list command)
  : result game_exit :=
  match inbox with
  | [] => Raise ConnectionError
  | msg :: inbox' =>
      if String.eqb msg EmptyString then _play_game inbox' state sent
      else if startswith msg "TOURNAMENT_MATCH" || startswith msg "TOURNAMENT_COMPLETE" then
        Ok {| returned := Some msg; final_state := state; unread := inbox'; outbox := sent |}
      else if startswith msg "GAME_END" then
        Ok {| returned := None; final_state := state; unread := inbox'; outbox := sent |}
      else if startswith msg "GAME_START" then
        match handle_game_start_msg msg state with
        | Ok state' => _play_game inbox' state' sent
        | Raise e => Raise e
        end
      else if startswith msg "ROUND_START" then
        match handle_round_start_msg msg state with
        | Ok state' => _play_game inbox' state' sent
        | Raise e => Raise e
        end
      else if startswith msg "PLAYED" then
        _play_game inbox' (handle_played_msg msg state) sent
      else if startswith msg "ROUND_END" then
        _play_game inbox' state sent
      else if startswith msg "HAND" then
        match play_turn (observe_hand (parse_hand codec msg) state) with
        | Ok (state', cmds) => _play_game inbox' state' (sent ++ cmds)
        | Raise e => Raise e
        end
      else _play_game inbox' state sent
  end.

(** [_join_tournament]: [TOURNEY], then wait for TOURNAMENT_WELCOME or ERROR. *)
Definition _join_tournament (tournament_id player_name : string) (conn : Conn)
  : result (bool * Conn) :=
  '(response, inbox') ← recv_until
      (fun m => startswith m "TOURNAMENT_WELCOME" || startswith m "ERROR") (inbox conn);
  Ok (startswith response "TOURNAMENT_WELCOME",
      {| inbox := inbox'; sent := sent conn ++ [TOURNEY tournament_id player_name] |}).

(** [_join_match]: [TJOIN], then wait for WELCOME or ERROR.  On WELCOME
    [self.state] becomes a new game state built from the fields of the
    line (returned here, with [True]); otherwise the result is [False]. *)
Definition _join_match (match_token player_name : string) (conn : Conn)
  : result (option GameState * Conn) :=
  '(response, inbox') ← recv_until
      (fun m => startswith m "WELCOME" || startswith m "ERROR") (inbox conn);
  let conn' := {| inbox := inbox'; sent := sent conn ++ [TJOIN match_token] |} in
  if startswith response "WELCOME" then
    let parts := codec_split codec response in
    gid ← Py.getitem parts 1;
    pid_field ← Py.getitem parts 2;
    pid ← codec_int codec pid_field;
    token ← (if 3 <? length parts then Py.getitem parts 3 else Ok EmptyString);
    Ok (Some (new_GameState gid pid token player_name), conn')
  else Ok (None, conn').

(** [_leave_game]: [LEAVE], then wait for OK or ERROR; [self.state] is dropped. *)
Definition _leave_game (conn : Conn) : result Conn :=
  '(_, inbox') ← recv_until
      (fun m => startswith m "OK" || startswith m "ERROR") (inbox conn);
  Ok {| inbox := inbox'; sent := sent conn ++ [LEAVE] |}.

(** The fields of a TOURNAMENT_MATCH line that the loop reads. *)
Definition match_fields (msg : string) : result (string * string) :=
  let parts := codec_split codec msg in
  match_token ← Py.getitem parts 2;
  round_num ← Py.getitem parts 3;
  opponent ← (if 4 <? length parts then Py.getitem parts 4 else Ok "unknown");
  Ok (match_token, opponent).

(** The [while True] loop of [run_tournament], one iteration per unit of
    [fuel]; [None] when the fuel runs out before the loop ends. *)
Fixpoint tournament_loop (fuel : nat) (player_name : string)
    (pending_message : option string) (conn : Conn) : option (result Conn) :=
  match fuel with
  | 0 => None
  | S fuel' =>
    match (match pending_message with
           | Some m => if String.eqb m EmptyString then recv (inbox conn) else Ok (m, inbox conn)
           | None => recv (inbox conn)
           end) with
    | Raise e => Some (Raise e)
    | Ok (msg, inbox') =>
      let conn := {| inbox := inbox'; sent := sent conn |} in
      if String.eqb msg EmptyString then tournament_loop fuel' player_name None conn
      else if startswith msg "TOURNAMENT_MATCH" then
        match match_fields msg with
        | Raise e => Some (Raise e)
        | Ok (match_token, opponent) =>
          if String.eqb match_token "BYE" || String.eqb opponent "BYE"
          then tournament_loop fuel' player_name None conn
          else
            match _join_match match_token player_name conn with
            | Raise e => Some (Raise e)
            | Ok (None, conn) => tournament_loop fuel' player_name None conn
            | Ok (Some state, conn) =>
              match _play_game (inbox conn) state (sent conn ++ [READY]) with
              | Raise e => Some (Raise e)
              | Ok out =>
                match _leave_game {| inbox := unread out; sent := outbox out |} with
                | Raise e => Some (Raise e)
                | Ok conn => tournament_loop fuel' player_name (returned out) conn
                end
              end
            end
        end
      else if startswith msg "TOURNAMENT_COMPLETE" then Some (Ok conn)
      else tournament_loop fuel' player_name None conn
    end
  end.

(** [run_tournament] after [connect()]: an exception ends the run (it is
    raised again after the transport is released).  Every iteration of the
    loop but one that takes a pending message reads a message, so twice the
    number of messages, plus one, is fuel enough. *)
Definition run_tournament (tournament_id player_name : string) (conn : Conn)
  : option (result Conn) :=
  match _join_tournament tournament_id player_name conn with
  | Raise e => Some (Raise e)
  | Ok (false, conn) => Some (Ok conn)
  | Ok (true, conn) => tournament_loop (2 * length (inbox conn) + 1) player_name None conn
  end.

End Session.

(** ** A codec for the example lines

    Lines whose fields are separated by single spaces and whose numbers are
    unsigned decimals; on these [split_fields] and [decimal] give what
    [str.split()] and [int()] give.  [parse_hand] and [parse_played] are
    given on the two example lines only. *)

Fixpoint split_fields_from (word : string) (s : string) : list string :=
  match s with
  | EmptyString => if String.eqb word EmptyString then [] else [word]
  | String c s' =>
      if Ascii.eqb c " "%char then
        if String.eqb word EmptyString then split_fields_from EmptyString s'
        else word :: split_fields_from EmptyString s'
      else split_fields_from (word +:+ String c EmptyString) s'
  end.

Definition split_fields (s : string) : list string := split_fields_from EmptyString s.

Fixpoint decimal_from (acc : Z) (s : string) : result Z :=
  match s with
  | EmptyString => Ok acc
  | String c s' =>
      let n := Ascii.nat_of_ascii c in
      if (48 <=? n) && (n <=? 57) then decimal_from (10 * acc + Z.of_nat (n - 48))%Z s'
      else Raise ValueError
  end.

Definition decimal (s : string) : result Z :=
  match s with
  | EmptyString => Raise ValueError
  | _ => decimal_from 0 s
  end.

Definition example_codec : Codec :=
  {| codec_split := split_fields;
     codec_int := decimal;
     parse_hand := fun message =>
       if String.eqb message "HAND 0:Tempura 1:Sashimi" then ["Tempura"; "Sashimi"] else [];
     parse_played := fun message =>
       if String.eqb message "PLAYED Alice:Tempura; Bob:Sashimi"
       then {[ "Alice" := ["Tempura"]; "Bob" := ["Sashimi"] ]} else ∅ |}.

(** A match in progress when the tournament ends: the game has started, one
    hand has been played, and TOURNAMENT_COMPLETE arrives before the reveal
    and the GAME_END of the match. *)
Definition interrupted_match : list string :=
  [ "GAME_START 2"; "ROUND_START 1"; "HAND 0:Tempura 1:Sashimi";
    "TOURNAMENT_COMPLETE t1 Bob";
    "PLAYED Alice:Tempura; Bob:Sashimi"; "GAME_END {} []"; "OK" ].

(** The state of the interrupted match when [_play_game] returns. *)
Definition interrupted_state : GameState :=
  {| game_id := "m7"; player_id := 0; rejoin_token := "tok9"; player_name := "Alice";
     hand := ["Tempura"; "Sashimi"]; player_count := 2;
     all_hands := [Some ["Tempura"]; None];
     current_hand_ptr := 0;
     my_tableau := ["Sashimi"]; all_tableaux := ∅;
     last_card_played := Some "Sashimi";
     last_turn_reveals := ∅; round := 1; turn := 1 |}.

(** ** The specification's combo priority

    The specification's reading of rule 1, to compare [choose_card] with:
    five single-card combo completions in a fixed order. *)

Inductive combo : Type :=
  | SashimiCompletion
  | SquidOnWasabi
  | SalmonOnWasabi
  | TempuraCompletion
  | EggOnWasabi.

Definition spec_priority : list combo :=
  [SashimiCompletion; SquidOnWasabi; SalmonOnWasabi; TempuraCompletion; EggOnWasabi].

Definition spec_combo_card (c : combo) : string :=
  match c with
  | SashimiCompletion => "Sashimi"
  | SquidOnWasabi => "Squid Nigiri"
  | SalmonOnWasabi => "Salmon Nigiri"
  | TempuraCompletion => "Tempura"
  | EggOnWasabi => "Egg Nigiri"
  end.

(** The card of combo [c] is in hand and scores at once on the tableau. *)
Definition spec_playable (hand : list string) (state : GameState) (c : combo) : bool :=
  match c with
  | SashimiCompletion => (count state "Sashimi" mod 3 =? 2) && Py.contains "Sashimi" hand
  | SquidOnWasabi => has_unused_wasabi state && Py.contains "Squid Nigiri" hand
  | SalmonOnWasabi => has_unused_wasabi state && Py.contains "Salmon Nigiri" hand
  | TempuraCompletion => (count state "Tempura" mod 2 =? 1) && Py.contains "Tempura" hand
  | EggOnWasabi => has_unused_wasabi state && Py.contains "Egg Nigiri" hand
  end.

(** ** Example states *)

(** A fresh state after joining as Alice: empty tableau, nothing tracked. *)
Definition fresh_state : GameState := new_GameState "g1" 0 "tok" "Alice".

(** A state whose tableau holds two Sashimi, in a three-player game. *)
Definition two_sashimi_state : GameState :=
  {| game_id := "g1"; player_id := 0; rejoin_token := "tok"; player_name := "Alice";
     hand := ["Tempura"; "Sashimi"; "Pudding"]; player_count := 3;
     all_hands := [Some []; Some []; Some ["Tempura"; "Sashimi"; "Pudding"]];
     current_hand_ptr := 2;
     my_tableau := ["Sashimi"; "Sashimi"];
     all_tableaux := ∅; last_card_played := Some "Sashimi";
     last_turn_reveals := ∅; round := 1; turn := 3 |}.

(** A state holding Chopsticks on the tableau. *)
Definition chopsticks_state : GameState :=
  {| game_id := "g1"; player_id := 0; rejoin_token := "tok"; player_name := "Alice";
     hand := ["Squid Nigiri"; "Tempura"; "Wasabi"]; player_count := 2;
     all_hands := [Some []; Some ["Squid Nigiri"; "Tempura"; "Wasabi"]];
     current_hand_ptr := 1;
     my_tableau := ["Chopsticks"];
     all_tableaux := {[ "Alice" := ["Chopsticks"] ]}; last_card_played := Some "Chopsticks";
     last_turn_reveals := {[ "Alice" := ["Chopsticks"] ]}; round := 1; turn := 2 |}.

(** Chopsticks in hand, none played, and the next hand already seen. *)
Definition lookahead_state : GameState :=
  {| game_id := "g1"; player_id := 0; rejoin_token := "tok"; player_name := "Alice";
     hand := ["Chopsticks"; "Pudding"]; player_count := 2;
     all_hands := [Some ["Chopsticks"; "Pudding"]; Some ["Sashimi"; "Dumpling"; "Sashimi"]];
     current_hand_ptr := 0;
     my_tableau := ["Tempura"];
     all_tableaux := {[ "Alice" := ["Tempura"] ]}; last_card_played := Some "Tempura";
     last_turn_reveals := {[ "Alice" := ["Tempura"] ]}; round := 1; turn := 2 |}.

(** Round 1 of a three-player game, first hand just observed. *)
Definition first_hand_state : GameState :=
  {| game_id := "test"; player_id := 0; rejoin_token := EmptyString; player_name := "Alice";
     hand := ["Tempura"; "Sashimi"; "Salmon Nigiri"; "Pudding"]; player_count := 3;
     all_hands := [Some ["Tempura"; "Sashimi"; "Salmon Nigiri"; "Pudding"]; None; None];
     current_hand_ptr := 0;
     my_tableau := []; all_tableaux := ∅; last_card_played := None;
     last_turn_reveals := ∅; round := 1; turn := 1 |}.

(** A populated mid-round state, before any [GAME_START] set the player count. *)
Definition uncounted_state : GameState :=
  {| game_id := "g1"; player_id := 0; rejoin_token := "tok"; player_name := "Alice";
     hand := ["Pudding"]; player_count := 0;
     all_hands := [];
     current_hand_ptr := 4;
     my_tableau := ["Tempura"; "Wasabi"];
     all_tableaux := {[ "Alice" := ["Tempura"; "Wasabi"]; "Bob" := ["Sashimi"; "Pudding"] ]};
     last_card_played := Some "Wasabi";
     last_turn_reveals := {[ "Alice" := ["Wasabi"]; "Bob" := ["Pudding"] ]};
     round := 2; turn := 5 |}.

(** Turn 5 of 9 in a three-player game: no pudding of our own, one each for
    the two opponents. *)
Definition pudding_state : GameState :=
  {| game_id := "g1"; player_id := 0; rejoin_token := "tok"; player_name := "Alice";
     hand := ["Dumpling"; "Pudding"; "Tempura"]; player_count := 3;
     all_hands := [Some []; Some []; Some []];
     current_hand_ptr := 4;
     my_tableau := ["Dumpling"; "Maki Roll (1)"; "Dumpling"; "Maki Roll (2)"];
     all_tableaux :=
       {[ "Alice" := ["Dumpling"; "Maki Roll (1)"; "Dumpling"; "Maki Roll (2)"];
          "Bob" := ["Pudding"; "Tempura"; "Tempura"; "Sashimi"];
          "Carol" := ["Sashimi"; "Pudding"; "Wasabi"; "Egg Nigiri"] ]};
     last_card_played := Some "Maki Roll (2)";
     last_turn_reveals :=
       {[ "Alice" := ["Maki Roll (2)"]; "Bob" := ["Sashimi"]; "Carol" := ["Egg Nigiri"] ]};
     round := 1; turn := 5 |}.

(** ** Single-game entry point *)

Section SingleGame.
Context (codec : Codec).

(** [join_game]: [JOIN], then wait for WELCOME or ERROR.  On WELCOME
    [self.state] becomes a new game state built from the fields of the line
    (returned here, with [True]); otherwise the result is [False]. *)
Definition join_game (game_id player_name : string) (conn : Conn)
  : result (option GameState * Conn) :=
  '(response, inbox') ← recv_until
      (fun m => startswith m "WELCOME" || startswith m "ERROR") (inbox conn);
  let conn' := {| inbox := inbox'; sent := sent conn ++ [JOIN game_id player_name] |} in
  if startswith response "WELCOME" then
    let parts := codec_split codec response in
    gid ← Py.getitem parts 1;
    pid_field ← Py.getitem parts 2;
    pid ← codec_int codec pid_field;
    token ← (if 3 <? length parts then Py.getitem parts 3 else Ok EmptyString);
    Ok (Some (new_GameState gid pid token player_name), conn')
  else Ok (None, conn').

(** [run] after [connect()]: an exception ends the run (it is raised again
    after the transport is released). *)
Definition run (game_id player_name : string) (conn : Conn) : result Conn :=
  '(joined, conn') ← join_game game_id player_name conn;
  match joined with
  | None => Ok conn'
  | Some state =>
      out ← _play_game codec (inbox conn') state (sent conn' ++ [READY]);
      Ok {| inbox := unread out; sent := outbox out |}
  end.

End SingleGame.

(** ** Decoding the wire lines: [parse_played] and [parse_hand]

    A Python [str] is taken here as its sequence of characters, each with a
    code point below 256; the functions work on [list ascii] and convert at
    the ends. *)

Module Wire.

Definition chars (s : string) : list ascii := String.list_ascii_of_string s.
Definition str (l : list ascii) : string := String.string_of_list_ascii l.

(** [c.isspace()], which is also the [\s] of the regular expression: tab to
    carriage return, the four separators 28 to 31, space, next line (133) and
    no-break space (160). *)
Definition isspace (c : ascii) : bool :=
  let n := nat_of_ascii c in
  ((9 <=? n) && (n <=? 13)) || ((28 <=? n) && (n <=? 32)) || (n =? 133) || (n =? 160).

(** The [\d] of the regular expression. *)
Definition isdigit (c : ascii) : bool :=
  let n := nat_of_ascii c in (48 <=? n) && (n <=? 57).

Fixpoint lstrip (l : list ascii) : list ascii :=
  match l with
  | c :: l' => if isspace c then lstrip l' else l
  | [] => []
  end.

Definition rstrip (l : list ascii) : list ascii := reverse (lstrip (reverse l)).

(** [s.strip()] *)
Definition strip (l : list ascii) : list ascii := lstrip (rstrip l).

(** [s.split(sep)] for a separator of one character: the pieces between the
    separators, empty pieces included; never an empty list. *)
Fixpoint split_on (sep : ascii) (l : list ascii) : list (list ascii) :=
  match l with
  | [] => [[]]
  | c :: l' =>
      if Ascii.eqb c sep then [] :: split_on sep l'
      else match split_on sep l' with
           | piece :: pieces => (c :: piece) :: pieces
           | [] => [[c]]
           end
  end.

(** [s.split(sep, 1)] when [sep] is in [s]: what is before the first [sep]
    and what is after it. *)
Fixpoint split_once (sep : ascii) (l : list ascii) : option (list ascii * list ascii) :=
  match l with
  | [] => None
  | c :: l' =>
      if Ascii.eqb c sep then Some ([], l')
      else match split_once sep l' with
           | Some (before, after) => Some (c :: before, after)
           | None => None
           end
  end.

(** [sep in s] *)
Definition has_char (sep : ascii) (l : list ascii) : bool :=
  existsb (Ascii.eqb sep) l.

(** [[c.strip() for c in cards_str.split(",") if c.strip()]] *)
Definition card_list (cards_str : list ascii) : list string :=
  omap (fun c => match strip c with
                 | [] => None
                 | stripped => Some (str stripped)
                 end)
       (split_on ","%char cards_str).

(** The body of the loop of [parse_played] for one entry. *)
Definition add_entry (reveals : gmap string (list string)) (entry : list ascii)
  : gmap string (list string) :=
  let entry := strip entry in
  match entry with
  | [] => reveals
  | _ =>
      if negb (has_char ":"%char entry) then reveals
      else match split_once ":"%char entry with
           | Some (name, cards_str) => <[str (strip name) := card_list cards_str]> reveals
           | None => reveals
           end
  end.

(** [parse_played(message)]; [message[len("PLAYED "):]] drops seven characters. *)
Definition parse_played (message : string) : gmap string (list string) :=
  let payload := strip (drop 7 (chars message)) in
  fold_left add_entry (split_on ";"%char payload) ∅.

(** *** The regular expression of [parse_hand]: [(\d+):(.*?)(?=\s+\d+:|$)] *)

Fixpoint skip_digits (l : list ascii) : list ascii :=
  match l with
  | c :: l' => if isdigit c then skip_digits l' else l
  | [] => []
  end.

(** [\d+:] at the head of [l]: what follows it.  The digits before the
    colon are the whole run of digits: a shorter run is followed by a digit. *)
Definition digits_colon (l : list ascii) : option (list ascii) :=
  match l with
  | c :: _ =>
      if isdigit c then
        match skip_digits l with
        | c' :: rest => if Ascii.eqb c' ":"%char then Some rest else None
        | [] => None
        end
      else None
  | [] => None
  end.

(** The lookahead [(?=\s+\d+:|$)]: white space (the whole run of it, what
    follows a shorter run being white space and no digit) then [\d+:]; or
    the end of the string, which [$] also sees before a final newline. *)
Definition lookahead (l : list ascii) : bool :=
  match l with
  | [] => true
  | c :: l' =>
      (isspace c && bool_decide (is_Some (digits_colon (lstrip l))))
      || (Ascii.eqb c (ascii_of_nat 10) && bool_decide (l' = []))
  end.

(** The lazy group [(.*?)] up to the first position where the lookahead
    holds: the text of the group and what is left.  [.] takes no newline. *)
Fixpoint lazy_group (l : list ascii) : option (list ascii * list ascii) :=
  if lookahead l then Some ([], l)
  else match l with
       | [] => None
       | c :: l' =>
           if Ascii.eqb c (ascii_of_nat 10) then None
           else match lazy_group l' with
                | Some (card, rest) => Some (c :: card, rest)
                | None => None
                end
       end.

(** A match of the whole expression at the head of [l]: group 2 and the rest. *)
Definition match_here (l : list ascii) : option (list ascii * list ascii) :=
  match digits_colon l with
  | Some body => lazy_group body
  | None => None
  end.

(** [re.finditer]: the leftmost match, then on from where it ended.  A match
    takes at least a digit and a colon, so [fuel] the length of the text is
    enough. *)
Fixpoint finditer (fuel : nat) (l : list ascii) : list (list ascii) :=
  match fuel with
  | 0 => []
  | S fuel' =>
      match l with
      | [] => []
      | _ :: l' =>
          match match_here l with
          | Some (card, rest) => card :: finditer fuel' rest
          | None => finditer fuel' l'
          end
      end
  end.

(** [parse_hand(message)]; [message[len("HAND "):]] drops five characters. *)
Definition parse_hand (message : string) : list string :=
  let payload := strip (drop 5 (chars message)) in
  map (fun card => str (strip card)) (finditer (length payload) payload).

(** *** The lines the parsers are written for

    The docstrings of the two parsers and the self-test show the lines:
    [PLAYED Alice:Squid Nigiri,Tempura; Bob:Sashimi] and
    [HAND 0:Tempura 1:Salmon Nigiri].  [join] is [sep.join(pieces)]. *)

Fixpoint join (sep : list ascii) (pieces : list (list ascii)) : list ascii :=
  match pieces with
  | [] => []
  | piece :: pieces' =>
      match pieces' with
      | [] => piece
      | _ => piece ++ sep ++ join sep pieces'
      end
  end.

Definition played_entry (entry : string * list string) : list ascii :=
  chars entry.1 ++ ":"%char :: join [","%char] (map chars entry.2).

Definition played_line (entries : list (string * list string)) : string :=
  str (chars "PLAYED " ++ join [";"%char; " "%char] (map played_entry entries)).

Definition hand_entry (entry : string * string) : list ascii :=
  chars entry.1 ++ ":"%char :: chars entry.2.

Definition hand_line (entries : list (string * string)) : string :=
  str (chars "HAND " ++ join [" "%char] (map hand_entry entries)).

(** No white space at the head, at the end. *)
Definition starts_clean (l : list ascii) : Prop :=
  ∀ c, head l = Some c → isspace c = false.

Definition ends_clean (l : list ascii) : Prop :=
  ∀ c, last l = Some c → isspace c = false.

(** A player name of a [PLAYED] line: no white space around it, no colon and
    no semicolon in it. *)
Definition name_ok (name : string) : Prop :=
  starts_clean (chars name) ∧ ends_clean (chars name)
  ∧ (":"%char ∉ chars name) ∧ (";"%char ∉ chars name).

(** A card of a [PLAYED] line: not empty, no white space around it, no comma
    and no semicolon in it. *)
Definition played_card_ok (card : string) : Prop :=
  chars card ≠ [] ∧ starts_clean (chars card) ∧ ends_clean (chars card)
  ∧ (","%char ∉ chars card) ∧ (";"%char ∉ chars card).

(** An index of a [HAND] line: one digit or more. *)
Definition label_ok (label : string) : Prop :=
  chars label ≠ [] ∧ Forall (fun c => isdigit c = true) (chars label).

(** A card of a [HAND] line: no white space around it, no colon and no
    newline in it. *)
Definition hand_card_ok (card : string) : Prop :=
  starts_clean (chars card) ∧ ends_clean (chars card)
  ∧ (":"%char ∉ chars card) ∧ (ascii_of_nat 10 ∉ chars card).

(** What [parse_played] keeps for a player: a stripped name and stripped,
    non-empty cards. *)
Definition played_fields (reveals : gmap string (list string)) : Prop :=
  ∀ name cards, reveals !! name = Some cards →
    name_ok name ∧ Forall played_card_ok cards.

(** What follows a card in a [HAND] line: nothing, or a space and the next
    entry. *)
Definition after_card (rest : list ascii) : Prop :=
  rest = [] ∨ ∃ ds r, ds ≠ [] ∧ Forall (fun c => isdigit c = true) ds
                      ∧ rest = " "%char :: ds ++ ":"%char :: r.

End Wire.

(** The codec of the bot: its own two parsers, with [str.split] and [int]
    left as parameters. *)
Definition wire_codec (split : string → list string) (int : string → result Z) : Codec :=
  {| codec_split := split; codec_int := int;
     parse_hand := Wire.parse_hand; parse_played := Wire.parse_played |}.

(** ** Predicates on states and command logs *)

(** No slot of the rotation buffer past the cursor holds a hand yet. *)
Definition unseen_ahead (state : GameState) : Prop :=
  ∀ i next_h, current_hand_ptr state < i → all_hands state !! i ≠ Some (Some next_h).

(** ** The steps of a round

    Within a round the game loop does two things to the state: on a HAND line
    it records the parsed hand and plays the turn, on a PLAYED line it handles
    the reveal.  [run_steps] applies a sequence of these, as [_play_game]
    does for the corresponding lines. *)

Inductive round_step : Type :=
  | StepHand (parsed : list string)
  | StepPlayed (reveals : gmap string (list string)).

Definition run_step (step : round_step) (state : GameState) : result GameState :=
  match step with
  | StepHand parsed =>
      match play_turn (observe_hand parsed state) with
      | Ok (state', _) => Ok state'
      | Raise e => Raise e
      end
  | StepPlayed reveals => Ok (handle_played reveals state)
  end.

Fixpoint run_steps (steps : list round_step) (state : GameState) : result GameState :=
  match steps with
  | [] => Ok state
  | step :: steps' =>
      match run_step step state with
      | Ok state' => run_steps steps' state'
      | Raise e => Raise e
      end
  end.

Definition is_reveal (step : round_step) : bool :=
  match step with
  | StepPlayed _ => true
  | StepHand _ => false
  end.

(** Who the bot is in a game: what WELCOME told it, and its name. *)
Definition identity (state : GameState) : string * Z * string * string :=
  (game_id state, player_id state, rejoin_token state, player_name state).

(** A command that plays cards. *)
Definition is_play (cmd : command) : bool :=
  match cmd with
  | PLAY _ | CHOPSTICKS _ _ => true
  | _ => false
  end.

(** A message at which [_play_game] returns. *)
Definition ends_game (msg : string) : bool :=
  startswith msg "TOURNAMENT_MATCH" || startswith msg "TOURNAMENT_COMPLETE"
  || startswith msg "GAME_END".


(** * Properties *)

(** ** Facts about the list primitives *)

Section PyFacts.
Implicit Types (l : list string) (x y : string).

Lemma contains_elem_of x l : Py.contains x l = true ↔ x ∈ l.
Proof.
  induction l as [|y l IH]; simpl.
  - split; [discriminate | intros H; inversion H].
  - destruct (String.eqb_spec y x) as [->|Hne].
    + split; [intros _; left | reflexivity].
    + rewrite IH. split; [now right |].
      intros H. inversion H; subst; [contradiction | assumption].
Qed.

Lemma contains_false x l : Py.contains x l = false ↔ x ∉ l.
Proof.
  rewrite <- contains_elem_of. destruct (Py.contains x l); split; congruence.
Qed.

Lemma count_occ_count l x : Py.count l x = count_occ String.string_dec l x.
Proof.
  induction l as [|y l IH]; simpl; [reflexivity |].
  destruct (String.eqb_spec y x), (String.string_dec y x); try contradiction;
    rewrite IH; reflexivity.
Qed.

Lemma occurances_from l x n :
  fold_left (fun res i => if String.eqb i x then res + 1 else res) l n = n + Py.count l x.
Proof.
  revert n. induction l as [|y l IH]; intros n; simpl; [lia |].
  rewrite IH. destruct (String.eqb y x); lia.
Qed.

Lemma occurances_count l x : occurances l x = Py.count l x.
Proof. unfold occurances. now rewrite occurances_from. Qed.

(** [l.index(x)] succeeds on a member, with the first position of [x]. *)
Lemma index_contains x l :
  Py.contains x l = true →
  ∃ i, Py.index l x = Ok i ∧ l !! i = Some x ∧ i < length l
       ∧ Py.contains x (take i l) = false.
Proof.
  induction l as [|y l IH]; simpl; [discriminate |].
  destruct (String.eqb_spec y x) as [->|Hne].
  - intros _. exists 0. repeat split; lia.
  - intros H. destruct (IH H) as (i & -> & Hi & Hlt & Hpre).
    exists (S i). simpl. repeat split; [assumption | lia |].
    destruct (String.eqb_spec y x); [contradiction | assumption].
Qed.

(** [l.remove(x)] on a member drops exactly its first occurrence. *)
Lemma remove_contains x l :
  Py.contains x l = true →
  ∃ l1 l2, l = l1 ++ (x :: l2) ∧ (x ∉ l1) ∧ Py.remove l x = Ok (l1 ++ l2).
Proof.
  induction l as [|y l IH]; simpl; [discriminate |].
  destruct (String.eqb_spec y x) as [->|Hne].
  - intros _. exists [], l. repeat split. intros H; inversion H.
  - intros H. destruct (IH H) as (l1 & l2 & -> & Hnot & ->).
    exists (y :: l1), l2. repeat split.
    intros Hin. inversion Hin; subst; [now apply Hne | contradiction].
Qed.

Lemma indices_from_lookup l x s k :
  k ∈ Py.indices_from s l x → s ≤ k ∧ l !! (k - s) = Some x.
Proof.
  revert s. induction l as [|y l IH]; intros s; simpl.
  - intros H; inversion H.
  - assert (Hrec : k ∈ Py.indices_from (S s) l x → s ≤ k ∧ (y :: l) !! (k - s) = Some x).
    { intros H. destruct (IH _ H) as [Hle Hk]. split; [lia |].
      replace (k - s) with (S (k - S s)) by lia. exact Hk. }
    destruct (String.eqb_spec y x) as [->|Hne]; [|exact Hrec].
    intros H. inversion H; subst; [|now apply Hrec].
    split; [lia |]. now rewrite Nat.sub_diag.
Qed.

Lemma indices_lookup l x k : k ∈ Py.indices l x → l !! k = Some x.
Proof.
  intros H. destruct (indices_from_lookup _ _ _ _ H) as [_ Hk].
  now rewrite Nat.sub_0_r in Hk.
Qed.

End PyFacts.

(** ** Derived facts of the game state *)

(** C9: [has_unused_wasabi] holds exactly when the tableau counts strictly more
    Wasabi than Egg, Salmon and Squid Nigiri together; so it is false as soon
    as the Nigiri played are as many as the Wasabi.  The counts are those of
    the standard library's [count_occ] on the tableau. *)
Theorem has_unused_wasabi_iff (state : GameState) :
  let occ card := count_occ String.string_dec (my_tableau state) card in
  (has_unused_wasabi state = true ↔
     occ "Wasabi" > occ "Egg Nigiri" + occ "Salmon Nigiri" + occ "Squid Nigiri")
  ∧ (has_unused_wasabi state = false ↔
     occ "Wasabi" ≤ occ "Egg Nigiri" + occ "Salmon Nigiri" + occ "Squid Nigiri").
Proof.
  intros occ. unfold has_unused_wasabi, count. cbn [map sum_list sum_list_with].
  subst occ. cbv beta delta [id]. rewrite <- !count_occ_count.
  split.
  - rewrite Nat.ltb_lt. lia.
  - rewrite Nat.ltb_ge. lia.
Qed.

(** ** The single-play decision *)

(** The pudding rule's condition is evaluated only on a non-empty list of
    counts, where [max] and [min] are defined. *)
Lemma pudding_cond_total (state : GameState) (turns_left : Z) (counts : list nat) :
  ∃ wanted, match counts with
            | [] => Ok false
            | _ => pudding_cond state turns_left counts
            end = Ok wanted.
Proof.
  destruct counts as [|n counts]; [now exists false |].
  unfold pudding_cond. cbn [Py.max Py.min mbind result_bind].
  repeat (match goal with |- context [if ?b then _ else _] => destruct b end);
    eexists; reflexivity.
Qed.

(** C1, as the specification states it, fails: on a fresh state (no unused
    Wasabi, no Chopsticks in hand or tableau) the hand Wasabi, Squid Nigiri
    gives index 1, not the index 0 of Wasabi. *)
Lemma choose_card_wasabi_squid_counterexample :
  has_unused_wasabi fresh_state = false
  ∧ has_chopsticks fresh_state = false
  ∧ Py.contains "Chopsticks" ["Wasabi"; "Squid Nigiri"] = false
  ∧ choose_card ["Wasabi"; "Squid Nigiri"] fresh_state = Ok 1
  ∧ choose_card ["Wasabi"; "Squid Nigiri"] fresh_state ≠ Ok 0.
Proof. repeat split; try reflexivity. vm_compute. discriminate. Qed.

(** C1 (amended): with hand Wasabi, Squid Nigiri and no unused Wasabi on the
    tableau, no combo applies; the hand holds one Nigiri card only, so the
    Nigiri-count rule (two or more Nigiri and a Wasabi) does not apply either,
    and [choose_card] returns index 1, the Squid Nigiri, by the best-Nigiri
    rule. *)
Theorem choose_card_wasabi_squid (state : GameState) :
  has_unused_wasabi state = false →
  let hand := ["Wasabi"; "Squid Nigiri"] in
  valid_combo state hand (my_tableau state) = []
  ∧ length (List.filter (fun card => Py.contains card nigiri_types) hand) = 1
  ∧ choose_card hand state = Ok 1.
Proof.
  intros Hw hand.
  assert (Hcombo : valid_combo state hand (my_tableau state) = []).
  { unfold valid_combo. rewrite Hw. subst hand. cbn [Py.contains String.eqb Ascii.eqb Bool.eqb].
    rewrite !andb_false_r. reflexivity. }
  repeat split; [assumption |].
  unfold choose_card. rewrite Hcombo. subst hand.
  destruct (pudding_cond_total state
              (total_turns (player_count state) - turn state) (pudding_counts state))
    as [wanted ->].
  cbn. rewrite !andb_false_r. reflexivity.
Qed.

Lemma choose_card_wasabi_squid_witness :
  choose_card ["Wasabi"; "Squid Nigiri"] fresh_state = Ok 1.
Proof. apply (choose_card_wasabi_squid fresh_state). reflexivity. Defined.

(** [valid_combo] lists the cards of the playable combos, in priority order. *)
Lemma valid_combo_playable (hand : list string) (state : GameState) :
  valid_combo state hand (my_tableau state)
  = map spec_combo_card (List.filter (spec_playable hand state) spec_priority).
Proof.
  unfold valid_combo, spec_priority. cbn [List.filter spec_playable].
  rewrite !occurances_count. fold (count state "Sashimi") (count state "Tempura").
  destruct (_ && Py.contains "Sashimi" hand);
    destruct (has_unused_wasabi state && Py.contains "Squid Nigiri" hand);
    destruct (has_unused_wasabi state && Py.contains "Salmon Nigiri" hand);
    destruct (_ && Py.contains "Tempura" hand);
    destruct (has_unused_wasabi state && Py.contains "Egg Nigiri" hand);
    reflexivity.
Qed.

Lemma spec_playable_in_hand (hand : list string) (state : GameState) (c : combo) :
  spec_playable hand state c = true → Py.contains (spec_combo_card c) hand = true.
Proof. destruct c; cbn; intros H; apply andb_prop in H; tauto. Qed.

Lemma find_filter_head {A : Type} (p : A → bool) (l : list A) (a : A) :
  List.find p l = Some a → ∃ rest, List.filter p l = a :: rest.
Proof.
  induction l as [|b l IH]; cbn; [discriminate |].
  destruct (p b) eqn:E.
  - intros [= ->]. eauto.
  - exact IH.
Qed.

(** C2: when single-card combo completions are playable, [choose_card]
    returns the (first) index of the card of the first playable one in the
    order Sashimi completion, Squid on Wasabi, Salmon on Wasabi, Tempura
    completion, Egg on Wasabi; and with hand Tempura, Sashimi, Pudding on a
    tableau of two Sashimi it returns index 1, the Sashimi. *)
Theorem choose_card_combo_priority :
  (∀ (hand : list string) (state : GameState) (c : combo),
     List.find (spec_playable hand state) spec_priority = Some c →
     ∃ i, choose_card hand state = Ok i
          ∧ hand !! i = Some (spec_combo_card c)
          ∧ Py.index hand (spec_combo_card c) = Ok i)
  ∧ (∀ state : GameState,
       my_tableau state = ["Sashimi"; "Sashimi"] →
       choose_card ["Tempura"; "Sashimi"; "Pudding"] state = Ok 1).
Proof.
  split.
  - intros hand state c Hfind.
    pose proof (find_some _ _ Hfind) as [_ Hplay].
    apply spec_playable_in_hand, index_contains in Hplay as (i & Hi & Hlook & _).
    apply find_filter_head in Hfind as [rest Hrest].
    exists i. unfold choose_card.
    rewrite valid_combo_playable, Hrest. cbn [map]. auto.
  - intros state Htab.
    unfold choose_card, valid_combo, has_unused_wasabi, count.
    rewrite Htab. reflexivity.
Qed.

Lemma choose_card_combo_priority_witness :
  (∃ i, choose_card ["Tempura"; "Sashimi"; "Pudding"] two_sashimi_state = Ok i
        ∧ ["Tempura"; "Sashimi"; "Pudding"] !! i = Some "Sashimi"
        ∧ Py.index ["Tempura"; "Sashimi"; "Pudding"] "Sashimi" = Ok i)
  ∧ choose_card ["Tempura"; "Sashimi"; "Pudding"] two_sashimi_state = Ok 1.
Proof.
  split.
  - apply (proj1 choose_card_combo_priority
             ["Tempura"; "Sashimi"; "Pudding"] two_sashimi_state SashimiCompletion).
    reflexivity.
  - apply (proj2 choose_card_combo_priority two_sashimi_state). reflexivity.
Defined.

(** ** The two-card chopstick decision *)

Lemma first_two_indices (hand : list string) (card : string) (i j : nat) :
  first_two (Py.indices hand card) = Some (i, j) →
  hand !! i = Some card ∧ hand !! j = Some card.
Proof.
  destruct (Py.indices hand card) as [|a [|b rest]] eqn:E; cbn; try discriminate.
  intros [= <- <-].
  split; apply indices_lookup; rewrite E; [left | right; left].
Qed.

(** What a returned pair selects: two cards of a kind, or Wasabi then a Nigiri. *)
Lemma chopstick_combo_selects (hand : list string) (state : GameState) (i j : nat) :
  chopstick_combo hand state = Ok (Some (i, j)) →
  (∃ card, card ∈ ["Sashimi"; "Tempura"] ∧ hand !! i = Some card ∧ hand !! j = Some card)
  ∨ (∃ nigiri, nigiri ∈ nigiri_types ∧ hand !! i = Some "Wasabi" ∧ hand !! j = Some nigiri).
Proof.
  unfold chopstick_combo.
  destruct (negb (has_chopsticks state)); [discriminate |].
  destruct (if occurances (my_tableau state) "Sashimi" mod 3 =? 1 then _ else None)
    as [[a b]|] eqn:Esashimi.
  { intros [= <- <-].
    destruct (_ =? 1); [|discriminate].
    left. exists "Sashimi". split; [left | now apply first_two_indices]. }
  clear Esashimi.
  assert (Hpair : ∀ nigiri, nigiri ∈ nigiri_types →
            Py.contains "Wasabi" hand && Py.contains nigiri hand = true →
            (i' ← Py.index hand "Wasabi"; j' ← Py.index hand nigiri; Ok (Some (i', j')))
              = Ok (Some (i, j)) →
            ∃ n, n ∈ nigiri_types ∧ hand !! i = Some "Wasabi" ∧ hand !! j = Some n).
  { intros nigiri Hin Hboth Hret. apply andb_prop in Hboth as [Hw Hn].
    apply index_contains in Hw as (iw & Hiw & Hlw & _).
    apply index_contains in Hn as (jn & Hjn & Hln & _).
    rewrite Hiw, Hjn in Hret. cbn in Hret. injection Hret as <- <-. eauto. }
  destruct (_ && Py.contains "Squid Nigiri" hand) eqn:Esquid.
  { intros H. right. apply (Hpair "Squid Nigiri"); [now apply contains_elem_of | assumption..]. }
  destruct (_ && Py.contains "Salmon Nigiri" hand) eqn:Esalmon.
  { intros H. right. apply (Hpair "Salmon Nigiri"); [now apply contains_elem_of | assumption..]. }
  destruct (if occurances (my_tableau state) "Tempura" mod 2 =? 1 then _ else None)
    as [[a b]|] eqn:Etempura.
  { intros [= <- <-].
    destruct (_ =? 1); [|discriminate].
    left. exists "Tempura". split; [right; left | now apply first_two_indices]. }
  destruct (_ && Py.contains "Egg Nigiri" hand) eqn:Eegg.
  { intros H. right. apply (Hpair "Egg Nigiri"); [now apply contains_elem_of | assumption..]. }
  discriminate.
Qed.

Lemma choose_chopsticks_combo (hand : list string) (state : GameState) :
  choose_chopsticks hand state = chopstick_combo hand state.
Proof.
  unfold choose_chopsticks. destruct (chopstick_combo hand state) as [[p|]|e]; reflexivity.
Qed.

(** C3: whenever the two-card chooser returns a pair of indices, the second
    card is not Wasabi; so if Wasabi is one of the two cards selected, it is
    the one at the first index. *)
Theorem choose_chopsticks_wasabi_first
    (hand : list string) (state : GameState) (idx1 idx2 : nat) :
  choose_chopsticks hand state = Ok (Some (idx1, idx2)) →
  hand !! idx2 ≠ Some "Wasabi"
  ∧ (hand !! idx1 = Some "Wasabi" ∨ hand !! idx2 = Some "Wasabi" →
     hand !! idx1 = Some "Wasabi").
Proof.
  rewrite choose_chopsticks_combo. intros Hret.
  assert (Hsecond : hand !! idx2 ≠ Some "Wasabi").
  { apply chopstick_combo_selects in Hret
      as [(card & Hcard & _ & ->) | (nigiri & Hn & _ & ->)]; intros [= ->].
    - apply contains_elem_of in Hcard. discriminate Hcard.
    - apply contains_elem_of in Hn. discriminate Hn. }
  split; [assumption |]. intros [H | H]; [assumption | contradiction].
Qed.

Lemma choose_chopsticks_wasabi_first_witness :
  choose_chopsticks ["Squid Nigiri"; "Tempura"; "Wasabi"] chopsticks_state = Ok (Some (2, 0))
  ∧ ["Squid Nigiri"; "Tempura"; "Wasabi"] !! 0 ≠ Some "Wasabi"
  ∧ (["Squid Nigiri"; "Tempura"; "Wasabi"] !! 2 = Some "Wasabi"
     ∨ ["Squid Nigiri"; "Tempura"; "Wasabi"] !! 0 = Some "Wasabi" →
     ["Squid Nigiri"; "Tempura"; "Wasabi"] !! 2 = Some "Wasabi").
Proof.
  split; [reflexivity |].
  apply (choose_chopsticks_wasabi_first
           ["Squid Nigiri"; "Tempura"; "Wasabi"] chopsticks_state 2 0).
  reflexivity.
Defined.

(** ** The chopsticks lookahead *)

(** [next_hand] is the slot one past the cursor, when it is there and known. *)
Lemma next_hand_Some (state : GameState) (next_h : list string) :
  next_hand state = Some next_h ↔
  all_hands state !! (current_hand_ptr state + 1) = Some (Some next_h).
Proof.
  unfold next_hand.
  destruct (Nat.ltb_spec (current_hand_ptr state + 1) (length (all_hands state))) as [Hlt|Hge].
  - destruct (all_hands state !! (current_hand_ptr state + 1)) as [slot|] eqn:E.
    + split; [intros -> | intros [= ->]]; reflexivity.
    + split; discriminate.
  - rewrite (lookup_ge_None_2 _ _ Hge). split; discriminate.
Qed.

Lemma existsb_nigiri (next_h : list string) :
  existsb (fun n => Py.contains n next_h) nigiri_types = true ↔
  "Egg Nigiri" ∈ next_h ∨ "Salmon Nigiri" ∈ next_h ∨ "Squid Nigiri" ∈ next_h.
Proof.
  cbn [existsb nigiri_types]. rewrite !orb_true_iff, !contains_elem_of.
  intuition discriminate.
Qed.

(** C4: with Chopsticks in hand and none on the tableau, the lookahead
    predicate is true exactly when the slot one past the cursor holds a known
    hand that has Wasabi together with a Nigiri variant, or two or more
    Sashimi, or two or more Tempura; when that slot is out of range or still
    unknown the predicate is false. *)
Theorem should_grab_chopsticks_iff (hand : list string) (state : GameState) :
  "Chopsticks" ∈ hand →
  "Chopsticks" ∉ my_tableau state →
  let slot := all_hands state !! (current_hand_ptr state + 1) in
  (should_grab_chopsticks hand state = true ↔
     ∃ next_h, slot = Some (Some next_h)
       ∧ (("Wasabi" ∈ next_h
           ∧ ("Egg Nigiri" ∈ next_h ∨ "Salmon Nigiri" ∈ next_h ∨ "Squid Nigiri" ∈ next_h))
          ∨ 2 ≤ count_occ String.string_dec next_h "Sashimi"
          ∨ 2 ≤ count_occ String.string_dec next_h "Tempura"))
  ∧ (slot = None ∨ slot = Some None → should_grab_chopsticks hand state = false).
Proof.
  intros Hhand Htab slot.
  apply contains_elem_of in Hhand. apply contains_false in Htab.
  assert (Hiff : should_grab_chopsticks hand state = true ↔
     ∃ next_h, slot = Some (Some next_h)
       ∧ (("Wasabi" ∈ next_h
           ∧ ("Egg Nigiri" ∈ next_h ∨ "Salmon Nigiri" ∈ next_h ∨ "Squid Nigiri" ∈ next_h))
          ∨ 2 ≤ count_occ String.string_dec next_h "Sashimi"
          ∨ 2 ≤ count_occ String.string_dec next_h "Tempura")).
  { unfold should_grab_chopsticks, has_chopsticks. rewrite Hhand, Htab. cbn [negb].
    destruct (next_hand state) as [next_h|] eqn:Enext.
    - apply next_hand_Some in Enext. fold slot in Enext.
      split.
      + intros H. exists next_h. split; [assumption |].
        rewrite <- !count_occ_count, <- existsb_nigiri, <- contains_elem_of.
        destruct (Py.contains "Wasabi" next_h && existsb _ nigiri_types) eqn:E1.
        { left. apply andb_prop in E1. tauto. }
        destruct (Nat.leb_spec 2 (Py.count next_h "Sashimi")); [tauto |].
        destruct (Nat.leb_spec 2 (Py.count next_h "Tempura")); [tauto | discriminate].
      + intros (h & Hh & Hcases). rewrite Enext in Hh. injection Hh as <-.
        rewrite <- !count_occ_count, <- existsb_nigiri, <- contains_elem_of in Hcases.
        destruct Hcases as [[-> ->] | [H | H]]; [reflexivity | |].
        * apply Nat.leb_le in H. rewrite H. now destruct (_ && _).
        * apply Nat.leb_le in H. rewrite H.
          destruct (_ && _); [reflexivity |].
          now destruct (2 <=? Py.count next_h "Sashimi").
    - split; [discriminate |].
      intros (h & Hh & _). apply next_hand_Some in Hh. congruence. }
  split; [exact Hiff |].
  intros Hslot. apply not_true_is_false. rewrite Hiff.
  intros (h & Hh & _). destruct Hslot as [Hs | Hs]; congruence.
Qed.

Lemma should_grab_chopsticks_iff_witness :
  (should_grab_chopsticks ["Chopsticks"; "Pudding"] lookahead_state = true ↔
     ∃ next_h,
       all_hands lookahead_state !! (current_hand_ptr lookahead_state + 1) = Some (Some next_h)
       ∧ (("Wasabi" ∈ next_h
           ∧ ("Egg Nigiri" ∈ next_h ∨ "Salmon Nigiri" ∈ next_h ∨ "Squid Nigiri" ∈ next_h))
          ∨ 2 ≤ count_occ String.string_dec next_h "Sashimi"
          ∨ 2 ≤ count_occ String.string_dec next_h "Tempura")).
Proof.
  apply (should_grab_chopsticks_iff ["Chopsticks"; "Pudding"] lookahead_state).
  - apply contains_elem_of. reflexivity.
  - apply contains_false. reflexivity.
Defined.

(** ** The state model *)

(** After the loop of [handle_played], a player named in the reveal has its
    cards appended to what was tracked (nothing, on first sight); any other
    player is as before. *)
Lemma extend_tableaux_lookup (reveals tableaux : gmap string (list string)) (player : string) :
  extend_tableaux reveals tableaux !! player =
    match reveals !! player with
    | Some cards => Some (default [] (tableaux !! player) ++ cards)
    | None => tableaux !! player
    end.
Proof.
  unfold extend_tableaux. revert player.
  apply (map_fold_weak_ind
           (fun tabs (seen : gmap string (list string)) => ∀ player,
              tabs !! player =
                match seen !! player with
                | Some cards => Some (default [] (tableaux !! player) ++ cards)
                | None => tableaux !! player
                end)).
  - intros player. now rewrite lookup_empty.
  - intros p cards seen tabs Hfresh IH player.
    destruct (decide (p = player)) as [->|Hne].
    + rewrite !lookup_insert_eq. pose proof (IH player) as Hp. rewrite Hfresh in Hp.
      destruct (decide (is_Some (tabs !! player))) as [Hsome|Hnone].
      * now rewrite Hp.
      * rewrite lookup_insert_eq. rewrite Hp in Hnone.
        apply eq_None_not_Some in Hnone. now rewrite Hnone.
    + rewrite !lookup_insert_ne by assumption.
      destruct (decide (is_Some (tabs !! p))); [apply IH |].
      rewrite lookup_insert_ne by assumption. apply IH.
Qed.

(** C6: [handle_played] appends every revealed player's cards, in order, to
    that player's tableau, creating it on first sight, a two-card chopstick
    entry included; players not in the reveal keep their tableau; the turn
    counter and the rotation cursor both go up by exactly 1.  On empty
    tableaux the reveal Alice: Tempura, Bob: Sashimi leaves Alice with
    Tempura; a later reveal Alice: Squid Nigiri, Tempura appends both. *)
Theorem handle_played_appends :
  (∀ (reveals : gmap string (list string)) (state : GameState),
     let state' := handle_played reveals state in
     (∀ player,
        all_tableaux state' !! player =
          match reveals !! player with
          | Some cards => Some (default [] (all_tableaux state !! player) ++ cards)
          | None => all_tableaux state !! player
          end)
     ∧ turn state' = (turn state + 1)%Z
     ∧ current_hand_ptr state' = current_hand_ptr state + 1
     ∧ last_turn_reveals state' = reveals)
  ∧ (let state1 :=
       handle_played {[ "Alice" := ["Tempura"]; "Bob" := ["Sashimi"] ]} fresh_state in
     let state2 :=
       handle_played {[ "Alice" := ["Squid Nigiri"; "Tempura"] ]} state1 in
     all_tableaux state1 !! "Alice" = Some ["Tempura"]
     ∧ all_tableaux state1 !! "Bob" = Some ["Sashimi"]
     ∧ turn state1 = (turn fresh_state + 1)%Z
     ∧ all_tableaux state2 !! "Alice" = Some ["Tempura"; "Squid Nigiri"; "Tempura"]
     ∧ all_tableaux state2 !! "Bob" = Some ["Sashimi"]).
Proof.
  split.
  - intros reveals state state'. subst state'. cbn [handle_played all_tableaux turn
      current_hand_ptr last_turn_reveals].
    repeat split. intros player. apply extend_tableaux_lookup.
  - cbn zeta. cbn [handle_played all_tableaux turn].
    rewrite !extend_tableaux_lookup. repeat split.
Qed.

(** C7: [_record_play card] never raises; it appends [card] to the own
    tableau and records it as last played.  When the slot at the cursor holds
    a hand containing [card], that slot loses exactly the first occurrence of
    [card]; otherwise (slot out of range, still unknown, or without [card])
    the rotation buffer is unchanged.  No other slot ever changes. *)
Theorem record_play_frame (card : string) (state : GameState) :
  ∃ state',
    _record_play card state = Ok state'
    ∧ my_tableau state' = my_tableau state ++ [card]
    ∧ last_card_played state' = Some card
    ∧ current_hand_ptr state' = current_hand_ptr state
    ∧ (∀ i, i ≠ current_hand_ptr state → all_hands state' !! i = all_hands state !! i)
    ∧ (∀ tracked,
         all_hands state !! current_hand_ptr state = Some (Some tracked) →
         card ∈ tracked →
         ∃ before after,
           tracked = before ++ (card :: after) ∧ (card ∉ before)
           ∧ all_hands state'
             = <[current_hand_ptr state := Some (before ++ after)]> (all_hands state)
           ∧ all_hands state' !! current_hand_ptr state = Some (Some (before ++ after)))
    ∧ ((∀ tracked,
          all_hands state !! current_hand_ptr state = Some (Some tracked) → card ∉ tracked) →
       all_hands state' = all_hands state).
Proof.
  unfold _record_play. set (ptr := current_hand_ptr state).
  destruct (Nat.ltb_spec ptr (length (all_hands state))) as [Hlt|Hge].
  - destruct (lookup_lt_is_Some_2 _ _ Hlt) as [slot Hslot].
    unfold Py.getitem. rewrite Hslot. cbn [mbind result_bind].
    destruct slot as [tracked|].
    + destruct (Py.contains card tracked) eqn:Hin.
      * destruct (remove_contains _ _ Hin) as (before & after & Htracked & Hnot & ->).
        cbn [mbind result_bind]. eexists. split; [reflexivity |].
        cbn [my_tableau last_card_played current_hand_ptr all_hands].
        repeat split.
        -- intros i Hi. now rewrite list_lookup_insert_ne.
        -- intros tracked' [= <-] _. exists before, after.
           repeat split; [assumption.. |]. now rewrite list_lookup_insert_eq.
        -- intros Habsent. apply contains_elem_of in Hin.
           now destruct (Habsent tracked eq_refl).
      * cbn [mbind result_bind]. eexists. split; [reflexivity |].
        cbn [my_tableau last_card_played current_hand_ptr all_hands].
        repeat split.
        intros tracked' [= <-] Hin'. apply contains_elem_of in Hin'. congruence.
    + cbn [mbind result_bind]. eexists. split; [reflexivity |].
      cbn [my_tableau last_card_played current_hand_ptr all_hands].
      repeat split. intros tracked' [=].
  - cbn [mbind result_bind]. eexists. split; [reflexivity |].
    cbn [my_tableau last_card_played current_hand_ptr all_hands].
    repeat split. intros tracked' Hlook.
    apply lookup_lt_Some in Hlook. lia.
Qed.

Lemma record_play_frame_witness :
  ∃ state',
    _record_play "Tempura" first_hand_state = Ok state'
    ∧ all_hands state' = [Some ["Sashimi"; "Salmon Nigiri"; "Pudding"]; None; None]
    ∧ my_tableau state' = ["Tempura"].
Proof.
  destruct (record_play_frame "Tempura" first_hand_state)
    as (state' & Hret & Htab & _ & _ & _ & Hin & _).
  exists state'. split; [exact Hret |]. split; [| exact Htab].
  destruct (Hin ["Tempura"; "Sashimi"; "Salmon Nigiri"; "Pudding"] eq_refl)
    as (before & after & Hsplit & Hnot & -> & _).
  - apply contains_elem_of. reflexivity.
  - destruct before as [|c before].
    + injection Hsplit as <-. reflexivity.
    + injection Hsplit as <- _. destruct Hnot. apply list_elem_of_here.
Defined.

(** C8: whatever the state was, after [handle_round_start] the rotation
    buffer is [max(player_count, 1)] unknown slots (exactly [player_count] of
    them when that is at least 1, a single one when it is 0), the cursor is 0,
    the turn is 1, and own tableau, all tableaux, last played card and last
    reveals are cleared; the round is the one announced. *)
Theorem handle_round_start_resets (round_number : Z) (state : GameState) :
  let state' := handle_round_start round_number state in
  all_hands state' = replicate (Z.to_nat (Z.max (player_count state) 1)) None
  ∧ (∀ slot, slot ∈ all_hands state' → slot = None)
  ∧ ((1 ≤ player_count state)%Z →
     Z.of_nat (length (all_hands state')) = player_count state)
  ∧ (player_count state = 0%Z → all_hands state' = [None])
  ∧ current_hand_ptr state' = 0
  ∧ turn state' = 1%Z
  ∧ my_tableau state' = []
  ∧ all_tableaux state' = ∅
  ∧ last_card_played state' = None
  ∧ last_turn_reveals state' = ∅
  ∧ round state' = round_number
  ∧ player_count state' = player_count state.
Proof.
  intros state'. subst state'. unfold handle_round_start, Py.repeat_list.
  cbn [all_hands current_hand_ptr turn my_tableau all_tableaux last_card_played
       last_turn_reveals round player_count].
  repeat split.
  - intros slot Hslot. now apply elem_of_replicate in Hslot.
  - intros Hpc. rewrite length_replicate. lia.
  - intros ->. reflexivity.
Qed.

Lemma handle_round_start_resets_witness :
  Z.of_nat (length (all_hands (handle_round_start 2 lookahead_state)))
    = player_count lookahead_state
  ∧ all_hands (handle_round_start 3 uncounted_state) = [None].
Proof.
  split.
  - destruct (handle_round_start_resets 2 lookahead_state) as (_ & _ & Hlen & _).
    apply Hlen. cbn. lia.
  - destruct (handle_round_start_resets 3 uncounted_state) as (_ & _ & _ & Hzero & _).
    apply Hzero. reflexivity.
Defined.

(** ** Safety of the single-play decision *)

(** A card of [valid_combo] is a card in hand. *)
Lemma valid_combo_in_hand (hand : list string) (state : GameState) (c : string) :
  c ∈ valid_combo state hand (my_tableau state) → Py.contains c hand = true.
Proof.
  rewrite valid_combo_playable. intros Hin.
  apply list_elem_of_In, in_map_iff in Hin as (combo & <- & Hcombo).
  apply filter_In in Hcombo as [_ Hplay].
  now apply spec_playable_in_hand in Hplay.
Qed.

Lemma index_in_range (hand : list string) (card : string) :
  Py.contains card hand = true → ∃ i, Py.index hand card = Ok i ∧ i < length hand.
Proof. intros H. apply index_contains in H as (i & Hi & _ & Hlt & _). eauto. Qed.

(** One rung of the ladder of [choose_card]: either the guarded card is in
    hand and its index is returned, or the next rung is tried. *)
Ltac rung :=
  match goal with
  | |- ∃ i, (if ?guard && Py.contains ?card ?hand then _ else _) = Ok i ∧ _ =>
      let E := fresh "E" in
      destruct (guard && Py.contains card hand) eqn:E;
      [ apply andb_prop in E as [_ E]; now apply index_in_range | clear E ]
  | |- ∃ i, (if Py.contains ?card ?hand then _ else _) = Ok i ∧ _ =>
      let E := fresh "E" in
      destruct (Py.contains card hand) eqn:E;
      [ now apply index_in_range | clear E ]
  end.

(** On a non-empty hand every rung of [choose_card] that fires returns the
    index of a card found in hand, and the fallback returns 0. *)
Lemma choose_card_total (hand : list string) (state : GameState) :
  hand ≠ [] → ∃ i, choose_card hand state = Ok i ∧ i < length hand.
Proof.
  intros Hne. unfold choose_card.
  destruct (valid_combo state hand (my_tableau state)) as [|c combos] eqn:Hcombos.
  - rung.
    destruct (pudding_cond_total state
                (total_turns (player_count state) - turn state) (pudding_counts state))
      as [wanted ->].
    cbn [mbind result_bind].
    do 12 rung.
    exists 0. split; [reflexivity |]. destruct hand; [contradiction | cbn; lia].
  - apply index_in_range, (valid_combo_in_hand hand state). rewrite Hcombos. left.
Qed.

(** C10: on a non-empty hand, whatever the state (any player count, no
    tableaux tracked, rotation buffer unpopulated), [choose_card] raises
    nothing and returns an index into the hand, so that the [hand[card_index]]
    of [play_turn] is a card of the hand. *)
Theorem choose_card_in_range (hand : list string) (state : GameState) :
  hand ≠ [] →
  ∃ i card, choose_card hand state = Ok i ∧ i < length hand
            ∧ Py.getitem hand i = Ok card ∧ card ∈ hand.
Proof.
  intros Hne. destruct (choose_card_total hand state Hne) as (i & Hi & Hlt).
  destruct (lookup_lt_is_Some_2 _ _ Hlt) as [card Hcard].
  exists i, card. unfold Py.getitem. rewrite Hcard.
  repeat split; try assumption. apply list_elem_of_lookup. eauto.
Qed.

Lemma choose_card_in_range_witness :
  ∃ i card, choose_card ["Chopsticks"; "Pudding"] uncounted_state = Ok i
            ∧ i < length ["Chopsticks"; "Pudding"]
            ∧ Py.getitem ["Chopsticks"; "Pudding"] i = Ok card
            ∧ card ∈ ["Chopsticks"; "Pudding"].
Proof. apply (choose_card_in_range ["Chopsticks"; "Pudding"] uncounted_state). discriminate. Defined.

(** ** A turn is always played *)

Lemma chopstick_combo_total (hand : list string) (state : GameState) :
  ∃ chop, chopstick_combo hand state = Ok chop.
Proof.
  unfold chopstick_combo.
  assert (Hpair : ∀ nigiri,
            Py.contains "Wasabi" hand && Py.contains nigiri hand = true →
            ∃ chop, (i ← Py.index hand "Wasabi"; j ← Py.index hand nigiri; Ok (Some (i, j)))
                    = Ok chop).
  { intros nigiri Hboth. apply andb_prop in Hboth as [Hw Hn].
    apply index_in_range in Hw as (i & -> & _), Hn as (j & -> & _). cbn. eauto. }
  destruct (negb (has_chopsticks state)); [eauto |].
  destruct (if occurances (my_tableau state) "Sashimi" mod 3 =? 1 then _ else None); [eauto |].
  destruct (_ && Py.contains "Squid Nigiri" hand) eqn:Esquid; [now apply Hpair |].
  destruct (_ && Py.contains "Salmon Nigiri" hand) eqn:Esalmon; [now apply Hpair |].
  destruct (if occurances (my_tableau state) "Tempura" mod 2 =? 1 then _ else None); [eauto |].
  destruct (_ && Py.contains "Egg Nigiri" hand) eqn:Eegg; [now apply Hpair | eauto].
Qed.

Lemma record_play_total (card : string) (state : GameState) :
  ∃ state', _record_play card state = Ok state'.
Proof.
  unfold _record_play, Py.getitem.
  destruct (Nat.ltb_spec (current_hand_ptr state) (length (all_hands state))) as [Hlt|Hge];
    [|cbn; eauto].
  destruct (lookup_lt_is_Some_2 _ _ Hlt) as [[tracked|] ->]; cbn [mbind result_bind];
    [|cbn; eauto].
  destruct (Py.contains card tracked) eqn:Hin; [|cbn; eauto].
  apply remove_contains in Hin as (before & after & _ & _ & ->). cbn. eauto.
Qed.

Lemma return_chopsticks_total (card : string) (state : GameState) :
  ∃ state', return_chopsticks card state = Ok state'.
Proof.
  unfold return_chopsticks.
  destruct (Py.contains "Chopsticks" (my_tableau state ++ [card])) eqn:Hin.
  - apply remove_contains in Hin as (before & after & _ & _ & ->). cbn. eauto.
  - cbn. eauto.
Qed.

(** [play_turn] raises nothing: it sends no command on an empty hand and
    exactly one otherwise. *)
Lemma play_turn_total (state : GameState) :
  ∃ state' cmds, play_turn state = Ok (state', cmds)
                 ∧ length cmds = (if decide (hand state = []) then 0 else 1).
Proof.
  unfold play_turn. destruct (hand state) as [|card cards] eqn:Hhand.
  { eexists _, _. split; reflexivity. }
  rewrite <- Hhand. rewrite decide_False by (rewrite Hhand; discriminate).
  assert (Hsingle : ∃ state' cmds,
            (card_index ← choose_card (hand state) state;
             card ← Py.getitem (hand state) card_index;
             state' ← _record_play card state;
             Ok (state', [PLAY card_index])) = Ok (state', cmds) ∧ length cmds = 1).
  { destruct (choose_card_total (hand state) state) as (i & -> & Hlt).
    { rewrite Hhand. discriminate. }
    cbn [mbind result_bind]. unfold Py.getitem.
    destruct (lookup_lt_is_Some_2 _ _ Hlt) as [c ->]. cbn [mbind result_bind].
    destruct (record_play_total c state) as (state' & ->).
    cbn. eauto. }
  destruct (has_chopsticks state); [|exact Hsingle].
  rewrite choose_chopsticks_combo.
  destruct (chopstick_combo_total (hand state) state) as [chop Hchop].
  rewrite Hchop. cbn [mbind result_bind].
  destruct chop as [[idx1 idx2]|]; [|exact Hsingle].
  assert (Hcards : ∃ card1 card2,
            hand state !! idx1 = Some card1 ∧ hand state !! idx2 = Some card2).
  { apply chopstick_combo_selects in Hchop
      as [(c & _ & -> & ->) | (n & _ & -> & ->)]; eauto. }
  destruct Hcards as (card1 & card2 & Hc1 & Hc2).
  unfold Py.getitem. rewrite Hc1, Hc2. cbn [mbind result_bind].
  destruct (record_play_total card1 state) as (state1 & ->).
  cbn [mbind result_bind].
  destruct (return_chopsticks_total card2 state1) as [state2 ->].
  cbn. eauto.
Qed.

(** ** Tournament messages during a match *)

Section SessionFacts.
Context (codec : Codec).

Lemma startswith_nonempty (msg p : string) :
  p ≠ EmptyString → startswith msg p = true → String.eqb msg EmptyString = false.
Proof.
  intros Hp. destruct msg; [|reflexivity].
  destruct p; [contradiction | discriminate].
Qed.

Lemma tournament_message_nonempty (msg : string) :
  startswith msg "TOURNAMENT_MATCH" || startswith msg "TOURNAMENT_COMPLETE" = true →
  String.eqb msg EmptyString = false.
Proof.
  intros H. apply orb_prop in H as [H | H];
    apply startswith_nonempty in H; (assumption || discriminate).
Qed.

(** [recv_until] skips the messages its predicate rejects. *)
Lemma recv_until_skips (predicate : string → bool) (skipped : list string)
    (msg : string) (rest : list string) :
  Forall (fun m => predicate m = false) skipped →
  String.eqb msg EmptyString = false →
  predicate msg = true →
  recv_until predicate (skipped ++ msg :: rest) = Ok (msg, rest).
Proof.
  intros Hskipped Hmsg Hpred.
  induction Hskipped as [|m skipped Hm _ IH]; cbn.
  - now rewrite Hmsg, Hpred.
  - now rewrite Hm, andb_false_r.
Qed.

Lemma recv_until_shorter (predicate : string → bool) (inbox : list string)
    (msg : string) (rest : list string) :
  recv_until predicate inbox = Ok (msg, rest) → length rest < length inbox.
Proof.
  induction inbox as [|m inbox IH]; cbn; [discriminate |].
  destruct (negb (String.eqb m EmptyString) && predicate m).
  - intros [= _ <-]. lia.
  - intros H. apply IH in H. lia.
Qed.

(** [_play_game] reads at least one message before it returns. *)
Lemma play_game_shorter (inbox : list string) (state : GameState) (sent : list command)
    (out : game_exit) :
  _play_game codec inbox state sent = Ok out → length (unread out) < length inbox.
Proof.
  revert state sent.
  induction inbox as [|msg inbox IH]; intros state sent; cbn [_play_game]; [discriminate |].
  assert (Hnext : ∀ state' sent',
            _play_game codec inbox state' sent' = Ok out →
            length (unread out) < length (msg :: inbox)).
  { intros state' sent' H. apply IH in H. cbn. lia. }
  repeat match goal with
         | |- (if ?b then _ else _) = _ → _ => destruct b
         | |- match ?r with Ok _ => _ | Raise _ => _ end = _ → _ =>
             destruct r as [[]|]
         | |- match ?r with Ok _ => _ | Raise _ => _ end = _ → _ =>
             destruct r
         end;
    try discriminate; try (exact (Hnext _ _)); intros [= <-]; cbn; lia.
Qed.

Lemma join_match_shorter (match_token player_name : string) (conn conn' : Conn)
    (joined : option GameState) :
  _join_match codec match_token player_name conn = Ok (joined, conn') →
  length (inbox conn') < length (inbox conn).
Proof.
  unfold _join_match.
  destruct (recv_until _ (inbox conn)) as [[response rest]|] eqn:Hrecv; [|discriminate].
  apply recv_until_shorter in Hrecv. cbn [mbind result_bind].
  destruct (startswith response "WELCOME"); [|now intros [= _ <-]].
  repeat match goal with
         | |- context [mbind _ ?r] => destruct r; cbn [mbind result_bind]; [|discriminate]
         end.
  now intros [= _ <-].
Qed.

Lemma leave_game_shorter (conn conn' : Conn) :
  _leave_game conn = Ok conn' → length (inbox conn') < length (inbox conn).
Proof.
  unfold _leave_game.
  destruct (recv_until _ (inbox conn)) as [[response rest]|] eqn:Hrecv; [|discriminate].
  apply recv_until_shorter in Hrecv. now intros [= <-].
Qed.

(** The loop of [run_tournament] ends: with more fuel than twice the
    messages to come (and one more for a pending message) it gives its
    result. *)
Lemma tournament_loop_enough_fuel (fuel : nat) (player_name : string)
    (pending : option string) (conn : Conn) :
  2 * length (inbox conn) + match pending with Some _ => 1 | None => 0 end < fuel →
  is_Some (tournament_loop codec fuel player_name pending conn).
Proof.
  revert pending conn.
  induction fuel as [|fuel IH]; intros pending conn Hfuel; [lia |].
  cbn [tournament_loop].
  set (next := match pending with
               | Some m => if String.eqb m EmptyString then recv (inbox conn) else Ok (m, inbox conn)
               | None => recv (inbox conn)
               end).
  assert (Hnext : ∀ msg rest, next = Ok (msg, rest) → 2 * length rest < fuel).
  { subst next. intros msg rest.
    destruct pending as [m|]; [destruct (String.eqb m EmptyString)|];
      try (intros [= _ <-]; lia);
      destruct (inbox conn) as [|m' inbox']; cbn in *; try discriminate;
      intros [= _ <-]; lia. }
  destruct next as [[msg rest]|e]; [|eauto].
  specialize (Hnext msg rest eq_refl).
  assert (Hskip : is_Some (tournament_loop codec fuel player_name None
                             {| inbox := rest; sent := sent conn |})).
  { apply IH. cbn. lia. }
  destruct (String.eqb msg EmptyString); [exact Hskip |].
  destruct (startswith msg "TOURNAMENT_MATCH").
  - destruct (match_fields codec msg) as [[match_token opponent]|e]; [|eauto].
    destruct (String.eqb match_token "BYE" || String.eqb opponent "BYE"); [exact Hskip |].
    destruct (_join_match codec match_token player_name _)
      as [[[state|] conn1]|e] eqn:Hjoin; [| |eauto];
      apply join_match_shorter in Hjoin; cbn in Hjoin.
    + destruct (_play_game codec (inbox conn1) state _) as [out|e] eqn:Hplay; [|eauto].
      apply play_game_shorter in Hplay.
      destruct (_leave_game _) as [conn2|e] eqn:Hleave; [|eauto].
      apply leave_game_shorter in Hleave. cbn in Hleave.
      apply IH. destruct (returned out); lia.
    + apply IH. lia.
  - destruct (startswith msg "TOURNAMENT_COMPLETE"); [eauto | exact Hskip].
Qed.

(** More fuel does not change the result. *)
Lemma tournament_loop_more_fuel (fuel fuel' : nat) (player_name : string)
    (pending : option string) (conn : Conn) (r : result Conn) :
  tournament_loop codec fuel player_name pending conn = Some r →
  fuel ≤ fuel' →
  tournament_loop codec fuel' player_name pending conn = Some r.
Proof.
  revert fuel' pending conn.
  induction fuel as [|fuel IH]; intros fuel' pending conn Hrun Hle; [discriminate |].
  destruct fuel' as [|fuel']; [lia |].
  assert (Hrec : ∀ pending' conn',
            tournament_loop codec fuel player_name pending' conn' = Some r →
            tournament_loop codec fuel' player_name pending' conn' = Some r).
  { intros pending' conn' H. apply IH; [assumption | lia]. }
  cbn [tournament_loop] in *.
  repeat match goal with
         | H : match ?x with _ => _ end = Some r |- _ => destruct x
         | H : (if ?b then _ else _) = Some r |- _ => destruct b
         | H : (let (_, _) := ?x in _) = Some r |- _ => destruct x
         end; try assumption; try discriminate; now apply Hrec.
Qed.

(** [run_tournament] gives a result on every sequence of messages. *)
Lemma run_tournament_total (tournament_id player_name : string) (conn : Conn) :
  is_Some (run_tournament codec tournament_id player_name conn).
Proof.
  unfold run_tournament.
  destruct (_join_tournament tournament_id player_name conn) as [[[] conn']|e];
    [| eauto..].
  apply tournament_loop_enough_fuel. lia.
Qed.

End SessionFacts.

(** Two prefixes of a string: one is a prefix of the other. *)
Lemma prefix_comparable (p q msg : string) :
  String.prefix p msg = true → String.prefix q msg = true →
  String.prefix p q = true ∨ String.prefix q p = true.
Proof.
  revert p q. induction msg as [|c msg IH]; intros [|a p] [|b q]; cbn; auto;
    try discriminate.
  destruct (ascii_dec a c) as [->|]; [|discriminate].
  destruct (ascii_dec b c) as [->|]; [|discriminate].
  destruct (ascii_dec c c); [apply IH | contradiction].
Qed.

Lemma startswith_exclusive (msg p q : string) :
  String.prefix p q = false → String.prefix q p = false →
  startswith msg p = true → startswith msg q = false.
Proof.
  intros Hpq Hqp Hp. destruct (startswith msg q) eqn:Hq; [|reflexivity].
  destruct (prefix_comparable p q msg Hp Hq); congruence.
Qed.

(** When [_play_game] returns a message, that message is a tournament
    message and the first non-empty message of the input that starts with
    TOURNAMENT_MATCH, TOURNAMENT_COMPLETE or GAME_END; what comes after it
    is unread. *)
Lemma play_game_returned (codec : Codec) (inbox : list string) (state : GameState)
    (sent : list command) (out : game_exit) (tm : string) :
  _play_game codec inbox state sent = Ok out → returned out = Some tm →
  startswith tm "TOURNAMENT_MATCH" || startswith tm "TOURNAMENT_COMPLETE" = true
  ∧ ∃ pre, inbox = pre ++ tm :: unread out
           ∧ Forall (fun m => m = EmptyString ∨ ends_game m = false) pre.
Proof.
  revert state sent.
  induction inbox as [|msg inbox IH]; intros state sent; cbn [_play_game]; [discriminate |].
  assert (Hnext : ∀ state' sent',
            (msg = EmptyString ∨ ends_game msg = false) →
            _play_game codec inbox state' sent' = Ok out → returned out = Some tm →
            startswith tm "TOURNAMENT_MATCH" || startswith tm "TOURNAMENT_COMPLETE" = true
            ∧ ∃ pre, msg :: inbox = pre ++ tm :: unread out
                     ∧ Forall (fun m => m = EmptyString ∨ ends_game m = false) pre).
  { intros state' sent' Hmsg Hrun Hret.
    destruct (IH _ _ Hrun Hret) as (Htm & pre & -> & Hpre).
    split; [exact Htm|]. exists (msg :: pre). split; [reflexivity | now constructor]. }
  destruct (String.eqb_spec msg EmptyString) as [Hempty|Hne]; [apply Hnext; auto |].
  unfold ends_game in *.
  destruct (startswith msg "TOURNAMENT_MATCH" || startswith msg "TOURNAMENT_COMPLETE")
    eqn:Htm.
  { intros [= <-]. cbn [returned unread]. intros [= <-].
    split; [exact Htm|]. exists []. split; [reflexivity | constructor]. }
  destruct (startswith msg "GAME_END"); [intros [= <-]; discriminate |].
  assert (Hmsg : msg = EmptyString ∨ false || false = false) by now right.
  destruct (startswith msg "GAME_START").
  { destruct (handle_game_start_msg codec msg state); [now apply Hnext | discriminate]. }
  destruct (startswith msg "ROUND_START").
  { destruct (handle_round_start_msg codec msg state); [now apply Hnext | discriminate]. }
  destruct (startswith msg "PLAYED"); [now apply Hnext |].
  destruct (startswith msg "ROUND_END"); [now apply Hnext |].
  destruct (startswith msg "HAND"); [|now apply Hnext].
  destruct (play_turn _) as [[state' cmds]|]; [now apply Hnext | discriminate].
Qed.

(** [_leave_game] sends LEAVE and drops the messages before the first OK or
    ERROR. *)
Lemma leave_game_skips (skipped : list string) (ok : string) (rest : list string)
    (sent : list command) :
  Forall (fun m => startswith m "OK" || startswith m "ERROR" = false) skipped →
  startswith ok "OK" || startswith ok "ERROR" = true →
  _leave_game {| inbox := skipped ++ ok :: rest; sent := sent |}
  = Ok {| inbox := rest; sent := sent ++ [LEAVE] |}.
Proof.
  intros Hskipped Hok. unfold _leave_game. cbn [inbox].
  rewrite recv_until_skips; [reflexivity | assumption | | assumption].
  apply orb_prop in Hok as [H | H];
    apply startswith_nonempty in H; (assumption || discriminate).
Qed.

(** C5, as the specification states it, fails: in a match in progress
    (game started, one hand played) a TOURNAMENT_COMPLETE message makes
    [_play_game] return at once.  The reveal and the GAME_END that follow
    are still unread, the state shows no reveal handled, and in the
    tournament run they are dropped while waiting for the answer to LEAVE:
    the tournament ends without the match's GAME_END ever being handled. *)
Lemma tournament_message_counterexample :
  ∃ out,
    _play_game example_codec interrupted_match (new_GameState "m7" 0 "tok9" "Alice") [READY]
      = Ok out
    ∧ returned out = Some "TOURNAMENT_COMPLETE t1 Bob"
    ∧ unread out = ["PLAYED Alice:Tempura; Bob:Sashimi"; "GAME_END {} []"; "OK"]
    ∧ final_state out = interrupted_state
    ∧ all_tableaux (final_state out) = ∅
    ∧ outbox out = [READY; PLAY 1]
    ∧ run_tournament example_codec "t1" "Alice"
        {| inbox := "TOURNAMENT_WELCOME t1 1/2 tok1" :: "TOURNAMENT_MATCH t1 m7 1 Bob"
                      :: "WELCOME m7 0 tok9" :: interrupted_match;
           sent := [] |}
      = Some (Ok {| inbox := [];
                    sent := [TOURNEY "t1" "Alice"; TJOIN "m7"; READY; PLAY 1; LEAVE] |}).
Proof.
  eexists. split; [vm_compute; reflexivity |].
  cbn [returned unread final_state outbox].
  repeat split.
Qed.

(** C5 (amended): a TOURNAMENT_MATCH or TOURNAMENT_COMPLETE message read by
    the per-game loop ends that loop at once, at any point of the match:
    [_play_game] returns the message, with the game state, the messages not
    yet read and the commands sent left as they are; whenever it returns a
    message, that message is the first non-empty one that ends a game, so no
    GAME_END was read before it.  [_leave_game] then sends LEAVE and drops
    every message up to the first OK or ERROR.  In the tournament loop, the
    iteration that plays a match goes on with the returned message as the
    pending one, after LEAVE and with only the messages after that OK or
    ERROR left to read, and the next iteration takes the pending message as
    if it were the next message received, before reading any other; a pending
    TOURNAMENT_COMPLETE ends the run with those messages still unread. *)
Theorem tournament_message_ends_game (codec : Codec) :
  (∀ (tm : string) (inbox : list string) (state : GameState) (sent : list command),
     startswith tm "TOURNAMENT_MATCH" || startswith tm "TOURNAMENT_COMPLETE" = true →
     _play_game codec (tm :: inbox) state sent
     = Ok {| returned := Some tm; final_state := state; unread := inbox; outbox := sent |})
  ∧ (∀ (inbox : list string) (state : GameState) (sent : list command) (out : game_exit)
       (tm : string),
       _play_game codec inbox state sent = Ok out → returned out = Some tm →
       startswith tm "TOURNAMENT_MATCH" || startswith tm "TOURNAMENT_COMPLETE" = true
       ∧ ∃ pre, inbox = pre ++ tm :: unread out
                ∧ Forall (fun m => m = EmptyString ∨ ends_game m = false) pre)
  ∧ (∀ (skipped : list string) (ok : string) (rest : list string) (sent : list command),
       Forall (fun m => startswith m "OK" || startswith m "ERROR" = false) skipped →
       startswith ok "OK" || startswith ok "ERROR" = true →
       _leave_game {| inbox := skipped ++ ok :: rest; sent := sent |}
       = Ok {| inbox := rest; sent := sent ++ [LEAVE] |})
  ∧ (∀ (fuel : nat) (player_name tm : string) (conn : Conn),
       tm ≠ EmptyString →
       tournament_loop codec fuel player_name (Some tm) conn
       = tournament_loop codec fuel player_name None
           {| inbox := tm :: inbox conn; sent := sent conn |})
  ∧ (∀ (fuel : nat) (player_name msg : string) (inbox0 : list string)
       (sent0 : list command) (match_token opponent : string) (state : GameState)
       (conn1 : Conn) (out : game_exit) (tm : string) (skipped : list string)
       (ok : string) (rest : list string),
       startswith msg "TOURNAMENT_MATCH" = true →
       match_fields codec msg = Ok (match_token, opponent) →
       String.eqb match_token "BYE" || String.eqb opponent "BYE" = false →
       _join_match codec match_token player_name {| inbox := inbox0; sent := sent0 |}
       = Ok (Some state, conn1) →
       _play_game codec (inbox conn1) state (sent conn1 ++ [READY]) = Ok out →
       returned out = Some tm →
       unread out = skipped ++ ok :: rest →
       Forall (fun m => startswith m "OK" || startswith m "ERROR" = false) skipped →
       startswith ok "OK" || startswith ok "ERROR" = true →
       tournament_loop codec (S fuel) player_name None
         {| inbox := msg :: inbox0; sent := sent0 |}
       = tournament_loop codec fuel player_name (Some tm)
           {| inbox := rest; sent := outbox out ++ [LEAVE] |}
       ∧ tournament_loop codec fuel player_name (Some tm)
           {| inbox := rest; sent := outbox out ++ [LEAVE] |}
         = tournament_loop codec fuel player_name None
             {| inbox := tm :: rest; sent := outbox out ++ [LEAVE] |})
  ∧ (∀ (fuel : nat) (player_name tm : string) (conn : Conn),
       startswith tm "TOURNAMENT_COMPLETE" = true →
       tournament_loop codec (S fuel) player_name (Some tm) conn = Some (Ok conn)).
Proof.
  assert (Hpending : ∀ (fuel : nat) (player_name tm : string) (conn : Conn),
            tm ≠ EmptyString →
            tournament_loop codec fuel player_name (Some tm) conn
            = tournament_loop codec fuel player_name None
                {| inbox := tm :: inbox conn; sent := sent conn |}).
  { intros fuel player_name tm conn Htm.
    destruct fuel as [|fuel]; [reflexivity |]. cbn [tournament_loop recv inbox sent].
    apply String.eqb_neq in Htm. rewrite !Htm. reflexivity. }
  split; [|split; [|split; [|split; [|split]]]].
  - intros tm inbox state sent Htm. cbn [_play_game].
    now rewrite (tournament_message_nonempty tm Htm), Htm.
  - intros inbox state sent out tm. apply play_game_returned.
  - apply leave_game_skips.
  - exact Hpending.
  - intros fuel player_name msg inbox0 sent0 match_token opponent state conn1 out tm
      skipped ok rest Hmsg Hfields Hbye Hjoin Hplay Hret Hunread Hskipped Hok.
    split.
    + cbn [tournament_loop recv inbox sent].
      rewrite (startswith_nonempty msg "TOURNAMENT_MATCH") by (discriminate || assumption).
      rewrite Hmsg, Hfields, Hbye, Hjoin, Hplay, Hunread.
      rewrite (leave_game_skips skipped ok rest (outbox out) Hskipped Hok).
      now rewrite Hret.
    + apply (Hpending fuel player_name tm {| inbox := rest; sent := outbox out ++ [LEAVE] |}).
      destruct (play_game_returned _ _ _ _ _ _ Hplay Hret) as [Htm _].
      apply tournament_message_nonempty in Htm. now apply String.eqb_neq.
  - intros fuel player_name tm [inbox0 sent0] Htm. cbn [tournament_loop inbox sent].
    rewrite (startswith_nonempty tm "TOURNAMENT_COMPLETE") by (discriminate || assumption).
    rewrite (startswith_nonempty tm "TOURNAMENT_COMPLETE") by (discriminate || assumption).
    rewrite (startswith_exclusive tm "TOURNAMENT_COMPLETE" "TOURNAMENT_MATCH")
      by (reflexivity || assumption).
    now rewrite Htm.
Qed.

Lemma tournament_message_ends_game_witness :
  _play_game example_codec
    ["TOURNAMENT_COMPLETE t1 Bob"; "PLAYED Alice:Tempura; Bob:Sashimi"; "GAME_END {} []"; "OK"]
    interrupted_state [READY; PLAY 1]
  = Ok {| returned := Some "TOURNAMENT_COMPLETE t1 Bob"; final_state := interrupted_state;
          unread := ["PLAYED Alice:Tempura; Bob:Sashimi"; "GAME_END {} []"; "OK"];
          outbox := [READY; PLAY 1] |}
  ∧ (∃ pre, interrupted_match
            = pre ++ "TOURNAMENT_COMPLETE t1 Bob"
                :: ["PLAYED Alice:Tempura; Bob:Sashimi"; "GAME_END {} []"; "OK"]
            ∧ Forall (fun m => m = EmptyString ∨ ends_game m = false) pre)
  ∧ _leave_game {| inbox := ["PLAYED Alice:Tempura; Bob:Sashimi"; "GAME_END {} []"] ++ "OK" :: [];
                   sent := [READY; PLAY 1] |}
    = Ok {| inbox := []; sent := [READY; PLAY 1] ++ [LEAVE] |}
  ∧ tournament_loop example_codec 1 "Alice" (Some "TOURNAMENT_COMPLETE t1 Bob")
      {| inbox := []; sent := [READY; PLAY 1; LEAVE] |}
    = tournament_loop example_codec 1 "Alice" None
        {| inbox := ["TOURNAMENT_COMPLETE t1 Bob"]; sent := [READY; PLAY 1; LEAVE] |}
  ∧ tournament_loop example_codec 2 "Alice" None
      {| inbox := "TOURNAMENT_MATCH t1 m7 1 Bob" :: "WELCOME m7 0 tok9" :: interrupted_match;
         sent := [TOURNEY "t1" "Alice"] |}
    = tournament_loop example_codec 1 "Alice" (Some "TOURNAMENT_COMPLETE t1 Bob")
        {| inbox := [];
           sent := [TOURNEY "t1" "Alice"; TJOIN "m7"; READY; PLAY 1] ++ [LEAVE] |}
  ∧ tournament_loop example_codec 1 "Alice" (Some "TOURNAMENT_COMPLETE t1 Bob")
      {| inbox := []; sent := [TOURNEY "t1" "Alice"; TJOIN "m7"; READY; PLAY 1; LEAVE] |}
    = Some (Ok {| inbox := [];
                  sent := [TOURNEY "t1" "Alice"; TJOIN "m7"; READY; PLAY 1; LEAVE] |}).
Proof.
  destruct (tournament_message_ends_game example_codec)
    as (Hplay & Hreturned & Hleave & Hpending & Hloop & Hcomplete).
  set (out := {| returned := Some "TOURNAMENT_COMPLETE t1 Bob";
                 final_state := interrupted_state;
                 unread := ["PLAYED Alice:Tempura; Bob:Sashimi"; "GAME_END {} []"; "OK"];
                 outbox := [TOURNEY "t1" "Alice"; TJOIN "m7"; READY; PLAY 1] |}).
  split; [|split; [|split; [|split; [|split]]]].
  - apply Hplay. reflexivity.
  - apply (Hreturned interrupted_match (new_GameState "m7" 0 "tok9" "Alice")
             [TOURNEY "t1" "Alice"; TJOIN "m7"; READY] out "TOURNAMENT_COMPLETE t1 Bob");
      [vm_compute |]; reflexivity.
  - apply Hleave; [repeat constructor | reflexivity].
  - apply (Hpending 1 "Alice" "TOURNAMENT_COMPLETE t1 Bob"
             {| inbox := []; sent := [READY; PLAY 1; LEAVE] |}).
    discriminate.
  - refine (proj1 (Hloop 1 "Alice" "TOURNAMENT_MATCH t1 m7 1 Bob"
             ("WELCOME m7 0 tok9" :: interrupted_match) [TOURNEY "t1" "Alice"]
             "m7" "Bob" (new_GameState "m7" 0 "tok9" "Alice")
             {| inbox := interrupted_match; sent := [TOURNEY "t1" "Alice"; TJOIN "m7"] |}
             out "TOURNAMENT_COMPLETE t1 Bob"
             ["PLAYED Alice:Tempura; Bob:Sashimi"; "GAME_END {} []"] "OK" []
             _ _ _ _ _ _ _ _ _));
      first [reflexivity | vm_compute; reflexivity | repeat constructor].
  - apply (Hcomplete 0 "Alice" "TOURNAMENT_COMPLETE t1 Bob"
             {| inbox := [];
                sent := [TOURNEY "t1" "Alice"; TJOIN "m7"; READY; PLAY 1; LEAVE] |}).
    reflexivity.
Defined.

(** * Further properties of the code *)

(** ** More facts about the list primitives *)

Lemma index_Ok_first (l : list string) (x : string) (i : nat) :
  Py.index l x = Ok i → l !! i = Some x ∧ i < length l ∧ ∀ j, j < i → l !! j ≠ Some x.
Proof.
  revert i. induction l as [|y l IH]; intros i; cbn; [discriminate |].
  destruct (String.eqb_spec y x) as [->|Hne].
  - intros [= <-]. repeat split; [cbn; lia | lia].
  - destruct (Py.index l x) as [k|e]; cbn; [|discriminate].
    intros [= <-]. destruct (IH k eq_refl) as (Hk & Hlt & Hfirst).
    repeat split; [assumption | cbn; lia |].
    intros [|j] Hj; cbn; [congruence | apply Hfirst; lia].
Qed.

Lemma index_Raise_absent (l : list string) (x : string) (e : exn) :
  Py.index l x = Raise e → e = ValueError ∧ Py.contains x l = false.
Proof.
  induction l as [|y l IH]; cbn; [now intros [= <-] |].
  destruct (String.eqb y x); [discriminate |].
  destruct (Py.index l x) as [k|e']; cbn; [discriminate |].
  intros [= <-]. now apply IH.
Qed.

Lemma indices_from_length (l : list string) (x : string) (s : nat) :
  length (Py.indices_from s l x) = Py.count l x.
Proof.
  revert s. induction l as [|y l IH]; intros s; cbn; [reflexivity |].
  destruct (String.eqb y x); cbn; now rewrite IH.
Qed.

Lemma indices_from_bounds (l : list string) (x : string) (s k : nat) :
  k ∈ Py.indices_from s l x → s ≤ k < s + length l.
Proof.
  revert s. induction l as [|y l IH]; intros s; cbn.
  - intros H. inversion H.
  - assert (Hrec : k ∈ Py.indices_from (S s) l x → s ≤ k < s + S (length l)).
    { intros H. apply IH in H. lia. }
    destruct (String.eqb y x); [|exact Hrec].
    intros H. inversion H; subst; [lia | now apply Hrec].
Qed.

(** The first two positions of a card, when there are two, are in order. *)
Lemma first_two_indices_from_ordered (hand : list string) (card : string) (s i j : nat) :
  first_two (Py.indices_from s hand card) = Some (i, j) → s ≤ i < j ∧ j < s + length hand.
Proof.
  revert s. induction hand as [|y hand IH]; intros s; cbn; [discriminate |].
  destruct (String.eqb y card).
  - destruct (Py.indices_from (S s) hand card) as [|b rest] eqn:E; cbn; [discriminate |].
    intros [= <- <-].
    assert (Hb : b ∈ Py.indices_from (S s) hand card) by (rewrite E; left).
    apply indices_from_bounds in Hb. lia.
  - intros H. apply IH in H. lia.
Qed.

Lemma first_two_Some_count (hand : list string) (card : string) :
  is_Some (first_two (Py.indices hand card)) ↔ 2 ≤ Py.count hand card.
Proof.
  rewrite <- (indices_from_length hand card 0). fold (Py.indices hand card).
  destruct (Py.indices hand card) as [|a [|b rest]]; cbn.
  - split; [intros [? [=]] | lia].
  - split; [intros [? [=]] | lia].
  - split; [lia | eauto].
Qed.

(** ** The two-card chopstick decision, further *)

Lemma pair_rule_None (c : bool) (hand : list string) (card : string) :
  (if c then first_two (Py.indices hand card) else None) = None
  ↔ c = false ∨ Py.count hand card < 2.
Proof.
  destruct c; [|intuition].
  pose proof (first_two_Some_count hand card) as Hcount.
  destruct (first_two (Py.indices hand card)) as [p|].
  - split; [discriminate |]. intros [? | Hlt]; [discriminate |].
    assert (2 ≤ Py.count hand card) by (apply Hcount; eauto). lia.
  - split; [|reflexivity]. intros _. right.
    destruct (Nat.lt_ge_cases (Py.count hand card) 2) as [?|Hge]; [assumption |].
    apply Hcount in Hge as [? [=]].
Qed.

Lemma wasabi_pair_Ok (hand : list string) (nigiri : string) :
  Py.contains "Wasabi" hand && Py.contains nigiri hand = true →
  ∃ i j, (i ← Py.index hand "Wasabi"; j ← Py.index hand nigiri; Ok (Some (i, j)))
         = Ok (Some (i, j))
         ∧ Py.index hand "Wasabi" = Ok i ∧ Py.index hand nigiri = Ok j.
Proof.
  intros Hboth. apply andb_prop in Hboth as [Hw Hn].
  apply index_in_range in Hw as (i & Hi & _), Hn as (j & Hj & _).
  exists i, j. rewrite Hi, Hj. cbn. auto.
Qed.

(** X1: a pair returned by [chopstick_combo] is only returned with Chopsticks
    on the tableau, and names two different positions of the hand, both in
    range: the CHOPSTICKS command never repeats an index. *)
Theorem chopstick_combo_indices (hand : list string) (state : GameState) (idx1 idx2 : nat) :
  chopstick_combo hand state = Ok (Some (idx1, idx2)) →
  has_chopsticks state = true
  ∧ idx1 ≠ idx2 ∧ idx1 < length hand ∧ idx2 < length hand.
Proof.
  unfold chopstick_combo.
  destruct (has_chopsticks state); cbn [negb]; [|discriminate].
  assert (Hsame : ∀ (c : bool) card,
            (if c then first_two (Py.indices hand card) else None) = Some (idx1, idx2) →
            true = true ∧ idx1 ≠ idx2 ∧ idx1 < length hand ∧ idx2 < length hand).
  { intros [] card H; [|discriminate].
    apply first_two_indices_from_ordered in H. lia. }
  assert (Hpair : ∀ nigiri,
            Py.contains nigiri ["Wasabi"] = false →
            Py.contains "Wasabi" hand && Py.contains nigiri hand = true →
            (i ← Py.index hand "Wasabi"; j ← Py.index hand nigiri; Ok (Some (i, j)))
              = Ok (Some (idx1, idx2)) →
            true = true ∧ idx1 ≠ idx2 ∧ idx1 < length hand ∧ idx2 < length hand).
  { intros nigiri Hdiff Hboth Hret.
    destruct (wasabi_pair_Ok hand nigiri Hboth) as (i & j & Heq & Hi & Hj).
    rewrite Heq in Hret. injection Hret as -> ->.
    apply index_Ok_first in Hi as (Hi & Hilt & _), Hj as (Hj & Hjlt & _).
    repeat split; try assumption.
    intros ->. rewrite Hi in Hj. injection Hj as <-. discriminate Hdiff. }
  destruct (if occurances (my_tableau state) "Sashimi" mod 3 =? 1 then _ else None)
    as [[a b]|] eqn:Esashimi.
  { intros [= -> ->]. exact (Hsame _ _ Esashimi). }
  destruct (_ && Py.contains "Squid Nigiri" hand) eqn:Esquid; [now apply Hpair |].
  destruct (_ && Py.contains "Salmon Nigiri" hand) eqn:Esalmon; [now apply Hpair |].
  destruct (if occurances (my_tableau state) "Tempura" mod 2 =? 1 then _ else None)
    as [[a b]|] eqn:Etempura.
  { intros [= -> ->]. exact (Hsame _ _ Etempura). }
  destruct (_ && Py.contains "Egg Nigiri" hand) eqn:Eegg; [now apply Hpair | discriminate].
Qed.

Lemma chopstick_combo_indices_witness :
  has_chopsticks chopsticks_state = true
  ∧ 2 ≠ 0 ∧ 2 < length ["Squid Nigiri"; "Tempura"; "Wasabi"]
  ∧ 0 < length ["Squid Nigiri"; "Tempura"; "Wasabi"].
Proof.
  apply (chopstick_combo_indices ["Squid Nigiri"; "Tempura"; "Wasabi"] chopsticks_state 2 0).
  reflexivity.
Defined.

Lemma pair_rule_bool (c : bool) (hand : list string) (card : string) :
  (if c then first_two (Py.indices hand card) else None) = None
  ↔ c && (2 <=? Py.count hand card) = false.
Proof.
  rewrite pair_rule_None, andb_false_iff, Nat.leb_gt. reflexivity.
Qed.

(** When [chopstick_combo] declines, in terms of the tests it makes. *)
Lemma chopstick_combo_None_bool (hand : list string) (state : GameState) :
  chopstick_combo hand state = Ok None ↔
  has_chopsticks state = false
  ∨ ((count state "Sashimi" mod 3 =? 1) && (2 <=? Py.count hand "Sashimi") = false
     ∧ Py.contains "Wasabi" hand
       && (Py.contains "Squid Nigiri" hand || Py.contains "Salmon Nigiri" hand
           || Py.contains "Egg Nigiri" hand) = false
     ∧ (count state "Tempura" mod 2 =? 1) && (2 <=? Py.count hand "Tempura") = false).
Proof.
  unfold chopstick_combo, count. rewrite !occurances_count.
  destruct (has_chopsticks state); cbn [negb]; [|split; [now left | reflexivity]].
  pose proof (pair_rule_bool (Py.count (my_tableau state) "Sashimi" mod 3 =? 1)
                hand "Sashimi") as Hs.
  pose proof (pair_rule_bool (Py.count (my_tableau state) "Tempura" mod 2 =? 1)
                hand "Tempura") as Ht.
  destruct (if Py.count (my_tableau state) "Sashimi" mod 3 =? 1 then _ else None) as [ps|].
  { split; [discriminate |]. intros [[=] | (H & _)].
    apply Hs in H. discriminate. }
  destruct Hs as [Hs _]. rewrite (Hs eq_refl). clear Hs.
  destruct (Py.contains "Wasabi" hand) eqn:Hw; cbn [andb].
  - destruct (Py.contains "Squid Nigiri" hand) eqn:Hsq; cbn [orb].
    { destruct (wasabi_pair_Ok hand "Squid Nigiri") as (i & j & -> & _);
        [now rewrite Hw, Hsq |].
      split; [discriminate | intros [[=] | (_ & [=] & _)]]. }
    destruct (Py.contains "Salmon Nigiri" hand) eqn:Hsa; cbn [orb].
    { destruct (wasabi_pair_Ok hand "Salmon Nigiri") as (i & j & -> & _);
        [now rewrite Hw, Hsa |].
      split; [discriminate | intros [[=] | (_ & [=] & _)]]. }
    destruct (if Py.count (my_tableau state) "Tempura" mod 2 =? 1 then _ else None) as [pt|].
    { split; [discriminate |]. intros [[=] | (_ & _ & H)].
      apply Ht in H. discriminate. }
    destruct Ht as [Ht _]. rewrite (Ht eq_refl). clear Ht.
    destruct (Py.contains "Egg Nigiri" hand) eqn:He.
    { destruct (wasabi_pair_Ok hand "Egg Nigiri") as (i & j & -> & _);
        [now rewrite Hw, He |].
      split; [discriminate | intros [[=] | (_ & [=] & _)]]. }
    split; [now right | reflexivity].
  - destruct (if Py.count (my_tableau state) "Tempura" mod 2 =? 1 then _ else None) as [pt|].
    { split; [discriminate |]. intros [[=] | (_ & _ & H)].
      apply Ht in H. discriminate. }
    destruct Ht as [Ht _]. rewrite (Ht eq_refl).
    split; [now right | reflexivity].
Qed.

(** X2: [chopstick_combo] never raises, and it declines (returns [None])
    exactly when the tableau has no Chopsticks or the hand offers none of the
    pairs: two Sashimi on a tableau count of 1 mod 3, Wasabi with a Nigiri
    variant, two Tempura on a tableau count of 1 mod 2. *)
Theorem chopstick_combo_declines_iff (hand : list string) (state : GameState) :
  let in_hand card := count_occ String.string_dec hand card in
  (∃ chop, chopstick_combo hand state = Ok chop)
  ∧ (chopstick_combo hand state = Ok None ↔
     "Chopsticks" ∉ my_tableau state
     ∨ (¬ (count state "Sashimi" mod 3 = 1 ∧ 2 ≤ in_hand "Sashimi")
        ∧ ¬ ("Wasabi" ∈ hand
             ∧ ("Squid Nigiri" ∈ hand ∨ "Salmon Nigiri" ∈ hand ∨ "Egg Nigiri" ∈ hand))
        ∧ ¬ (count state "Tempura" mod 2 = 1 ∧ 2 ≤ in_hand "Tempura"))).
Proof.
  intros in_hand. split; [apply chopstick_combo_total |].
  subst in_hand. cbv beta.
  rewrite chopstick_combo_None_bool. unfold has_chopsticks.
  rewrite contains_false, <- !count_occ_count.
  rewrite !andb_false_iff, !orb_false_iff, !Nat.eqb_neq, !Nat.leb_gt, !contains_false.
  assert (Hs := Nat.eq_dec (count state "Sashimi" mod 3) 1).
  assert (Ht := Nat.eq_dec (count state "Tempura" mod 2) 1).
  split; (intros [H | (H1 & H2 & H3)]; [now left | right]);
    (split; [|split]); try tauto; try lia.
  destruct (decide ("Wasabi" ∈ hand)); tauto.
Qed.

(** ** The single-play decision, further *)

(** Where an index returned by [choose_card] comes from: the fallback, or
    [hand.index] of the card of the rule that fired. *)
Lemma choose_card_cases (hand : list string) (state : GameState) (i : nat) :
  choose_card hand state = Ok i →
  i = 0
  ∨ (∃ c, c ∈ valid_combo state hand (my_tableau state) ∧ Py.index hand c = Ok i)
  ∨ (should_grab_chopsticks hand state = true ∧ Py.index hand "Chopsticks" = Ok i)
  ∨ (match pudding_counts state with
     | [] => Ok false
     | _ => pudding_cond state (total_turns (player_count state) - turn state)
              (pudding_counts state)
     end = Ok true ∧ Py.index hand "Pudding" = Ok i)
  ∨ (2 ≤ length (List.filter (fun card => Py.contains card nigiri_types) hand)
     ∧ Py.index hand "Wasabi" = Ok i)
  ∨ (count state "Dumpling" < 5 ∧ Py.index hand "Dumpling" = Ok i)
  ∨ (∃ c, c ∈ ["Squid Nigiri"; "Salmon Nigiri"; "Egg Nigiri"; "Sashimi"; "Tempura";
                "Maki Roll (3)"; "Maki Roll (2)"; "Maki Roll (1)"]
          ∧ Py.index hand c = Ok i).
Proof.
  unfold choose_card.
  destruct (valid_combo state hand (my_tableau state)) as [|c combos] eqn:Hcombos.
  2: { intros H. right; left. exists c. split; [left | assumption]. }
  destruct (should_grab_chopsticks hand state && Py.contains "Chopsticks" hand) eqn:Egrab.
  { intros H. apply andb_prop in Egrab as [Egrab _]. right; right; left. auto. }
  destruct (pudding_cond_total state
              (total_turns (player_count state) - turn state) (pudding_counts state))
    as [wanted Hwanted].
  rewrite Hwanted. cbn [mbind result_bind].
  destruct (wanted && Py.contains "Pudding" hand) eqn:Epud.
  { intros H. apply andb_prop in Epud as [-> _]. right; right; right; left. auto. }
  destruct (_ && Py.contains "Wasabi" hand) eqn:Ewas.
  { intros H. apply andb_prop in Ewas as [Ewas _]. apply Nat.leb_le in Ewas.
    right; right; right; right; left. auto. }
  destruct (_ && Py.contains "Dumpling" hand) eqn:Edump.
  { intros H. apply andb_prop in Edump as [Edump _]. apply Nat.ltb_lt in Edump.
    right; right; right; right; right; left. auto. }
  assert (Hnamed : ∀ c,
            Py.contains c ["Squid Nigiri"; "Salmon Nigiri"; "Egg Nigiri"; "Sashimi"; "Tempura";
                           "Maki Roll (3)"; "Maki Roll (2)"; "Maki Roll (1)"] = true →
            Py.index hand c = Ok i →
            i = 0
            ∨ (∃ c, c ∈ ([] : list string) ∧ Py.index hand c = Ok i)
            ∨ (should_grab_chopsticks hand state = true ∧ Py.index hand "Chopsticks" = Ok i)
            ∨ (Ok wanted = Ok true ∧ Py.index hand "Pudding" = Ok i)
            ∨ (2 ≤ length (List.filter (fun card => Py.contains card nigiri_types) hand)
               ∧ Py.index hand "Wasabi" = Ok i)
            ∨ (count state "Dumpling" < 5 ∧ Py.index hand "Dumpling" = Ok i)
            ∨ (∃ c, c ∈ ["Squid Nigiri"; "Salmon Nigiri"; "Egg Nigiri"; "Sashimi"; "Tempura";
                          "Maki Roll (3)"; "Maki Roll (2)"; "Maki Roll (1)"]
                    ∧ Py.index hand c = Ok i)).
  { intros c Hc H. do 6 right. exists c. split; [now apply contains_elem_of | assumption]. }
  repeat match goal with
         | |- (if ?b then Py.index hand ?c else _) = Ok i → _ =>
             destruct b; [now apply (Hnamed c) |]
         end.
  intros [= <-]. now left.
Qed.

(** X3: the index returned by [choose_card] is the first position of the
    card it selects: no earlier card of the hand has the same name. *)
Theorem choose_card_first_occurrence (hand : list string) (state : GameState) (i : nat) :
  choose_card hand state = Ok i →
  ∀ j, j < i → hand !! j ≠ hand !! i.
Proof.
  intros Hret j Hj.
  assert (Hindex : ∀ c, Py.index hand c = Ok i → hand !! j ≠ hand !! i).
  { intros c Hc. apply index_Ok_first in Hc as (Hi & _ & Hfirst).
    rewrite Hi. now apply Hfirst. }
  apply choose_card_cases in Hret
    as [-> | [(c & _ & H) | [(_ & H) | [(_ & H) | [(_ & H) | [(_ & H) | (c & _ & H)]]]]]];
    [lia | now apply (Hindex _ H)..].
Qed.

Lemma choose_card_first_occurrence_witness :
  ["Tempura"; "Sashimi"; "Sashimi"] !! 0 ≠ ["Tempura"; "Sashimi"; "Sashimi"] !! 1.
Proof.
  apply (choose_card_first_occurrence ["Tempura"; "Sashimi"; "Sashimi"] two_sashimi_state 1).
  - reflexivity.
  - lia.
Defined.

(** *** The pudding rule *)

Lemma fold_max_spec (l : list nat) (x : nat) :
  let m := fold_left Nat.max l x in
  m ∈ x :: l ∧ ∀ n, n ∈ x :: l → n ≤ m.
Proof.
  revert x. induction l as [|y l IH]; intros x; cbn.
  - split; [left |]. intros n Hn. apply list_elem_of_singleton in Hn. lia.
  - destruct (IH (Nat.max x y)) as [Hin Hmax]. split.
    + apply elem_of_cons in Hin as [Heq | Hin]; [|now right; right].
      rewrite Heq. destruct (Nat.max_spec x y) as [[_ ->] | [_ ->]]; [right; left | left].
    + intros n Hn. apply elem_of_cons in Hn as [-> | Hn].
      * specialize (Hmax (Nat.max x y)). etransitivity; [apply Nat.le_max_l |].
        apply Hmax. left.
      * apply elem_of_cons in Hn as [-> | Hn]; [|apply Hmax; now right].
        etransitivity; [apply Nat.le_max_r |]. apply Hmax. left.
Qed.

Lemma fold_min_spec (l : list nat) (x : nat) :
  let m := fold_left Nat.min l x in
  m ∈ x :: l ∧ ∀ n, n ∈ x :: l → m ≤ n.
Proof.
  revert x. induction l as [|y l IH]; intros x; cbn.
  - split; [left |]. intros n Hn. apply list_elem_of_singleton in Hn. lia.
  - destruct (IH (Nat.min x y)) as [Hin Hmin]. split.
    + apply elem_of_cons in Hin as [Heq | Hin]; [|now right; right].
      rewrite Heq. destruct (Nat.min_spec x y) as [[_ ->] | [_ ->]]; [left | right; left].
    + intros n Hn. apply elem_of_cons in Hn as [-> | Hn].
      * specialize (Hmin (Nat.min x y)). etransitivity; [|apply Nat.le_min_l].
        apply Hmin. left.
      * apply elem_of_cons in Hn as [-> | Hn]; [|apply Hmin; now right].
        etransitivity; [|apply Nat.le_min_r]. apply Hmin. left.
Qed.

(** The condition of the pudding rule on a non-empty list of counts: own
    count strictly below some count while own count plus the turns left is
    above every count, or own count at or below every count. *)
Lemma pudding_cond_spec (state : GameState) (turns_left : Z) (counts : list nat) :
  counts ≠ [] →
  ∃ wanted, pudding_cond state turns_left counts = Ok wanted
    ∧ (wanted = true ↔
       ((∃ n, n ∈ counts ∧ puddings state < n)
        ∧ (∀ n, n ∈ counts → (Z.of_nat n < Z.of_nat (puddings state) + turns_left)%Z))
       ∨ (∀ n, n ∈ counts → puddings state ≤ n)).
Proof.
  destruct counts as [|x l]; [contradiction |]. intros _.
  unfold pudding_cond. cbn [Py.max Py.min mbind result_bind].
  destruct (fold_max_spec l x) as [Hmax_in Hmax].
  destruct (fold_min_spec l x) as [Hmin_in Hmin].
  set (M := fold_left Nat.max l x) in *. set (m := fold_left Nat.min l x) in *.
  set (p := puddings state).
  assert (Hlow : (p <=? m) = true ↔ ∀ n, n ∈ x :: l → p ≤ n).
  { rewrite Nat.leb_le. split.
    - intros H n Hn. specialize (Hmin n Hn). lia.
    - intros H. now apply H. }
  assert (Hbehind : (p <? M) = true ↔ ∃ n, n ∈ x :: l ∧ p < n).
  { rewrite Nat.ltb_lt. split.
    - intros H. eauto.
    - intros (n & Hn & Hlt). specialize (Hmax n Hn). lia. }
  assert (Hreach : (Z.of_nat M <? Z.of_nat p + turns_left)%Z = true ↔
                   ∀ n, n ∈ x :: l → (Z.of_nat n < Z.of_nat p + turns_left)%Z).
  { rewrite Z.ltb_lt. split.
    - intros H n Hn. specialize (Hmax n Hn). lia.
    - intros H. now apply H. }
  destruct (p <? M) eqn:E1; [destruct (Z.of_nat M <? Z.of_nat p + turns_left)%Z eqn:E2 |];
    eexists; (split; [reflexivity |]).
  - split; [intros _; left; split; [now apply Hbehind | now apply Hreach] | reflexivity].
  - rewrite Hlow. split; [now right |]. intros [[_ H] | H]; [|assumption].
    apply Hreach in H. discriminate.
  - rewrite Hlow. split; [now right |]. intros [[H _] | H]; [|assumption].
    apply Hbehind in H. discriminate.
Qed.

Lemma elem_of_pudding_counts (state : GameState) (n : nat) :
  n ∈ pudding_counts state ↔
  ∃ player tableau, all_tableaux state !! player = Some tableau
                    ∧ n = count_occ String.string_dec tableau "Pudding".
Proof.
  unfold pudding_counts. rewrite list_elem_of_fmap. split.
  - intros ([player tableau] & -> & Hin). apply elem_of_map_to_list in Hin.
    exists player, tableau. split; [assumption | apply count_occ_count].
  - intros (player & tableau & Hlook & ->). exists (player, tableau).
    split; [symmetry; apply count_occ_count | now apply elem_of_map_to_list].
Qed.

Lemma pudding_counts_nil (state : GameState) :
  pudding_counts state = [] ↔ all_tableaux state = ∅.
Proof.
  unfold pudding_counts. rewrite <- map_to_list_empty_iff.
  destruct (map_to_list (all_tableaux state)); cbn; split; (reflexivity || discriminate).
Qed.

Lemma nigiri_filter_length (hand : list string) :
  length (List.filter (fun card => Py.contains card nigiri_types) hand)
  = Py.count hand "Egg Nigiri" + Py.count hand "Salmon Nigiri" + Py.count hand "Squid Nigiri".
Proof.
  induction hand as [|y hand IH]; [reflexivity |].
  cbn [List.filter Py.count].
  assert (Hy : (if Py.contains y nigiri_types then 1 else 0)
               = (if String.eqb y "Egg Nigiri" then 1 else 0)
                 + (if String.eqb y "Salmon Nigiri" then 1 else 0)
                 + (if String.eqb y "Squid Nigiri" then 1 else 0)).
  { cbn [Py.contains nigiri_types].
    rewrite (String.eqb_sym "Egg Nigiri"), (String.eqb_sym "Salmon Nigiri"),
      (String.eqb_sym "Squid Nigiri").
    destruct (String.eqb_spec y "Egg Nigiri") as [->|]; [reflexivity |].
    destruct (String.eqb_spec y "Salmon Nigiri") as [->|]; [reflexivity |].
    destruct (String.eqb y "Squid Nigiri"); reflexivity. }
  destruct (Py.contains y nigiri_types); cbn [length]; lia.
Qed.

(** The card at an index other than the fallback 0, with the rule that chose it. *)
Lemma choose_card_selected_by (hand : list string) (state : GameState) (i : nat) :
  choose_card hand state = Ok i → i ≠ 0 →
  ∃ c, hand !! i = Some c
    ∧ (Py.contains c ["Sashimi"; "Squid Nigiri"; "Salmon Nigiri"; "Tempura"; "Egg Nigiri";
                      "Maki Roll (3)"; "Maki Roll (2)"; "Maki Roll (1)"] = true
       ∨ (c = "Chopsticks" ∧ should_grab_chopsticks hand state = true)
       ∨ (c = "Pudding"
          ∧ match pudding_counts state with
            | [] => Ok false
            | _ => pudding_cond state (total_turns (player_count state) - turn state)
                     (pudding_counts state)
            end = Ok true)
       ∨ (c = "Wasabi"
          ∧ 2 ≤ length (List.filter (fun card => Py.contains card nigiri_types) hand))
       ∨ (c = "Dumpling" ∧ count state "Dumpling" < 5)).
Proof.
  intros Hret Hi.
  apply choose_card_cases in Hret
    as [-> | [(c & Hc & H) | [(Hg & H) | [(Hp & H) | [(Hw & H) | [(Hd & H) | (c & Hc & H)]]]]]];
    [contradiction | apply index_Ok_first in H as (H & _)..]; eexists; (split; [exact H |]).
  - left. rewrite valid_combo_playable in Hc.
    apply list_elem_of_In, in_map_iff in Hc as (combo & <- & _). now destruct combo.
  - right; left. auto.
  - right; right; left. auto.
  - right; right; right; left. auto.
  - right; right; right; right. auto.
  - left. apply contains_elem_of in Hc.
    cbn [Py.contains] in Hc |- *.
    repeat match goal with
           | |- context [String.eqb ?a c] => destruct (String.eqb a c); [reflexivity |]
           end.
    discriminate Hc.
Qed.

(** X4: the pudding rule.  When no combo applies and the chopsticks rule does
    not fire, some tableau is tracked and the hand holds a Pudding,
    [choose_card] plays the Pudding if the own pudding count is below some
    tracked count while the own count plus the turns left (per-count total
    minus the current turn) exceeds every tracked count, or if the own count
    is at or below every tracked count. *)
Theorem choose_card_plays_pudding (hand : list string) (state : GameState) :
  valid_combo state hand (my_tableau state) = [] →
  should_grab_chopsticks hand state = false →
  all_tableaux state ≠ ∅ →
  "Pudding" ∈ hand →
  let own := count_occ String.string_dec (my_tableau state) "Pudding" in
  let turns_left := (total_turns (player_count state) - turn state)%Z in
  let tracked n := ∃ player tableau, all_tableaux state !! player = Some tableau
                                     ∧ n = count_occ String.string_dec tableau "Pudding" in
  ((∃ n, tracked n ∧ own < n)
   ∧ (∀ n, tracked n → (Z.of_nat n < Z.of_nat own + turns_left)%Z))
  ∨ (∀ n, tracked n → own ≤ n) →
  ∃ i, choose_card hand state = Ok i ∧ hand !! i = Some "Pudding".
Proof.
  intros Hcombos Hgrab Htracked Hhand own turns_left tracked Hcond.
  unfold choose_card. rewrite Hcombos, Hgrab. cbn [andb].
  assert (Hcounts : pudding_counts state ≠ []) by now rewrite pudding_counts_nil.
  destruct (pudding_cond_spec state turns_left (pudding_counts state) Hcounts)
    as (wanted & Hwanted & Hiff).
  assert (Hown : puddings state = own) by apply count_occ_count.
  assert (wanted = true) as ->.
  { apply Hiff. rewrite Hown.
    destruct Hcond as [[(k & Hk & Hlt) Hreach] | Hlow]; [left; split | right].
    - exists k. split; [now apply elem_of_pudding_counts | assumption].
    - intros k' Hk'. apply Hreach. now apply elem_of_pudding_counts.
    - intros k' Hk'. apply Hlow. now apply elem_of_pudding_counts. }
  fold turns_left. destruct (pudding_counts state) as [|x l]; [contradiction |].
  rewrite Hwanted. cbn [mbind result_bind andb].
  apply contains_elem_of in Hhand. rewrite Hhand.
  apply index_contains in Hhand as (i & Hi & Hlook & _). eauto.
Qed.

Lemma choose_card_plays_pudding_witness :
  ∃ i, choose_card ["Dumpling"; "Pudding"; "Tempura"] pudding_state = Ok i
       ∧ ["Dumpling"; "Pudding"; "Tempura"] !! i = Some "Pudding".
Proof.
  apply (choose_card_plays_pudding ["Dumpling"; "Pudding"; "Tempura"] pudding_state).
  - reflexivity.
  - reflexivity.
  - intros Hempty. apply (f_equal (lookup "Bob")) in Hempty. discriminate Hempty.
  - apply contains_elem_of. reflexivity.
  - left. split.
    + exists 1. split; [|cbn; lia].
      exists "Bob", ["Pudding"; "Tempura"; "Tempura"; "Sashimi"]. split; reflexivity.
    + intros n Hn. apply elem_of_pudding_counts in Hn.
      set (counts := pudding_counts pudding_state) in Hn.
      vm_compute in counts. subst counts.
      repeat (apply elem_of_cons in Hn as [-> | Hn]; [cbn; lia |]).
      inversion Hn.
Defined.

(** X5: [choose_card] returns a position other than 0 holding Chopsticks,
    Pudding, Wasabi or Dumpling only when the rule for that card fired: the
    lookahead asked for Chopsticks; tableaux are tracked and the pudding
    condition holds; the hand has two or more Nigiri cards; the tableau has
    fewer than five Dumplings. *)
Theorem choose_card_guarded_cards (hand : list string) (state : GameState) (i : nat) :
  choose_card hand state = Ok i → i ≠ 0 →
  let own := count_occ String.string_dec (my_tableau state) "Pudding" in
  let turns_left := (total_turns (player_count state) - turn state)%Z in
  let tracked n := ∃ player tableau, all_tableaux state !! player = Some tableau
                                     ∧ n = count_occ String.string_dec tableau "Pudding" in
  let in_hand card := count_occ String.string_dec hand card in
  (hand !! i = Some "Chopsticks" → should_grab_chopsticks hand state = true)
  ∧ (hand !! i = Some "Pudding" →
     all_tableaux state ≠ ∅
     ∧ (((∃ n, tracked n ∧ own < n)
         ∧ (∀ n, tracked n → (Z.of_nat n < Z.of_nat own + turns_left)%Z))
        ∨ (∀ n, tracked n → own ≤ n)))
  ∧ (hand !! i = Some "Wasabi" →
     2 ≤ in_hand "Egg Nigiri" + in_hand "Salmon Nigiri" + in_hand "Squid Nigiri")
  ∧ (hand !! i = Some "Dumpling" →
     count_occ String.string_dec (my_tableau state) "Dumpling" < 5).
Proof.
  intros Hret Hi own turns_left tracked in_hand.
  destruct (choose_card_selected_by hand state i Hret Hi) as (c & Hc & Hrule).
  rewrite Hc.
  (split; [|split; [|split]]); intros [= ->];
    destruct Hrule as [H | [[H Hg] | [[H Hp] | [[H Hw] | [H Hd]]]]];
    try discriminate H.
  - assumption.
  - split.
    { intros Hempty. apply pudding_counts_nil in Hempty. rewrite Hempty in Hp.
      discriminate. }
    assert (Hcounts : pudding_counts state ≠ []).
    { intros Hnil. rewrite Hnil in Hp. discriminate. }
    destruct (pudding_cond_spec state turns_left (pudding_counts state) Hcounts)
      as (wanted & Hwanted & Hiff).
    fold turns_left in Hp.
    destruct (pudding_counts state) as [|x l] eqn:E; [contradiction |].
    rewrite Hwanted in Hp. injection Hp as ->.
    assert (Hown : puddings state = own) by apply count_occ_count.
    rewrite Hown in Hiff. rewrite <- E in Hiff.
    destruct (proj1 Hiff eq_refl) as [[(k & Hk & Hlt) Hreach] | Hlow]; [left; split | right].
    + exists k. split; [now apply elem_of_pudding_counts | assumption].
    + intros k' Hk'. apply Hreach. now apply elem_of_pudding_counts.
    + intros k' Hk'. apply Hlow. now apply elem_of_pudding_counts.
  - subst in_hand. cbv beta. rewrite <- !count_occ_count, <- nigiri_filter_length. assumption.
  - rewrite <- count_occ_count. assumption.
Qed.

Lemma choose_card_guarded_cards_witness : all_tableaux pudding_state ≠ ∅.
Proof.
  destruct (choose_card_guarded_cards ["Dumpling"; "Pudding"; "Tempura"] pudding_state 1)
    as (_ & Hpudding & _); [reflexivity | discriminate |].
  apply Hpudding. reflexivity.
Defined.

(** ** Recording a play, further *)

(** What [_record_play] leaves alone. *)
Lemma record_play_fields (card : string) (state state' : GameState) :
  _record_play card state = Ok state' →
  my_tableau state' = my_tableau state ++ [card]
  ∧ last_card_played state' = Some card
  ∧ hand state' = hand state
  ∧ current_hand_ptr state' = current_hand_ptr state
  ∧ length (all_hands state') = length (all_hands state)
  ∧ all_tableaux state' = all_tableaux state
  ∧ last_turn_reveals state' = last_turn_reveals state
  ∧ player_count state' = player_count state
  ∧ turn state' = turn state ∧ round state' = round state
  ∧ player_name state' = player_name state ∧ game_id state' = game_id state
  ∧ player_id state' = player_id state ∧ rejoin_token state' = rejoin_token state.
Proof.
  unfold _record_play.
  destruct (if current_hand_ptr state <? length (all_hands state) then _ else _)
    as [slots|e] eqn:Hslots; cbn [mbind result_bind]; [|discriminate].
  intros [= <-]. cbn. repeat split.
  destruct (current_hand_ptr state <? length (all_hands state)); [|now injection Hslots as <-].
  destruct (Py.getitem (all_hands state) (current_hand_ptr state)) as [[tracked|]|];
    cbn [mbind result_bind] in Hslots; try discriminate; [|now injection Hslots as <-].
  destruct (Py.contains card tracked); [|now injection Hslots as <-].
  destruct (Py.remove tracked card); cbn [mbind result_bind] in Hslots; [|discriminate].
  injection Hslots as <-. apply length_insert.
Qed.

Lemma count_snoc (l : list string) (c x : string) :
  Py.count (l ++ [c]) x = Py.count l x + (if String.eqb c x then 1 else 0).
Proof. induction l as [|y l IH]; cbn; [lia | rewrite IH; lia]. Qed.

Lemma count_permutation (l l' : list string) (x : string) :
  l ≡ₚ l' → Py.count l x = Py.count l' x.
Proof.
  induction 1 as [|y l l' _ IH|y z l|l l' l'' _ IH1 _ IH2]; cbn; lia.
Qed.

(** X6: Wasabi pairing goes by counts alone.  [has_unused_wasabi] does not
    depend on the order of the tableau.  After recording a Wasabi it holds
    exactly when the Nigiri played before did not outnumber the Wasabi; after
    recording a Nigiri variant it holds exactly when the Wasabi exceeded the
    Nigiri by two or more; recording any other card leaves it as it was. *)
Theorem has_unused_wasabi_by_counts :
  (∀ state state' : GameState,
     my_tableau state ≡ₚ my_tableau state' →
     has_unused_wasabi state = has_unused_wasabi state')
  ∧ (∀ (card : string) (state state' : GameState),
       _record_play card state = Ok state' →
       let occ c := count_occ String.string_dec (my_tableau state) c in
       let nigiri := occ "Egg Nigiri" + occ "Salmon Nigiri" + occ "Squid Nigiri" in
       (card = "Wasabi" → (has_unused_wasabi state' = true ↔ nigiri ≤ occ "Wasabi"))
       ∧ (card ∈ nigiri_types →
          (has_unused_wasabi state' = true ↔ nigiri + 2 ≤ occ "Wasabi"))
       ∧ (card ∉ "Wasabi" :: nigiri_types →
          has_unused_wasabi state' = has_unused_wasabi state)).
Proof.
  split.
  - intros state state' Hperm. unfold has_unused_wasabi, count.
    cbn [map sum_list sum_list_with].
    now rewrite !(count_permutation _ _ _ Hperm).
  - intros card state state' Hplay occ nigiri.
    apply record_play_fields in Hplay as (Htab & _).
    subst nigiri occ. cbv beta. rewrite <- !count_occ_count.
    unfold has_unused_wasabi, count. cbn [map sum_list sum_list_with]. cbv delta [id] beta.
    rewrite Htab, !count_snoc.
    split; [|split].
    + intros ->. rewrite Nat.ltb_lt. cbn. lia.
    + intros Hin. apply contains_elem_of in Hin. cbn [Py.contains nigiri_types] in Hin.
      rewrite Nat.ltb_lt.
      destruct (String.eqb_spec "Egg Nigiri" card) as [<-|_]; [cbn; lia |].
      destruct (String.eqb_spec "Salmon Nigiri" card) as [<-|_]; [cbn; lia |].
      destruct (String.eqb_spec "Squid Nigiri" card) as [<-|_]; [cbn; lia | discriminate].
    + intros Hout. apply contains_false in Hout.
      cbn [Py.contains nigiri_types] in Hout.
      rewrite (String.eqb_sym "Wasabi"), (String.eqb_sym "Egg Nigiri"),
        (String.eqb_sym "Salmon Nigiri"), (String.eqb_sym "Squid Nigiri") in Hout.
      repeat match type of Hout with
             | (if ?b then _ else _) = _ => destruct b; [discriminate Hout |]
             end.
      rewrite !Nat.add_0_r. reflexivity.
Qed.

Lemma has_unused_wasabi_by_counts_witness :
  has_unused_wasabi two_sashimi_state = has_unused_wasabi two_sashimi_state
  ∧ ∃ state', _record_play "Wasabi" first_hand_state = Ok state'
              ∧ has_unused_wasabi state' = true.
Proof.
  destruct has_unused_wasabi_by_counts as [Hperm Hplay]. split.
  - apply Hperm. reflexivity.
  - assert (Hrun : ∃ s, _record_play "Wasabi" first_hand_state = Ok s)
      by (eexists; reflexivity).
    destruct Hrun as [s Hs]. exists s. split; [exact Hs |].
    destruct (Hplay _ _ _ Hs) as (Hwasabi & _).
    apply Hwasabi; [reflexivity | cbn; lia].
Defined.

(** ** The effect of a turn *)

Lemma contains_app (x : string) (l1 l2 : list string) :
  Py.contains x (l1 ++ l2) = Py.contains x l1 || Py.contains x l2.
Proof. induction l1 as [|y l1 IH]; cbn; [reflexivity |]. now destruct (String.eqb y x). Qed.

Lemma remove_app_first (l1 l2 : list string) (x : string) :
  x ∉ l1 → Py.remove (l1 ++ x :: l2) x = Ok (l1 ++ l2).
Proof.
  induction l1 as [|y l1 IH]; cbn; intros Hnot.
  - now rewrite String.eqb_refl.
  - apply not_elem_of_cons in Hnot as [Hne Hnot].
    destruct (String.eqb_spec y x); [congruence |]. now rewrite IH.
Qed.

(** X7: what [play_turn] does.  On an empty hand: nothing, and no command.
    Otherwise exactly one command.  PLAY i: i is the choice of [choose_card],
    the card at i goes to the end of the own tableau and becomes the last
    played card.  CHOPSTICKS i j (only with Chopsticks on the tableau, for the
    pair of [chopstick_combo]): the first Chopsticks leaves the tableau, the
    cards at i and j are appended in this order, and the last played card is
    the one at i.  The working hand, the cursor, the tracked tableaux and the
    counters are never changed. *)
Theorem play_turn_effect (state state' : GameState) (cmds : list command) :
  play_turn state = Ok (state', cmds) →
  ((hand state = [] ∧ state' = state ∧ cmds = [])
   ∨ (∃ i card,
        cmds = [PLAY i] ∧ hand state ≠ []
        ∧ choose_card (hand state) state = Ok i
        ∧ hand state !! i = Some card
        ∧ my_tableau state' = my_tableau state ++ [card]
        ∧ last_card_played state' = Some card)
   ∨ (∃ i j card1 card2 before after,
        cmds = [CHOPSTICKS i j]
        ∧ chopstick_combo (hand state) state = Ok (Some (i, j))
        ∧ hand state !! i = Some card1 ∧ hand state !! j = Some card2
        ∧ my_tableau state = before ++ ("Chopsticks" :: after) ∧ ("Chopsticks" ∉ before)
        ∧ my_tableau state' = before ++ after ++ [card1; card2]
        ∧ last_card_played state' = Some card1))
  ∧ hand state' = hand state
  ∧ current_hand_ptr state' = current_hand_ptr state
  ∧ length (all_hands state') = length (all_hands state)
  ∧ all_tableaux state' = all_tableaux state
  ∧ turn state' = turn state ∧ round state' = round state
  ∧ player_count state' = player_count state
  ∧ player_name state' = player_name state.
Proof.
  unfold play_turn. destruct (hand state) as [|c0 cards] eqn:Hhand.
  { intros [= <- <-]. rewrite Hhand. repeat split. left. auto. }
  rewrite <- Hhand.
  assert (Hne : hand state ≠ []) by (rewrite Hhand; discriminate).
  assert (Hsingle :
    (card_index ← choose_card (hand state) state;
     card ← Py.getitem (hand state) card_index;
     state1 ← _record_play card state;
     Ok (state1, [PLAY card_index])) = Ok (state', cmds) →
    ((hand state = [] ∧ state' = state ∧ cmds = [])
     ∨ (∃ i card,
          cmds = [PLAY i] ∧ hand state ≠ []
          ∧ choose_card (hand state) state = Ok i
          ∧ hand state !! i = Some card
          ∧ my_tableau state' = my_tableau state ++ [card]
          ∧ last_card_played state' = Some card)
     ∨ (∃ i j card1 card2 before after,
          cmds = [CHOPSTICKS i j]
          ∧ chopstick_combo (hand state) state = Ok (Some (i, j))
          ∧ hand state !! i = Some card1 ∧ hand state !! j = Some card2
          ∧ my_tableau state = before ++ ("Chopsticks" :: after) ∧ ("Chopsticks" ∉ before)
          ∧ my_tableau state' = before ++ after ++ [card1; card2]
          ∧ last_card_played state' = Some card1))
    ∧ hand state' = hand state
    ∧ current_hand_ptr state' = current_hand_ptr state
    ∧ length (all_hands state') = length (all_hands state)
    ∧ all_tableaux state' = all_tableaux state
    ∧ turn state' = turn state ∧ round state' = round state
    ∧ player_count state' = player_count state
    ∧ player_name state' = player_name state).
  { destruct (choose_card (hand state) state) as [i|e] eqn:Hchoice;
      cbn [mbind result_bind]; [|discriminate].
    unfold Py.getitem. destruct (hand state !! i) as [card|] eqn:Hcard;
      cbn [mbind result_bind]; [|discriminate].
    destruct (_record_play card state) as [state1|e] eqn:Hplay;
      cbn [mbind result_bind]; [|discriminate].
    intros [= <- <-]. apply record_play_fields in Hplay.
    split; [right; left; exists i, card |]; tauto. }
  destruct (has_chopsticks state) eqn:Hchop; [|exact Hsingle].
  rewrite choose_chopsticks_combo.
  destruct (chopstick_combo (hand state) state) as [[[i j]|]|e] eqn:Hcombo;
    cbn [mbind result_bind]; [| exact Hsingle | discriminate].
  unfold Py.getitem.
  destruct (hand state !! i) as [card1|] eqn:Hc1; cbn [mbind result_bind]; [|discriminate].
  destruct (_record_play card1 state) as [state1|e] eqn:Hplay;
    cbn [mbind result_bind]; [|discriminate].
  destruct (hand state !! j) as [card2|] eqn:Hc2; cbn [mbind result_bind]; [|discriminate].
  apply record_play_fields in Hplay
    as (Htab & Hlast & Hh & Hptr & Hlen & Hall & _ & Hpc & Hturn & Hround & Hname & _).
  unfold has_chopsticks in Hchop.
  destruct (remove_contains _ _ Hchop) as (before & after & Hsplit & Hnot & _).
  unfold return_chopsticks. rewrite Htab, Hsplit.
  replace (((before ++ "Chopsticks" :: after) ++ [card1]) ++ [card2])
    with (before ++ "Chopsticks" :: (after ++ [card1; card2]))
    by (rewrite <- !app_assoc; reflexivity).
  rewrite contains_app. cbn [Py.contains String.eqb Ascii.eqb Bool.eqb].
  rewrite orb_true_r, (remove_app_first _ _ _ Hnot). cbn [mbind result_bind].
  intros [= <- <-]. cbn.
  split; [right; right; exists i, j, card1, card2, before, after |]; tauto.
Qed.

Lemma play_turn_effect_witness :
  ∃ state' cmds, play_turn chopsticks_state = Ok (state', cmds)
    ∧ hand state' = hand chopsticks_state
    ∧ all_tableaux state' = all_tableaux chopsticks_state.
Proof.
  assert (Hrun : ∃ s c, play_turn chopsticks_state = Ok (s, c))
    by (eexists _, _; reflexivity).
  destruct Hrun as (s & c & Hrun). exists s, c. split; [exact Hrun |].
  destruct (play_turn_effect _ _ _ Hrun) as (_ & Hhand & _ & _ & Hall & _). auto.
Defined.

(** ** Tracking the hand in the rotation buffer *)

Lemma remove_at_index (l : list string) (x : string) (i : nat) :
  Py.index l x = Ok i → Py.remove l x = Ok (delete i l).
Proof.
  revert i. induction l as [|y l IH]; intros i; cbn; [discriminate |].
  destruct (String.eqb y x); [now intros [= <-] |].
  destruct (Py.index l x) as [k|e]; cbn; [|discriminate].
  intros [= <-]. now rewrite (IH k eq_refl).
Qed.

Lemma index_of_lookup_first (l : list string) (x : string) (i : nat) :
  l !! i = Some x → (∀ j, j < i → l !! j ≠ Some x) → Py.index l x = Ok i.
Proof.
  intros Hi Hfirst.
  assert (Hin : Py.contains x l = true).
  { apply contains_elem_of, list_elem_of_lookup. eauto. }
  apply index_contains in Hin as (k & Hk & Hlook & _).
  pose proof (index_Ok_first _ _ _ Hk) as (_ & _ & Hkfirst).
  destruct (Nat.lt_trichotomy i k) as [Hlt | [-> | Hgt]]; [| assumption |].
  - now destruct (Hkfirst i Hlt).
  - now destruct (Hfirst k Hgt).
Qed.

(** The index [choose_card] returns is [hand.index] of the card found there. *)
Lemma choose_card_is_index (hand : list string) (state : GameState) (i : nat) (card : string) :
  choose_card hand state = Ok i → hand !! i = Some card → Py.index hand card = Ok i.
Proof.
  intros Hret Hcard. apply index_of_lookup_first; [assumption |].
  intros j Hj Hsame.
  assert (Hindex : ∀ c, Py.index hand c = Ok i → False).
  { intros c Hc. apply index_Ok_first in Hc as (Hi & _ & Hfirst).
    rewrite Hcard in Hi. injection Hi as <-. now apply (Hfirst j). }
  apply choose_card_cases in Hret
    as [-> | [(c & _ & H) | [(_ & H) | [(_ & H) | [(_ & H) | [(_ & H) | (c & _ & H)]]]]]];
    [lia | now apply (Hindex _ H)..].
Qed.

Lemma indices_from_head (l : list string) (x : string) (s a : nat) (rest : list nat) :
  Py.indices_from s l x = a :: rest → s ≤ a ∧ Py.index l x = Ok (a - s).
Proof.
  revert s. induction l as [|y l IH]; intros s; cbn; [discriminate |].
  destruct (String.eqb y x).
  - intros [= <- _]. split; [lia | now rewrite Nat.sub_diag].
  - intros H. apply IH in H as [Hle ->]. cbn. split; [lia |].
    f_equal. lia.
Qed.

(** The first index of a pair of [chopstick_combo] is [hand.index] of its card. *)
Lemma chopstick_combo_first_is_index (hand : list string) (state : GameState)
    (i j : nat) (card : string) :
  chopstick_combo hand state = Ok (Some (i, j)) → hand !! i = Some card →
  Py.index hand card = Ok i.
Proof.
  unfold chopstick_combo. intros Hret Hcard.
  assert (Hsame : ∀ (c : bool) x,
            (if c then first_two (Py.indices hand x) else None) = Some (i, j) →
            Py.index hand card = Ok i).
  { intros [] x H; [|discriminate].
    pose proof (first_two_indices _ _ _ _ H) as [Hi _].
    rewrite Hcard in Hi. injection Hi as ->.
    unfold Py.indices in H.
    destruct (Py.indices_from 0 hand x) as [|a [|b rest]] eqn:E; cbn in H; try discriminate.
    injection H as -> ->. apply indices_from_head in E as [_ E].
    now rewrite Nat.sub_0_r in E. }
  assert (Hpair : ∀ nigiri,
            Py.contains "Wasabi" hand && Py.contains nigiri hand = true →
            (i' ← Py.index hand "Wasabi"; j' ← Py.index hand nigiri; Ok (Some (i', j')))
              = Ok (Some (i, j)) →
            Py.index hand card = Ok i).
  { intros nigiri Hboth H.
    destruct (wasabi_pair_Ok hand nigiri Hboth) as (i' & j' & Heq & Hi & _).
    rewrite Heq in H. injection H as -> ->.
    pose proof (index_Ok_first _ _ _ Hi) as (Hlook & _).
    rewrite Hcard in Hlook. now injection Hlook as ->. }
  revert Hret.
  destruct (negb (has_chopsticks state)); [discriminate |].
  destruct (if occurances (my_tableau state) "Sashimi" mod 3 =? 1 then _ else None)
    as [[a b]|] eqn:Esashimi.
  { intros [= -> ->]. exact (Hsame _ _ Esashimi). }
  destruct (_ && Py.contains "Squid Nigiri" hand) eqn:Esquid; [now apply Hpair |].
  destruct (_ && Py.contains "Salmon Nigiri" hand) eqn:Esalmon; [now apply Hpair |].
  destruct (if occurances (my_tableau state) "Tempura" mod 2 =? 1 then _ else None)
    as [[a b]|] eqn:Etempura.
  { intros [= -> ->]. exact (Hsame _ _ Etempura). }
  destruct (_ && Py.contains "Egg Nigiri" hand) eqn:Eegg; [now apply Hpair | discriminate].
Qed.

(** The rotation buffer after [_record_play]. *)
Lemma record_play_all_hands (card : string) (state state' : GameState) :
  _record_play card state = Ok state' →
  all_hands state' =
    match all_hands state !! current_hand_ptr state with
    | Some (Some tracked) =>
        match Py.index tracked card with
        | Ok i => <[current_hand_ptr state := Some (delete i tracked)]> (all_hands state)
        | Raise _ => all_hands state
        end
    | _ => all_hands state
    end.
Proof.
  unfold _record_play, Py.getitem.
  destruct (Nat.ltb_spec (current_hand_ptr state) (length (all_hands state))) as [Hlt|Hge].
  - destruct (lookup_lt_is_Some_2 _ _ Hlt) as [[tracked|] ->]; cbn [mbind result_bind];
      [|now intros [= <-]].
    destruct (Py.contains card tracked) eqn:Hin.
    + apply index_contains in Hin as (i & Hi & _). rewrite Hi, (remove_at_index _ _ _ Hi).
      cbn [mbind result_bind]. now intros [= <-].
    + destruct (Py.index tracked card) as [i|e] eqn:Hi; [|now intros [= <-]].
      apply index_Ok_first in Hi as (Hi & _).
      assert (Py.contains card tracked = true)
        by (apply contains_elem_of, list_elem_of_lookup; eauto).
      congruence.
  - rewrite (lookup_ge_None_2 _ _ Hge). cbn [mbind result_bind]. now intros [= <-].
Qed.

(** The steps [play_turn] takes. *)
Lemma play_turn_steps (state state' : GameState) (cmds : list command) :
  play_turn state = Ok (state', cmds) →
  (hand state = [] ∧ state' = state ∧ cmds = [])
  ∨ (∃ i card,
       cmds = [PLAY i]
       ∧ choose_card (hand state) state = Ok i
       ∧ hand state !! i = Some card
       ∧ _record_play card state = Ok state')
  ∨ (∃ i j card1 card2 state1,
       cmds = [CHOPSTICKS i j]
       ∧ has_chopsticks state = true
       ∧ chopstick_combo (hand state) state = Ok (Some (i, j))
       ∧ hand state !! i = Some card1 ∧ hand state !! j = Some card2
       ∧ _record_play card1 state = Ok state1
       ∧ return_chopsticks card2 state1 = Ok state').
Proof.
  unfold play_turn. destruct (hand state) as [|c0 cards] eqn:Hhand.
  { intros [= <- <-]. left. auto. }
  rewrite <- Hhand.
  assert (Hsingle : ∀ (P : Prop),
    (card_index ← choose_card (hand state) state;
     card ← Py.getitem (hand state) card_index;
     state1 ← _record_play card state;
     Ok (state1, [PLAY card_index])) = Ok (state', cmds) →
    P ∨ (∃ i card,
           cmds = [PLAY i]
           ∧ choose_card (hand state) state = Ok i
           ∧ hand state !! i = Some card
           ∧ _record_play card state = Ok state')).
  { intros P.
    destruct (choose_card (hand state) state) as [i|e] eqn:Hchoice;
      cbn [mbind result_bind]; [|discriminate].
    unfold Py.getitem. destruct (hand state !! i) as [card|] eqn:Hcard;
      cbn [mbind result_bind]; [|discriminate].
    destruct (_record_play card state) as [state1|e] eqn:Hplay;
      cbn [mbind result_bind]; [|discriminate].
    intros [= <- <-]. right. exists i, card. auto. }
  destruct (has_chopsticks state) eqn:Hchop.
  2: { intros H. right. destruct (Hsingle False H) as [[] | H']. now left. }
  rewrite choose_chopsticks_combo.
  destruct (chopstick_combo (hand state) state) as [[[i j]|]|e] eqn:Hcombo;
    cbn [mbind result_bind]; [| | discriminate].
  2: { intros H. right. destruct (Hsingle False H) as [[] | H']. now left. }
  unfold Py.getitem.
  destruct (hand state !! i) as [card1|] eqn:Hc1; cbn [mbind result_bind]; [|discriminate].
  destruct (_record_play card1 state) as [state1|e] eqn:Hplay;
    cbn [mbind result_bind]; [|discriminate].
  destruct (hand state !! j) as [card2|] eqn:Hc2; cbn [mbind result_bind]; [|discriminate].
  destruct (return_chopsticks card2 state1) as [state2|e] eqn:Hret;
    cbn [mbind result_bind]; [|discriminate].
  intros [= <- <-]. right; right. exists i, j, card1, card2, state1. auto 10.
Qed.

Lemma return_chopsticks_all_hands (card : string) (state state' : GameState) :
  return_chopsticks card state = Ok state' →
  all_hands state' = all_hands state ∧ current_hand_ptr state' = current_hand_ptr state.
Proof.
  unfold return_chopsticks.
  destruct (if Py.contains "Chopsticks" (my_tableau state ++ [card]) then _ else _);
    cbn [mbind result_bind]; [|discriminate].
  now intros [= <-].
Qed.

(** X8: how a turn is tracked in the rotation buffer.  After a HAND is
    observed and the turn played, no slot other than the one at the cursor has
    changed.  If the cursor is past the buffer nothing is tracked.  Otherwise
    the slot at the cursor holds the received hand without the card at the
    index played; in a two-card play only the card at the first index is
    removed, the second stays in the tracked copy. *)
Theorem play_turn_tracks_hand (parsed : list string) (state state' : GameState)
    (cmds : list command) :
  play_turn (observe_hand parsed state) = Ok (state', cmds) →
  let ptr := current_hand_ptr state in
  (∀ k, k ≠ ptr → all_hands state' !! k = all_hands state !! k)
  ∧ (length (all_hands state) ≤ ptr → all_hands state' = all_hands state)
  ∧ (ptr < length (all_hands state) →
     match cmds with
     | [PLAY i] | [CHOPSTICKS i _] => all_hands state' !! ptr = Some (Some (delete i parsed))
     | _ => all_hands state' !! ptr = Some (Some parsed)
     end).
Proof.
  intros Hturn ptr.
  set (seen := observe_hand parsed state) in *.
  assert (Hseen_ptr : current_hand_ptr seen = ptr) by reflexivity.
  assert (Hseen_hand : hand seen = parsed) by reflexivity.
  assert (Hseen_slots : all_hands seen =
            if ptr <? length (all_hands state)
            then <[ptr := Some parsed]> (all_hands state) else all_hands state)
    by reflexivity.
  assert (Hrecord : ∀ i card state1,
            hand seen !! i = Some card → Py.index (hand seen) card = Ok i →
            _record_play card seen = Ok state1 →
            (∀ k, k ≠ ptr → all_hands state1 !! k = all_hands state !! k)
            ∧ (length (all_hands state) ≤ ptr → all_hands state1 = all_hands state)
            ∧ (ptr < length (all_hands state) →
               all_hands state1 !! ptr = Some (Some (delete i parsed)))).
  { intros i card state1 Hcard Hindex Hplay.
    apply record_play_all_hands in Hplay. rewrite Hseen_ptr, Hseen_slots in Hplay.
    destruct (Nat.ltb_spec ptr (length (all_hands state))) as [Hlt|Hge].
    - rewrite list_lookup_insert_eq in Hplay by assumption.
      rewrite Hseen_hand in Hindex. rewrite Hindex, list_insert_insert_eq in Hplay.
      rewrite Hplay. repeat split.
      + intros k Hk. now rewrite list_lookup_insert_ne.
      + lia.
      + intros _. now rewrite list_lookup_insert_eq.
    - rewrite (lookup_ge_None_2 _ _ Hge) in Hplay. rewrite Hplay.
      repeat split; [lia..]. }
  apply play_turn_steps in Hturn
    as [(Hempty & -> & ->) | [(i & card & -> & Hchoice & Hcard & Hplay)
        | (i & j & card1 & card2 & state1 & -> & _ & Hcombo & Hc1 & _ & Hplay & Hret)]].
  - rewrite Hseen_slots.
    destruct (Nat.ltb_spec ptr (length (all_hands state))) as [Hlt|Hge]; repeat split.
    + intros k Hk. now rewrite list_lookup_insert_ne.
    + lia.
    + intros _. now rewrite list_lookup_insert_eq.
    + lia.
  - apply (Hrecord i card); [assumption | | assumption].
    now apply (choose_card_is_index _ seen).
  - apply return_chopsticks_all_hands in Hret as [-> _].
    apply (Hrecord i card1); [assumption | | assumption].
    now apply (chopstick_combo_first_is_index _ seen i j).
Qed.

Lemma play_turn_tracks_hand_witness :
  ∃ state', play_turn (observe_hand ["Squid Nigiri"; "Tempura"; "Wasabi"] chopsticks_state)
            = Ok (state', [CHOPSTICKS 2 0])
    ∧ all_hands state' !! 1 = Some (Some ["Squid Nigiri"; "Tempura"]).
Proof.
  eexists. split; [reflexivity |].
  eapply (play_turn_tracks_hand ["Squid Nigiri"; "Tempura"; "Wasabi"] chopsticks_state
            _ [CHOPSTICKS 2 0]); [reflexivity | cbn; lia].
Defined.

(** ** Slots past the cursor *)

Lemma unseen_ahead_replicate (state : GameState) (n : nat) :
  all_hands state = replicate n None → unseen_ahead state.
Proof.
  intros Hslots i next_h _ Hlook. rewrite Hslots in Hlook.
  apply lookup_replicate in Hlook as [[=] _].
Qed.

Lemma unseen_ahead_record_play (card : string) (state state' : GameState) :
  unseen_ahead state → _record_play card state = Ok state' → unseen_ahead state'.
Proof.
  intros Hinv Hplay i next_h Hi.
  pose proof (record_play_fields _ _ _ Hplay) as (_ & _ & _ & Hptr & _).
  apply record_play_all_hands in Hplay. rewrite Hptr in Hi. rewrite Hplay.
  destruct (all_hands state !! current_hand_ptr state) as [[tracked|]|]; [| now apply Hinv..].
  destruct (Py.index tracked card); [| now apply Hinv].
  rewrite list_lookup_insert_ne by lia. now apply Hinv.
Qed.

Lemma unseen_ahead_play_turn (state state' : GameState) (cmds : list command) :
  unseen_ahead state → play_turn state = Ok (state', cmds) → unseen_ahead state'.
Proof.
  intros Hinv Hturn.
  apply play_turn_steps in Hturn
    as [(_ & -> & _) | [(i & card & _ & _ & _ & Hplay)
        | (i & j & card1 & card2 & state1 & _ & _ & _ & _ & _ & Hplay & Hret)]].
  - assumption.
  - now apply (unseen_ahead_record_play card state).
  - apply return_chopsticks_all_hands in Hret as [Hslots Hptr].
    pose proof (unseen_ahead_record_play _ _ _ Hinv Hplay) as Hinv1.
    intros k next_h Hk. rewrite Hslots. apply Hinv1. now rewrite <- Hptr.
Qed.

Lemma unseen_ahead_observe_hand (parsed : list string) (state : GameState) :
  unseen_ahead state → unseen_ahead (observe_hand parsed state).
Proof.
  intros Hinv i next_h Hi. unfold observe_hand in Hi |- *.
  cbn [all_hands current_hand_ptr] in Hi |- *.
  destruct (current_hand_ptr state <? length (all_hands state)); [| now apply Hinv].
  rewrite list_lookup_insert_ne by lia. now apply Hinv.
Qed.

Lemma unseen_ahead_handle_played (reveals : gmap string (list string)) (state : GameState) :
  unseen_ahead state → unseen_ahead (handle_played reveals state).
Proof. intros Hinv i next_h Hi. cbn in Hi |- *. apply Hinv. lia. Qed.

(** X9: the slots of the rotation buffer past the cursor never hold a hand.
    This is so in a state just created by a join, after GAME_START and after
    ROUND_START whatever the state was, and every step of the game loop keeps
    it: observing a hand, playing the turn, handling a reveal; so the state
    in which [_play_game] returns has it too. *)
Theorem unseen_ahead_invariant (codec : Codec) :
  (∀ gid pid token name, unseen_ahead (new_GameState gid pid token name))
  ∧ (∀ count state, unseen_ahead (handle_game_start count state))
  ∧ (∀ round_number state, unseen_ahead (handle_round_start round_number state))
  ∧ (∀ parsed state state' cmds,
       unseen_ahead state →
       play_turn (observe_hand parsed state) = Ok (state', cmds) →
       unseen_ahead state')
  ∧ (∀ reveals state, unseen_ahead state → unseen_ahead (handle_played reveals state))
  ∧ (∀ inbox state sent out,
       unseen_ahead state →
       _play_game codec inbox state sent = Ok out →
       unseen_ahead (final_state out)).
Proof.
  assert (Hstart : ∀ count state, unseen_ahead (handle_game_start count state)).
  { intros count state. now apply (unseen_ahead_replicate _ (Z.to_nat count)). }
  assert (Hround : ∀ round_number state, unseen_ahead (handle_round_start round_number state)).
  { intros round_number state.
    now apply (unseen_ahead_replicate _ (Z.to_nat (Z.max (player_count state) 1))). }
  assert (Hturn : ∀ parsed state state' cmds,
            unseen_ahead state →
            play_turn (observe_hand parsed state) = Ok (state', cmds) →
            unseen_ahead state').
  { intros parsed state state' cmds Hinv.
    apply unseen_ahead_play_turn. now apply unseen_ahead_observe_hand. }
  repeat split; try assumption.
  - intros gid pid token name i next_h _. cbn. now rewrite lookup_nil.
  - apply unseen_ahead_handle_played.
  - intros inbox. induction inbox as [|msg inbox IH]; intros state sent out Hinv;
      cbn [_play_game]; [discriminate |].
    repeat match goal with
           | |- (if ?b then _ else _) = _ → _ => destruct b
           end;
      try (intros [= <-]; assumption); try (now apply IH).
    + unfold handle_game_start_msg.
      destruct (2 <=? length (codec_split codec msg)); [|now apply IH].
      destruct (Py.getitem _ 1) as [field|]; cbn [mbind result_bind]; [|discriminate].
      destruct (codec_int codec field) as [count|]; cbn [mbind result_bind]; [|discriminate].
      apply IH, Hstart.
    + unfold handle_round_start_msg.
      destruct (Py.getitem _ 1) as [field|]; cbn [mbind result_bind]; [|discriminate].
      destruct (codec_int codec field) as [n|]; cbn [mbind result_bind]; [|discriminate].
      apply IH, Hround.
    + apply IH. now apply unseen_ahead_handle_played.
    + destruct (play_turn _) as [[state' cmds]|] eqn:Hplay; [|discriminate].
      apply IH. now apply (Hturn _ _ _ _ Hinv Hplay).
Qed.

Lemma unseen_ahead_invariant_witness :
  unseen_ahead interrupted_state.
Proof.
  destruct (unseen_ahead_invariant example_codec) as (Hnew & _ & _ & _ & _ & Hgame).
  apply (Hgame interrupted_match (new_GameState "m7" 0 "tok9" "Alice") [READY]
           {| returned := Some "TOURNAMENT_COMPLETE t1 Bob"; final_state := interrupted_state;
              unread := ["PLAYED Alice:Tempura; Bob:Sashimi"; "GAME_END {} []"; "OK"];
              outbox := [READY; PLAY 1] |}).
  - apply Hnew.
  - vm_compute. reflexivity.
Defined.

(** X10: in a state where no slot past the cursor holds a hand, the next hand
    is unknown, the chopsticks lookahead answers no for every hand, and
    [choose_card] returns the position of a Chopsticks card only as its
    fallback, position 0. *)
Theorem no_lookahead_when_unseen (state : GameState) :
  unseen_ahead state →
  next_hand state = None
  ∧ (∀ hand, should_grab_chopsticks hand state = false)
  ∧ (∀ hand i, choose_card hand state = Ok i → hand !! i = Some "Chopsticks" → i = 0).
Proof.
  intros Hinv.
  assert (Hnext : next_hand state = None).
  { destruct (next_hand state) as [next_h|] eqn:E; [|reflexivity].
    apply next_hand_Some in E. now apply Hinv in E; [|lia]. }
  assert (Hgrab : ∀ hand, should_grab_chopsticks hand state = false).
  { intros hand. unfold should_grab_chopsticks. rewrite Hnext.
    destruct (negb _); [reflexivity |]. now destruct (has_chopsticks state). }
  repeat split; [assumption.. |].
  intros hand i Hret Hcard.
  destruct (Nat.eq_dec i 0) as [|Hi]; [assumption | exfalso].
  destruct (choose_card_selected_by hand state i Hret Hi) as (c & Hc & Hrule).
  rewrite Hcard in Hc. injection Hc as <-.
  destruct Hrule as [H | [[_ Hg] | [[H _] | [[H _] | [H _]]]]]; try discriminate H.
  now rewrite Hgrab in Hg.
Qed.

Lemma no_lookahead_when_unseen_witness :
  next_hand first_hand_state = None.
Proof.
  apply (no_lookahead_when_unseen first_hand_state).
  intros i next_h Hi. destruct i as [|[|[|i]]]; cbn; (lia || discriminate).
Defined.

(** ** Reveals, one after another *)

(** X11: after a sequence of reveals a tracked tableau is what it was (empty
    if the player was not tracked) followed by the cards of every reveal that
    names the player, in the order received; a player tracked before is
    never dropped, and one neither tracked nor named stays untracked.  The
    turn counter and the cursor have advanced by the number of reveals. *)
Theorem handle_played_sequence (reveals : list (gmap string (list string)))
    (state : GameState) :
  let state' := foldl (fun s r => handle_played r s) state reveals in
  (∀ player,
     all_tableaux state' !! player =
       match all_tableaux state !! player,
             omap (fun r : gmap string (list string) => r !! player) reveals with
       | None, [] => None
       | tracked, revealed => Some (default [] tracked ++ concat revealed)
       end)
  ∧ turn state' = (turn state + Z.of_nat (length reveals))%Z
  ∧ current_hand_ptr state' = current_hand_ptr state + length reveals.
Proof.
  revert state. induction reveals as [|r reveals IH]; intros state; cbn [foldl].
  - cbn. repeat split; [|lia..].
    intros player. destruct (all_tableaux state !! player); cbn; [|reflexivity].
    now rewrite app_nil_r.
  - destruct (IH (handle_played r state)) as (Htabs & Hturn & Hptr).
    cbn zeta in *. rewrite Hturn, Hptr. cbn [turn current_hand_ptr handle_played length].
    repeat split; [|lia..].
    intros player. rewrite Htabs. cbn [all_tableaux handle_played omap list_omap].
    rewrite extend_tableaux_lookup.
    destruct (r !! player) as [cards|]; cbn;
      destruct (all_tableaux state !! player); destruct (omap _ reveals); cbn;
      rewrite <- ?app_assoc, ?app_nil_r; reflexivity.
Qed.

(** [play_turn] leaves the tracked tableaux and the player's name alone. *)
Lemma play_turn_frame (state state' : GameState) (cmds : list command) :
  play_turn state = Ok (state', cmds) →
  all_tableaux state' = all_tableaux state ∧ player_name state' = player_name state.
Proof.
  intros Hturn.
  apply play_turn_steps in Hturn
    as [(_ & -> & _) | [(i & card & _ & _ & _ & Hplay)
        | (i & j & card1 & card2 & state1 & _ & _ & _ & _ & _ & Hplay & Hret)]].
  - auto.
  - apply record_play_fields in Hplay. tauto.
  - apply record_play_fields in Hplay as (_ & _ & _ & _ & _ & <- & _ & _ & _ & _ & <- & _).
    unfold return_chopsticks in Hret.
    destruct (if Py.contains "Chopsticks" (my_tableau state1 ++ [card2]) then _ else _);
      cbn [mbind result_bind] in Hret; [|discriminate].
    now injection Hret as <-.
Qed.

(** X12: a reveal re-synchronises the own tableau.  After [handle_played],
    if a tableau is tracked under the bot's own name the own tableau is that
    tableau, otherwise it is unchanged.  So what [play_turn] did to the own
    tableau is overwritten: when the tableau tracked under the own name holds
    Chopsticks, [has_chopsticks] is true again after the next reveal, also
    after a two-card play that took the Chopsticks off the own tableau. *)
Theorem handle_played_resyncs (reveals : gmap string (list string)) (state : GameState) :
  let state' := handle_played reveals state in
  my_tableau state' = default (my_tableau state) (all_tableaux state' !! player_name state)
  ∧ (∀ played cmds tracked,
       play_turn state = Ok (played, cmds) →
       all_tableaux state !! player_name state = Some tracked →
       "Chopsticks" ∈ tracked →
       has_chopsticks (handle_played reveals played) = true).
Proof.
  cbn zeta. split.
  - cbn [handle_played my_tableau all_tableaux].
    now destruct (extend_tableaux reveals (all_tableaux state) !! player_name state).
  - intros played cmds tracked Hturn Htracked Hchop.
    apply play_turn_frame in Hturn as [Hall Hname].
    unfold has_chopsticks. cbn [handle_played my_tableau].
    rewrite extend_tableaux_lookup, Hall, Hname, Htracked.
    apply contains_elem_of in Hchop.
    destruct (reveals !! player_name state); cbn; [|assumption].
    now rewrite contains_app, Hchop.
Qed.

Lemma handle_played_resyncs_witness :
  ∃ played, play_turn chopsticks_state = Ok (played, [CHOPSTICKS 2 0])
    ∧ has_chopsticks played = false
    ∧ has_chopsticks
        (handle_played {[ "Alice" := ["Wasabi"; "Squid Nigiri"] ]} played) = true.
Proof.
  eexists. split; [reflexivity |]. split; [reflexivity |].
  eapply (proj2 (handle_played_resyncs {[ "Alice" := ["Wasabi"; "Squid Nigiri"] ]}
                   chopsticks_state)).
  - reflexivity.
  - reflexivity.
  - apply contains_elem_of. reflexivity.
Defined.

(** ** The rotation buffer over a round *)

Lemma run_step_buffer (step : round_step) (state state' : GameState) :
  run_step step state = Ok state' →
  length (all_hands state') = length (all_hands state)
  ∧ current_hand_ptr state' = current_hand_ptr state + (if is_reveal step then 1 else 0)
  ∧ turn state' = (turn state + (if is_reveal step then 1 else 0))%Z.
Proof.
  destruct step as [parsed | reveals]; cbn [run_step is_reveal].
  - destruct (play_turn (observe_hand parsed state)) as [[played cmds]|] eqn:Hturn;
      [|discriminate].
    intros [= <-].
    assert (Hlen : length (all_hands (observe_hand parsed state)) = length (all_hands state)).
    { unfold observe_hand. cbn [all_hands].
      destruct (_ <? _); [apply length_insert | reflexivity]. }
    apply play_turn_steps in Hturn
      as [(_ & -> & _) | [(i & card & _ & _ & _ & Hplay)
          | (i & j & card1 & card2 & state1 & _ & _ & _ & _ & _ & Hplay & Hret)]].
    + split; [exact Hlen |]. cbn. split; lia.
    + apply record_play_fields in Hplay
        as (_ & _ & _ & Hptr & Hl & _ & _ & _ & Ht & _).
      rewrite Hptr, Hl, Ht. split; [exact Hlen |]. cbn. split; lia.
    + apply record_play_fields in Hplay
        as (_ & _ & _ & Hptr & Hl & _ & _ & _ & Ht & _).
      pose proof (return_chopsticks_all_hands _ _ _ Hret) as [Hslots Hptr'].
      assert (Hturn' : turn played = turn state1).
      { unfold return_chopsticks in Hret.
        destruct (if Py.contains "Chopsticks" (my_tableau state1 ++ [card2]) then _ else _);
          cbn [mbind result_bind] in Hret; [|discriminate].
        now injection Hret as <-. }
      rewrite Hslots, Hptr', Hturn', Hptr, Hl, Ht. split; [exact Hlen |]. cbn. split; lia.
  - intros [= <-]. cbn. repeat split; lia.
Qed.

Lemma run_steps_total (steps : list round_step) (state : GameState) :
  ∃ state', run_steps steps state = Ok state'.
Proof.
  revert state. induction steps as [|step steps IH]; intros state; cbn [run_steps]; [eauto |].
  destruct step as [parsed | reveals]; cbn [run_step]; [|apply IH].
  destruct (play_turn_total (observe_hand parsed state)) as (played & cmds & -> & _).
  apply IH.
Qed.

(** X13: how far into a round hands are recorded.  From a ROUND_START on,
    through any sequence of HAND and PLAYED lines (none of which raises), the
    rotation buffer keeps its [max(player_count, 1)] slots, and the cursor and
    the turn counter count the reveals.  So a hand is recorded on arrival only
    while fewer reveals than slots have been handled in the round; from then
    on the buffer no longer changes. *)
Theorem round_buffer_window (round_number : Z) (state : GameState)
    (steps : list round_step) :
  let slots := Z.to_nat (Z.max (player_count state) 1) in
  let reveals := length (List.filter is_reveal steps) in
  ∃ state',
    run_steps steps (handle_round_start round_number state) = Ok state'
    ∧ length (all_hands state') = slots
    ∧ current_hand_ptr state' = reveals
    ∧ turn state' = (1 + Z.of_nat reveals)%Z
    ∧ (∀ parsed,
         (reveals < slots →
          all_hands (observe_hand parsed state') !! reveals = Some (Some parsed))
         ∧ (slots ≤ reveals →
            ∀ played cmds,
              play_turn (observe_hand parsed state') = Ok (played, cmds) →
              all_hands played = all_hands state')).
Proof.
  intros slots reveals.
  destruct (run_steps_total steps (handle_round_start round_number state)) as [state' Hrun].
  exists state'. split; [exact Hrun |].
  assert (Hshape : length (all_hands state') = slots
                   ∧ current_hand_ptr state' = reveals
                   ∧ turn state' = (1 + Z.of_nat reveals)%Z).
  { subst reveals.
    assert (Hgen : ∀ start,
              run_steps steps start = Ok state' →
              length (all_hands state') = length (all_hands start)
              ∧ current_hand_ptr state'
                = current_hand_ptr start + length (List.filter is_reveal steps)
              ∧ turn state'
                = (turn start + Z.of_nat (length (List.filter is_reveal steps)))%Z).
    { clear Hrun. induction steps as [|step steps IH]; intros start; cbn [run_steps].
      - intros [= <-]. cbn. repeat split; lia.
      - destruct (run_step step start) as [next|] eqn:Hstep; [|discriminate].
        intros Hrest. apply IH in Hrest as (Hl & Hp & Ht).
        apply run_step_buffer in Hstep as (Hl' & Hp' & Ht').
        rewrite Hl, Hp, Ht, Hl', Hp', Ht'. cbn [List.filter].
        destruct (is_reveal step); cbn [length]; repeat split; lia. }
    destruct (Hgen _ Hrun) as (Hl & Hp & Ht).
    rewrite Hl, Hp, Ht. cbn. unfold Py.repeat_list. rewrite length_replicate.
    repeat split; lia. }
  destruct Hshape as (Hlen & Hptr & Hturn).
  repeat split; try assumption.
  - intros Hlt. unfold observe_hand. cbn [all_hands]. rewrite Hptr, Hlen.
    destruct (Nat.ltb_spec reveals slots); [|lia].
    apply list_lookup_insert_eq. lia.
  - intros Hge played cmds Hplay.
    assert (Hsame : all_hands (observe_hand parsed state') = all_hands state').
    { unfold observe_hand. cbn [all_hands]. rewrite Hptr, Hlen.
      destruct (Nat.ltb_spec reveals slots); [lia | reflexivity]. }
    rewrite <- Hsame.
    assert (Hout : all_hands (observe_hand parsed state')
                     !! current_hand_ptr (observe_hand parsed state') = None).
    { apply lookup_ge_None_2. rewrite Hsame. cbn. lia. }
    apply play_turn_steps in Hplay
      as [(_ & -> & _) | [(i & card & _ & _ & _ & Hrec)
          | (i & j & card1 & card2 & state1 & _ & _ & _ & _ & _ & Hrec & Hret)]].
    + reflexivity.
    + apply record_play_all_hands in Hrec. now rewrite Hout in Hrec.
    + apply record_play_all_hands in Hrec. rewrite Hout in Hrec.
      apply return_chopsticks_all_hands in Hret as [-> _]. assumption.
Qed.

Lemma round_buffer_window_witness :
  ∃ state',
    run_steps [StepHand ["Tempura"; "Sashimi"]; StepPlayed ∅; StepHand ["Pudding"];
               StepPlayed ∅]
      (handle_round_start 1 lookahead_state) = Ok state'
    ∧ ∀ played cmds,
        play_turn (observe_hand ["Dumpling"] state') = Ok (played, cmds) →
        all_hands played = all_hands state'.
Proof.
  destruct (round_buffer_window 1 lookahead_state
              [StepHand ["Tempura"; "Sashimi"]; StepPlayed ∅; StepHand ["Pudding"];
               StepPlayed ∅])
    as (state' & Hrun & _ & _ & _ & Hwindow).
  exists state'. split; [exact Hrun |].
  apply (Hwindow ["Dumpling"]). cbn. lia.
Defined.

(** ** Waiting for an answer *)

(** X14: [recv_until] returns the first non-empty message that satisfies the
    predicate, with the messages after it, dropping everything before; it
    raises, and then ConnectionError, exactly when no message to come is
    non-empty and satisfies the predicate. *)
Theorem recv_until_first (predicate : string → bool) (inbox : list string) :
  let rejected m := m = EmptyString ∨ predicate m = false in
  (∀ msg rest,
     recv_until predicate inbox = Ok (msg, rest) ↔
     ∃ skipped, inbox = skipped ++ msg :: rest
                ∧ Forall rejected skipped
                ∧ msg ≠ EmptyString ∧ predicate msg = true)
  ∧ (∀ e, recv_until predicate inbox = Raise e ↔ e = ConnectionError ∧ Forall rejected inbox).
Proof.
  intros rejected.
  assert (Hstep : ∀ m, negb (String.eqb m EmptyString) && predicate m = false ↔ rejected m).
  { intros m. subst rejected. cbv beta.
    destruct (String.eqb_spec m EmptyString); cbn; [|destruct (predicate m)]; intuition. }
  induction inbox as [|m inbox [IHok IHraise]]; cbn [recv_until].
  - split.
    + intros msg rest. split; [discriminate |].
      intros ([|? ?] & [=] & _).
    + intros e. split; [intros [= <-]; split; [reflexivity | constructor] |].
      now intros [-> _].
  - destruct (negb (String.eqb m EmptyString) && predicate m) eqn:Em.
    + assert (Hacc : ¬ rejected m) by (rewrite <- Hstep; congruence).
      apply andb_prop in Em as [Hne Hp]. apply negb_true_iff, String.eqb_neq in Hne.
      split.
      * intros msg rest. split.
        -- intros [= <- <-]. exists []. repeat split; [constructor | assumption..].
        -- intros ([|m' skipped] & Heq & Hskipped & _); cbn in Heq.
           ++ now injection Heq as <- <-.
           ++ injection Heq as <- _. apply Forall_cons in Hskipped as [Hrej _].
              contradiction.
      * intros e. split; [discriminate |].
        intros [_ Hall]. apply Forall_cons in Hall as [Hrej _]. contradiction.
    + apply Hstep in Em. split.
      * intros msg rest. rewrite IHok. split.
        -- intros (skipped & -> & Hskipped & Hmsg). exists (m :: skipped).
           repeat split; try tauto. now constructor.
        -- intros ([|m' skipped] & Heq & Hskipped & Hne & Hp); cbn in Heq.
           ++ injection Heq as -> ->. destruct Em as [? | Hrej]; congruence.
           ++ injection Heq as <- ->. apply Forall_cons in Hskipped as [_ Hskipped].
              exists skipped. auto.
      * intros e. rewrite IHraise. split; intros [-> Hall]; (split; [reflexivity |]).
        -- now constructor.
        -- now apply Forall_cons in Hall as [_ Hall].
Qed.

(** ** How the game loop ends *)

Lemma play_turn_cmds (state state' : GameState) (cmds : list command) :
  play_turn state = Ok (state', cmds) →
  forallb is_play cmds = true ∧ length cmds ≤ 1 ∧ identity state' = identity state.
Proof.
  intros Hturn.
  apply play_turn_steps in Hturn
    as [(_ & -> & ->) | [(i & card & -> & _ & _ & Hplay)
        | (i & j & card1 & card2 & state1 & -> & _ & _ & _ & _ & Hplay & Hret)]].
  - cbn. auto.
  - apply record_play_fields in Hplay
      as (_ & _ & _ & _ & _ & _ & _ & _ & _ & _ & Hn & Hg & Hp & Ht).
    unfold identity. rewrite Hn, Hg, Hp, Ht. cbn. auto.
  - apply record_play_fields in Hplay
      as (_ & _ & _ & _ & _ & _ & _ & _ & _ & _ & Hn & Hg & Hp & Ht).
    unfold return_chopsticks in Hret.
    destruct (if Py.contains "Chopsticks" (my_tableau state1 ++ [card2]) then _ else _);
      cbn [mbind result_bind] in Hret; [|discriminate].
    injection Hret as <-. unfold identity. cbn. rewrite Hn, Hg, Hp, Ht. auto.
Qed.

Lemma ends_game_nonempty (msg : string) : ends_game msg = true → msg ≠ EmptyString.
Proof. intros H ->. discriminate H. Qed.

(** X15: how [_play_game] returns.  It has read the messages up to and
    including the first non-empty one that starts with TOURNAMENT_MATCH,
    TOURNAMENT_COMPLETE or GAME_END, and left the rest unread; it returns that
    message if it is a tournament message and [None] if it is GAME_END.  What
    it sent is play commands only, at most one per HAND line read, and the
    identity of the bot (game id, player id, rejoin token, name) is the one it
    started with. *)
Theorem play_game_exit (codec : Codec) (inbox : list string) (state : GameState)
    (sent : list command) (out : game_exit) :
  _play_game codec inbox state sent = Ok out →
  ∃ read last plays,
    inbox = read ++ last :: unread out
    ∧ Forall (fun m => m = EmptyString ∨ ends_game m = false) read
    ∧ last ≠ EmptyString ∧ ends_game last = true
    ∧ returned out
      = (if startswith last "TOURNAMENT_MATCH" || startswith last "TOURNAMENT_COMPLETE"
         then Some last else None)
    ∧ outbox out = sent ++ plays
    ∧ forallb is_play plays = true
    ∧ length plays ≤ length (List.filter (fun m => startswith m "HAND") read)
    ∧ identity (final_state out) = identity state.
Proof.
  pose (exit_shape := fun (inbox : list string) (state : GameState) (sent : list command) =>
    ∃ read last plays,
      inbox = read ++ last :: unread out
      ∧ Forall (fun m => m = EmptyString ∨ ends_game m = false) read
      ∧ last ≠ EmptyString ∧ ends_game last = true
      ∧ returned out
        = (if startswith last "TOURNAMENT_MATCH" || startswith last "TOURNAMENT_COMPLETE"
           then Some last else None)
      ∧ outbox out = sent ++ plays
      ∧ forallb is_play plays = true
      ∧ length plays ≤ length (List.filter (fun m => startswith m "HAND") read)
      ∧ identity (final_state out) = identity state).
  change (_play_game codec inbox state sent = Ok out → exit_shape inbox state sent).
  revert state sent.
  induction inbox as [|msg inbox IH]; intros state sent; cbn [_play_game]; [discriminate |].
  assert (Hstep : ∀ state' cmds,
            (msg = EmptyString ∨ ends_game msg = false) →
            forallb is_play cmds = true →
            length cmds ≤ (if startswith msg "HAND" then 1 else 0) →
            identity state' = identity state →
            _play_game codec inbox state' (sent ++ cmds) = Ok out →
            exit_shape (msg :: inbox) state sent).
  { intros state' cmds Hmsg Hcmds Hlen Hid Hrun.
    apply IH in Hrun
      as (read & last & plays & -> & Hread & Hne & Hend & Hret & Hout & Hplays & Hcount & Hid').
    exists (msg :: read), last, (cmds ++ plays).
    rewrite Hout, Hid', Hid, forallb_app, Hcmds, Hplays, length_app, app_assoc.
    repeat split; try assumption; [now constructor |].
    cbn [List.filter]. destruct (startswith msg "HAND"); cbn [length]; lia. }
  assert (Hquiet : ∀ state',
            (msg = EmptyString ∨ ends_game msg = false) →
            identity state' = identity state →
            _play_game codec inbox state' sent = Ok out →
            exit_shape (msg :: inbox) state sent).
  { intros state' Hmsg Hid Hrun.
    apply (Hstep state' []); try assumption; [reflexivity | cbn; lia |].
    now rewrite app_nil_r. }
  destruct (String.eqb_spec msg EmptyString) as [Hempty|Hne].
  { apply Hquiet; auto. }
  unfold ends_game in *.
  destruct (startswith msg "TOURNAMENT_MATCH" || startswith msg "TOURNAMENT_COMPLETE")
    eqn:Htm.
  { intros [= <-]. exists [], msg, []. cbn. rewrite Htm, app_nil_r. repeat split; auto. }
  destruct (startswith msg "GAME_END") eqn:Hge.
  { intros [= <-]. exists [], msg, []. cbn. rewrite Htm, Hge, app_nil_r.
    repeat split; auto. }
  assert (Hmsg : msg = EmptyString ∨ false || false = false) by now right.
  destruct (startswith msg "GAME_START").
  { unfold handle_game_start_msg.
    destruct (2 <=? length (codec_split codec msg)); [|now apply Hquiet].
    destruct (Py.getitem _ 1) as [field|]; cbn [mbind result_bind]; [|discriminate].
    destruct (codec_int codec field) as [count|]; cbn [mbind result_bind]; [|discriminate].
    now apply Hquiet. }
  destruct (startswith msg "ROUND_START").
  { unfold handle_round_start_msg.
    destruct (Py.getitem _ 1) as [field|]; cbn [mbind result_bind]; [|discriminate].
    destruct (codec_int codec field) as [n|]; cbn [mbind result_bind]; [|discriminate].
    now apply Hquiet. }
  destruct (startswith msg "PLAYED"); [now apply Hquiet |].
  destruct (startswith msg "ROUND_END"); [now apply Hquiet |].
  destruct (startswith msg "HAND") eqn:Hhand; [|now apply Hquiet].
  destruct (play_turn _) as [[state' cmds]|] eqn:Hplay; [|discriminate].
  apply play_turn_cmds in Hplay as (Hcmds & Hlen & Hid).
  apply (Hstep state' cmds); assumption.
Qed.

Lemma play_game_exit_witness :
  ∃ read last plays,
    interrupted_match = read ++ last :: ["PLAYED Alice:Tempura; Bob:Sashimi"; "GAME_END {} []";
                                         "OK"]
    ∧ last = "TOURNAMENT_COMPLETE t1 Bob"
    ∧ [READY; PLAY 1] = [READY] ++ plays
    ∧ forallb is_play plays = true.
Proof.
  destruct (play_game_exit example_codec interrupted_match
              (new_GameState "m7" 0 "tok9" "Alice") [READY]
              {| returned := Some "TOURNAMENT_COMPLETE t1 Bob";
                 final_state := interrupted_state;
                 unread := ["PLAYED Alice:Tempura; Bob:Sashimi"; "GAME_END {} []"; "OK"];
                 outbox := [READY; PLAY 1] |})
    as (read & last & plays & Heq & _ & _ & Hend & Hret & Hout & Hplays & _).
  { vm_compute. reflexivity. }
  exists read, last, plays. cbn [unread returned outbox] in *.
  repeat split; try assumption.
  destruct (startswith last "TOURNAMENT_MATCH" || startswith last "TOURNAMENT_COMPLETE");
    [now injection Hret as -> | discriminate].
Defined.

Lemma play_game_outbox (codec : Codec) (inbox : list string) (state : GameState)
    (sent : list command) (out : game_exit) :
  _play_game codec inbox state sent = Ok out →
  ∃ plays, outbox out = sent ++ plays ∧ forallb is_play plays = true.
Proof.
  revert state sent.
  induction inbox as [|msg inbox IH]; intros state sent; cbn [_play_game]; [discriminate |].
  assert (Hdone : ∃ plays, sent = sent ++ plays ∧ forallb is_play plays = true).
  { exists []. now rewrite app_nil_r. }
  destruct (String.eqb msg EmptyString); [now apply IH |].
  destruct (startswith msg "TOURNAMENT_MATCH" || startswith msg "TOURNAMENT_COMPLETE");
    [intros [= <-]; exact Hdone |].
  destruct (startswith msg "GAME_END"); [intros [= <-]; exact Hdone |].
  destruct (startswith msg "GAME_START").
  { destruct (handle_game_start_msg codec msg state); [now apply IH | discriminate]. }
  destruct (startswith msg "ROUND_START").
  { destruct (handle_round_start_msg codec msg state); [now apply IH | discriminate]. }
  destruct (startswith msg "PLAYED"); [now apply IH |].
  destruct (startswith msg "ROUND_END"); [now apply IH |].
  destruct (startswith msg "HAND"); [|now apply IH].
  destruct (play_turn _) as [[state' cmds]|] eqn:Hplay; [|discriminate].
  intros Hrun. apply IH in Hrun as (plays & -> & Hplays).
  apply play_turn_cmds in Hplay as (Hcmds & _).
  exists (cmds ++ plays). now rewrite app_assoc, forallb_app, Hcmds, Hplays.
Qed.

(** X16: how [_play_game] fails on the lines it decodes itself.  On
    messages that are all empty, HAND or PLAYED lines or lines it does not
    know, it reads every one and raises ConnectionError when they run out:
    none of these makes it raise or return.  A GAME_START line with fewer
    than two fields is skipped, while a ROUND_START line with fewer than two
    fields raises IndexError; on a GAME_START or ROUND_START line whose
    second field [int] rejects, what [int] raised comes out of the loop. *)
Theorem play_game_failures (codec : Codec) :
  (∀ inbox state sent,
     Forall (fun m => m = EmptyString
                      ∨ ends_game m || startswith m "GAME_START"
                        || startswith m "ROUND_START" || startswith m "ROUND_END" = false)
            inbox →
     _play_game codec inbox state sent = Raise ConnectionError)
  ∧ (∀ msg inbox state sent,
       startswith msg "GAME_START" = true →
       length (codec_split codec msg) < 2 →
       _play_game codec (msg :: inbox) state sent = _play_game codec inbox state sent)
  ∧ (∀ msg inbox state sent,
       startswith msg "ROUND_START" = true →
       length (codec_split codec msg) < 2 →
       _play_game codec (msg :: inbox) state sent = Raise IndexError)
  ∧ (∀ msg field e inbox state sent,
       startswith msg "GAME_START" || startswith msg "ROUND_START" = true →
       codec_split codec msg !! 1 = Some field →
       codec_int codec field = Raise e →
       _play_game codec (msg :: inbox) state sent = Raise e).
Proof.
  split; [|split; [|split]].
  - intros inbox. induction inbox as [|msg inbox IH]; intros state sent Hall;
      cbn [_play_game]; [reflexivity |].
    apply Forall_cons in Hall as [Hmsg Hall].
    destruct (String.eqb_spec msg EmptyString) as [Hempty|Hne]; [now apply IH |].
    destruct Hmsg as [Hmsg|Hmsg]; [contradiction |].
    unfold ends_game in Hmsg.
    apply orb_false_elim in Hmsg as [Hmsg Hre].
    apply orb_false_elim in Hmsg as [Hmsg Hrs].
    apply orb_false_elim in Hmsg as [Hmsg Hgs].
    apply orb_false_elim in Hmsg as [Htm Hge].
    rewrite Htm, Hge, Hgs, Hrs, Hre.
    destruct (startswith msg "PLAYED"); [now apply IH |].
    destruct (startswith msg "HAND"); [|now apply IH].
    destruct (play_turn_total (observe_hand (parse_hand codec msg) state))
      as (state' & cmds & -> & _).
    now apply IH.
  - intros msg inbox state sent Hgs Hlen. cbn [_play_game].
    rewrite (startswith_nonempty msg "GAME_START") by (discriminate || assumption).
    rewrite (startswith_exclusive msg "GAME_START" "TOURNAMENT_MATCH"),
      (startswith_exclusive msg "GAME_START" "TOURNAMENT_COMPLETE"),
      (startswith_exclusive msg "GAME_START" "GAME_END"), Hgs by (reflexivity || assumption).
    unfold handle_game_start_msg.
    destruct (Nat.leb_spec 2 (length (codec_split codec msg))); [lia | reflexivity].
  - intros msg inbox state sent Hrs Hlen. cbn [_play_game].
    rewrite (startswith_nonempty msg "ROUND_START") by (discriminate || assumption).
    rewrite (startswith_exclusive msg "ROUND_START" "TOURNAMENT_MATCH"),
      (startswith_exclusive msg "ROUND_START" "TOURNAMENT_COMPLETE"),
      (startswith_exclusive msg "ROUND_START" "GAME_END"),
      (startswith_exclusive msg "ROUND_START" "GAME_START"), Hrs
      by (reflexivity || assumption).
    unfold handle_round_start_msg, Py.getitem.
    rewrite (lookup_ge_None_2 (codec_split codec msg) 1) by lia. reflexivity.
  - intros msg field e inbox state sent Hmsg Hfield Hint. cbn [_play_game].
    pose proof (lookup_lt_Some _ _ _ Hfield) as Hlen.
    apply orb_prop in Hmsg as [Hgs|Hrs].
    + rewrite (startswith_nonempty msg "GAME_START") by (discriminate || assumption).
      rewrite (startswith_exclusive msg "GAME_START" "TOURNAMENT_MATCH"),
        (startswith_exclusive msg "GAME_START" "TOURNAMENT_COMPLETE"),
        (startswith_exclusive msg "GAME_START" "GAME_END"), Hgs
        by (reflexivity || assumption).
      unfold handle_game_start_msg, Py.getitem.
      destruct (Nat.leb_spec 2 (length (codec_split codec msg))); [|lia].
      rewrite Hfield. cbn [mbind result_bind orb]. now rewrite Hint.
    + rewrite (startswith_nonempty msg "ROUND_START") by (discriminate || assumption).
      rewrite (startswith_exclusive msg "ROUND_START" "TOURNAMENT_MATCH"),
        (startswith_exclusive msg "ROUND_START" "TOURNAMENT_COMPLETE"),
        (startswith_exclusive msg "ROUND_START" "GAME_END"),
        (startswith_exclusive msg "ROUND_START" "GAME_START"), Hrs
        by (reflexivity || assumption).
      unfold handle_round_start_msg, Py.getitem.
      rewrite Hfield. cbn [mbind result_bind orb]. now rewrite Hint.
Qed.

Lemma play_game_failures_witness :
  _play_game (wire_codec split_fields decimal)
    ["HAND 0:Tempura 1:Sashimi"; "PLAYED Alice:Sashimi; Bob:Tempura"; "WAITING"]
    fresh_state [] = Raise ConnectionError
  ∧ _play_game (wire_codec split_fields decimal) ["GAME_START"; "GAME_END {} []"] fresh_state []
    = _play_game (wire_codec split_fields decimal) ["GAME_END {} []"] fresh_state []
  ∧ _play_game (wire_codec split_fields decimal) ["ROUND_START"; "GAME_END {} []"]
      fresh_state [] = Raise IndexError
  ∧ _play_game (wire_codec split_fields decimal) ["GAME_START two"; "GAME_END {} []"]
      fresh_state [] = Raise ValueError.
Proof.
  destruct (play_game_failures (wire_codec split_fields decimal))
    as (Hquiet & Hgs & Hrs & Hint).
  split; [|split; [|split]].
  - apply Hquiet. repeat constructor; right; reflexivity.
  - apply Hgs; [reflexivity | vm_compute; lia].
  - apply Hrs; [reflexivity | vm_compute; lia].
  - apply (Hint "GAME_START two" "two"); reflexivity.
Defined.

(** ** The command log of a tournament *)

Section TournamentLog.
Context (codec : Codec).




End TournamentLog.



(** ** The single-game run *)

Lemma join_game_result (codec : Codec) (game_id player_name : string) (conn conn' : Conn)
    (joined : option GameState) :
  join_game codec game_id player_name conn = Ok (joined, conn') →
  ∃ response,
    recv_until (fun m => startswith m "WELCOME" || startswith m "ERROR") (inbox conn)
      = Ok (response, inbox conn')
    ∧ sent conn' = sent conn ++ [JOIN game_id player_name]
    ∧ startswith response "WELCOME" = match joined with Some _ => true | None => false end.
Proof.
  unfold join_game.
  destruct (recv_until _ (inbox conn)) as [[response rest]|]; [|discriminate].
  cbn [mbind result_bind]. destruct (startswith response "WELCOME") eqn:Hw.
  - destruct (Py.getitem _ 1); cbn [mbind result_bind]; [|discriminate].
    destruct (Py.getitem _ 2); cbn [mbind result_bind]; [|discriminate].
    destruct (codec_int codec _); cbn [mbind result_bind]; [|discriminate].
    destruct (if 3 <? _ then _ else _); cbn [mbind result_bind]; [|discriminate].
    intros [= <- <-]. exists response. repeat split. exact Hw.
  - intros [= <- <-]. exists response. repeat split. exact Hw.
Qed.

(** X18: a run of a single game that ends without an exception.  The bot
    sends JOIN and waits for the first WELCOME or ERROR.  On ERROR it sends
    and reads nothing more.  On WELCOME it sends READY and then play commands
    only, and stops at the message that ends the game loop. *)
Theorem run_log (codec : Codec) (game_id player_name : string) (conn conn' : Conn) :
  run codec game_id player_name conn = Ok conn' →
  ∃ response rest,
    recv_until (fun m => startswith m "WELCOME" || startswith m "ERROR") (inbox conn)
      = Ok (response, rest)
    ∧ if startswith response "WELCOME"
      then ∃ plays,
             sent conn' = sent conn ++ JOIN game_id player_name :: READY :: plays
             ∧ forallb is_play plays = true
             ∧ length (inbox conn') < length rest
      else sent conn' = sent conn ++ [JOIN game_id player_name] ∧ inbox conn' = rest.
Proof.
  unfold run.
  destruct (join_game codec game_id player_name conn) as [[joined conn1]|] eqn:Hjoin;
    cbn [mbind result_bind]; [|discriminate].
  apply join_game_result in Hjoin as (response & Hrecv & Hsent & Hwelcome).
  intros Hrun. exists response, (inbox conn1). split; [exact Hrecv |].
  rewrite Hwelcome. destruct joined as [state|].
  - destruct (_play_game codec (inbox conn1) state _) as [out|] eqn:Hplay;
      cbn [mbind result_bind] in Hrun; [|discriminate].
    injection Hrun as <-. cbn [inbox sent].
    pose proof (play_game_shorter _ _ _ _ _ Hplay) as Hlen.
    apply play_game_outbox in Hplay as (plays & -> & Hplays).
    exists plays. rewrite Hsent, <- !app_assoc. auto.
  - injection Hrun as <-. auto.
Qed.

Lemma run_log_witness :
  ∃ conn', run example_codec "m7" "Alice"
             {| inbox := ["WAITING"; "ERROR game is full"; "GAME_END {} []"]; sent := [] |}
           = Ok conn'
    ∧ sent conn' = [JOIN "m7" "Alice"] ∧ inbox conn' = ["GAME_END {} []"].
Proof.
  eexists. split; [reflexivity |].
  destruct (run_log example_codec "m7" "Alice"
              {| inbox := ["WAITING"; "ERROR game is full"; "GAME_END {} []"]; sent := [] |}
              _ eq_refl) as (response & rest & Hrecv & Hcase).
  injection Hrecv as <- <-. exact Hcase.
Defined.

(** ** What the tournament loop passes over *)

(** X19: while waiting for a match the tournament loop sends nothing for
    empty lines, for lines that are neither a match assignment nor the end of
    the tournament, and for a match assignment whose token or opponent field
    is BYE; at the first TOURNAMENT_COMPLETE after such lines it ends, with
    nothing sent and the rest unread. *)
Theorem tournament_loop_passes_over (codec : Codec) (player_name : string)
    (skipped : list string) (complete : string) (rest : list string)
    (log : list command) (fuel : nat) :
  Forall (fun m =>
            m = EmptyString
            ∨ (startswith m "TOURNAMENT_MATCH" = false
               ∧ startswith m "TOURNAMENT_COMPLETE" = false)
            ∨ (startswith m "TOURNAMENT_MATCH" = true
               ∧ ∃ token opponent,
                   match_fields codec m = Ok (token, opponent)
                   ∧ (token = "BYE" ∨ opponent = "BYE"))) skipped →
  startswith complete "TOURNAMENT_COMPLETE" = true →
  length skipped < fuel →
  tournament_loop codec fuel player_name None
    {| inbox := skipped ++ complete :: rest; sent := log |}
  = Some (Ok {| inbox := rest; sent := log |}).
Proof.
  intros Hskipped Hcomplete. revert fuel.
  induction Hskipped as [|m skipped Hm _ IH]; intros fuel Hfuel;
    (destruct fuel as [|fuel]; [cbn in Hfuel; lia |]);
    cbn [tournament_loop recv inbox sent app].
  - rewrite (startswith_nonempty complete "TOURNAMENT_COMPLETE")
      by (discriminate || assumption).
    rewrite (startswith_exclusive complete "TOURNAMENT_COMPLETE" "TOURNAMENT_MATCH")
      by (reflexivity || assumption).
    now rewrite Hcomplete.
  - assert (Hrest : tournament_loop codec fuel player_name None
                      {| inbox := skipped ++ complete :: rest; sent := log |}
                    = Some (Ok {| inbox := rest; sent := log |})).
    { apply IH. cbn in Hfuel. lia. }
    destruct Hm as [-> | [[Hm Hc] | (Hm & token & opponent & Hfields & Hbye)]].
    + exact Hrest.
    + rewrite Hm, Hc. now destruct (String.eqb m EmptyString).
    + rewrite (startswith_nonempty m "TOURNAMENT_MATCH") by (discriminate || assumption).
      rewrite Hm, Hfields.
      assert (String.eqb token "BYE" || String.eqb opponent "BYE" = true) as ->.
      { destruct Hbye as [-> | ->]; [reflexivity | apply orb_true_r]. }
      exact Hrest.
Qed.

Lemma tournament_loop_passes_over_witness :
  tournament_loop example_codec 4 "Alice" None
    {| inbox := ["TOURNAMENT_JOINED t1 Bob"; "TOURNAMENT_MATCH t1 BYE 1";
                 "TOURNAMENT_MATCH t1 m2 2 BYE"]
                ++ "TOURNAMENT_COMPLETE t1 Alice" :: ["OK"];
       sent := [TOURNEY "t1" "Alice"] |}
  = Some (Ok {| inbox := ["OK"]; sent := [TOURNEY "t1" "Alice"] |}).
Proof.
  apply (tournament_loop_passes_over example_codec "Alice").
  - constructor; [|constructor; [|constructor; [|constructor]]].
    + right; left. split; reflexivity.
    + right; right. split; [reflexivity |]. exists "BYE", "unknown".
      split; [reflexivity | now left].
    + right; right. split; [reflexivity |]. exists "m2", "BYE".
      split; [reflexivity | now right].
  - reflexivity.
  - cbn. lia.
Defined.

(** ** The wire codec *)

Lemma str_chars (s : string) : Wire.str (Wire.chars s) = s.
Proof. apply String.string_of_list_ascii_of_string. Qed.

Lemma chars_str (l : list ascii) : Wire.chars (Wire.str l) = l.
Proof. apply String.list_ascii_of_string_of_list_ascii. Qed.

Lemma isdigit_not_space (c : ascii) : Wire.isdigit c = true → Wire.isspace c = false.
Proof. destruct c as [[] [] [] [] [] [] [] []]; vm_compute; congruence. Qed.

Lemma lstrip_starts_clean (l : list ascii) : Wire.starts_clean (Wire.lstrip l).
Proof.
  induction l as [|a l IH]; intros c; cbn; [discriminate|].
  destruct (Wire.isspace a) eqn:Ha; [apply IH|].
  cbn. intros [= <-]. exact Ha.
Qed.

Lemma lstrip_clean (l : list ascii) : Wire.starts_clean l → Wire.lstrip l = l.
Proof.
  destruct l as [|a l]; [reflexivity|].
  intros H. cbn. now rewrite (H a eq_refl).
Qed.

Lemma lstrip_suffix (l : list ascii) : Wire.lstrip l `suffix_of` l.
Proof.
  induction l as [|a l IH]; cbn; [reflexivity|].
  destruct (Wire.isspace a); [now apply suffix_cons_r | reflexivity].
Qed.

Lemma ends_clean_suffix (l1 l2 : list ascii) :
  l1 `suffix_of` l2 → Wire.ends_clean l2 → Wire.ends_clean l1.
Proof.
  intros [k ->] H c Hc. apply H. now rewrite last_app, Hc.
Qed.

Lemma starts_clean_prefix (l1 l2 : list ascii) :
  l1 `prefix_of` l2 → Wire.starts_clean l2 → Wire.starts_clean l1.
Proof.
  intros [k ->] H c Hc. apply H. now rewrite head_app, Hc.
Qed.

Lemma rstrip_ends_clean (l : list ascii) : Wire.ends_clean (Wire.rstrip l).
Proof.
  intros c. unfold Wire.rstrip. rewrite last_reverse. apply lstrip_starts_clean.
Qed.

Lemma rstrip_clean (l : list ascii) : Wire.ends_clean l → Wire.rstrip l = l.
Proof.
  intros H. unfold Wire.rstrip. rewrite lstrip_clean.
  - apply reverse_involutive.
  - intros c. rewrite head_reverse. apply H.
Qed.

Lemma rstrip_prefix (l : list ascii) : Wire.rstrip l `prefix_of` l.
Proof.
  apply prefix_suffix_reverse. unfold Wire.rstrip.
  rewrite reverse_involutive. apply lstrip_suffix.
Qed.

Lemma strip_starts_clean (l : list ascii) : Wire.starts_clean (Wire.strip l).
Proof. apply lstrip_starts_clean. Qed.

Lemma strip_ends_clean (l : list ascii) : Wire.ends_clean (Wire.strip l).
Proof.
  apply (ends_clean_suffix _ (Wire.rstrip l)); [apply lstrip_suffix | apply rstrip_ends_clean].
Qed.

Lemma strip_clean (l : list ascii) :
  Wire.starts_clean l → Wire.ends_clean l → Wire.strip l = l.
Proof.
  intros Hs He. unfold Wire.strip. rewrite (rstrip_clean l He). now apply lstrip_clean.
Qed.

Lemma strip_elem_of (c : ascii) (l : list ascii) : c ∈ Wire.strip l → c ∈ l.
Proof.
  intros Hc.
  destruct (lstrip_suffix (Wire.rstrip l)) as [k1 Hk1].
  destruct (rstrip_prefix l) as [k2 Hk2].
  rewrite Hk2, Hk1. fold (Wire.strip l). rewrite !elem_of_app. auto.
Qed.

(** White space before a clean, non-empty text is stripped away. *)
Lemma strip_after_space (ws l : list ascii) :
  Forall (fun c => Wire.isspace c = true) ws →
  l ≠ [] → Wire.starts_clean l → Wire.ends_clean l →
  Wire.strip (ws ++ l) = l.
Proof.
  intros Hws Hne Hs He. unfold Wire.strip.
  rewrite rstrip_clean.
  - induction Hws as [|a ws Ha _ IH]; cbn; [now apply lstrip_clean|].
    now rewrite Ha.
  - intros c. rewrite last_app. destruct (last l) as [y|] eqn:Hl.
    + intros [= <-]. now apply He.
    + apply last_None in Hl. contradiction.
Qed.

Lemma has_char_elem_of (sep : ascii) (l : list ascii) :
  Wire.has_char sep l = true ↔ sep ∈ l.
Proof.
  unfold Wire.has_char. rewrite existsb_exists. split.
  - intros (c & Hc & Heq). apply Ascii.eqb_eq in Heq. subst c. now apply list_elem_of_In.
  - intros H. exists sep. split; [now apply list_elem_of_In | apply Ascii.eqb_refl].
Qed.

Lemma split_on_pieces (sep : ascii) (l piece : list ascii) :
  piece ∈ Wire.split_on sep l → (sep ∉ piece) ∧ ∀ c, c ∈ piece → c ∈ l.
Proof.
  revert piece. induction l as [|a l IH]; intros piece; cbn.
  - intros ->%list_elem_of_singleton. split; [apply not_elem_of_nil | tauto].
  - destruct (Ascii.eqb_spec a sep) as [->|Hne].
    + intros [->|Hin]%elem_of_cons.
      * split; [apply not_elem_of_nil | intros c Hc; now apply elem_of_nil in Hc].
      * destruct (IH _ Hin) as [H1 H2]. split; [exact H1|].
        intros c Hc. right. now apply H2.
    + destruct (Wire.split_on sep l) as [|p ps] eqn:Hsp.
      * intros ->%list_elem_of_singleton. split.
        -- intros ->%list_elem_of_singleton. congruence.
        -- intros c ->%list_elem_of_singleton. left.
      * intros [->|Hin]%elem_of_cons.
        -- destruct (IH p (list_elem_of_here _ _)) as [H1 H2]. split.
           ++ intros [Heq|Hin]%elem_of_cons; [congruence | contradiction].
           ++ intros c [->|Hc]%elem_of_cons; [left | right; now apply H2].
        -- destruct (IH piece) as [H1 H2]; [now right|]. split; [exact H1|].
           intros c Hc. right. now apply H2.
Qed.

Lemma split_on_clean (sep : ascii) (p : list ascii) :
  sep ∉ p → Wire.split_on sep p = [p].
Proof.
  induction p as [|a p IH]; intros Hp; cbn; [reflexivity|].
  apply not_elem_of_cons in Hp as [Hne Hp].
  destruct (Ascii.eqb_spec a sep) as [->|_]; [congruence|].
  now rewrite (IH Hp).
Qed.

Lemma split_on_app (sep : ascii) (p l : list ascii) :
  sep ∉ p → Wire.split_on sep (p ++ sep :: l) = p :: Wire.split_on sep l.
Proof.
  induction p as [|a p IH]; intros Hp; cbn.
  - now rewrite Ascii.eqb_refl.
  - apply not_elem_of_cons in Hp as [Hne Hp].
    destruct (Ascii.eqb_spec a sep) as [->|_]; [congruence|].
    now rewrite (IH Hp).
Qed.

Lemma split_once_spec (sep : ascii) (l before after : list ascii) :
  Wire.split_once sep l = Some (before, after) →
  (sep ∉ before) ∧ l = before ++ sep :: after.
Proof.
  revert before. induction l as [|a l IH]; intros before; cbn; [discriminate|].
  destruct (Ascii.eqb_spec a sep) as [->|Hne].
  - intros [= <- <-]. split; [apply not_elem_of_nil | reflexivity].
  - destruct (Wire.split_once sep l) as [[b a']|]; [|discriminate].
    intros [= <- <-]. destruct (IH b eq_refl) as [H1 H2]. split.
    + intros [Heq|Hin]%elem_of_cons; [congruence | contradiction].
    + cbn. now rewrite H2.
Qed.

Lemma split_once_app (sep : ascii) (p l : list ascii) :
  sep ∉ p → Wire.split_once sep (p ++ sep :: l) = Some (p, l).
Proof.
  induction p as [|a p IH]; intros Hp; cbn.
  - now rewrite Ascii.eqb_refl.
  - apply not_elem_of_cons in Hp as [Hne Hp].
    destruct (Ascii.eqb_spec a sep) as [->|_]; [congruence|].
    now rewrite (IH Hp).
Qed.

Lemma card_list_ok (cards_str : list ascii) :
  (";"%char ∉ cards_str) → Forall Wire.played_card_ok (Wire.card_list cards_str).
Proof.
  intros Hsemi. apply Forall_forall. intros card Hcard.
  unfold Wire.card_list in Hcard. apply list_elem_of_omap in Hcard as (piece & Hpiece & Hsome).
  destruct (split_on_pieces _ _ _ Hpiece) as [Hcomma Hsub].
  destruct (Wire.strip piece) as [|a l'] eqn:Hstrip; [discriminate|].
  assert (card = Wire.str (a :: l')) as -> by congruence.
  unfold Wire.played_card_ok. rewrite chars_str, <- Hstrip.
  split; [rewrite Hstrip; discriminate|].
  split; [apply strip_starts_clean|]. split; [apply strip_ends_clean|].
  split; intros Hin%strip_elem_of; [contradiction|].
  apply Hsemi. now apply Hsub.
Qed.

Lemma add_entry_fields (reveals : gmap string (list string)) (entry : list ascii) :
  (";"%char ∉ entry) → Wire.played_fields reveals → Wire.played_fields (Wire.add_entry reveals entry).
Proof.
  intros Hsemi Hrev. unfold Wire.add_entry.
  assert (Hsemi' : ";"%char ∉ Wire.strip entry) by (intros Hin%strip_elem_of; contradiction).
  destruct (Wire.strip entry) as [|a e] eqn:Hstrip; [exact Hrev|].
  destruct (Wire.has_char _ _); cbn [negb]; [|exact Hrev].
  destruct (Wire.split_once _ _) as [[name cards_str]|] eqn:Hso; [|exact Hrev].
  apply split_once_spec in Hso as [Hcolon Heq].
  intros n cards. rewrite lookup_insert_Some. intros [[<- <-]|[_ Hn]]; [|now apply Hrev].
  split.
  - unfold Wire.name_ok. rewrite chars_str.
    split; [apply strip_starts_clean|]. split; [apply strip_ends_clean|].
    split; intros Hin%strip_elem_of; [contradiction|].
    apply Hsemi'. rewrite Heq, elem_of_app. now left.
  - apply card_list_ok. intros Hin. apply Hsemi'. rewrite Heq, elem_of_app.
    right. now right.
Qed.

Lemma fold_add_entry_fields (entries : list (list ascii)) (reveals : gmap string (list string)) :
  Forall (fun entry => ";"%char ∉ entry) entries → Wire.played_fields reveals →
  Wire.played_fields (fold_left Wire.add_entry entries reveals).
Proof.
  intros Hall. revert reveals. induction Hall as [|e es He _ IH]; intros reveals Hrev; cbn.
  - exact Hrev.
  - apply IH. now apply add_entry_fields.
Qed.

(** X20: whatever the line, every name that [parse_played] gives has no
    white space around it, no colon and no semicolon, and every card listed
    for it is non-empty, has no white space around it, no comma and no
    semicolon. *)
Theorem parse_played_fields (message name : string) (cards : list string) :
  Wire.parse_played message !! name = Some cards →
  Wire.name_ok name ∧ Forall Wire.played_card_ok cards.
Proof.
  unfold Wire.parse_played. apply fold_add_entry_fields.
  - apply Forall_forall. intros piece Hpiece.
    now destruct (split_on_pieces _ _ _ Hpiece).
  - intros n c. now rewrite lookup_empty.
Qed.

Lemma parse_played_fields_witness :
  Wire.name_ok "Alice" ∧ Forall Wire.played_card_ok ["Squid Nigiri"; "Tempura"].
Proof.
  apply (parse_played_fields "PLAYED Alice:Squid Nigiri,Tempura; Bob:Sashimi").
  vm_compute. reflexivity.
Defined.

Lemma join_cons (sep piece : list ascii) (pieces : list (list ascii)) :
  pieces ≠ [] → Wire.join sep (piece :: pieces) = piece ++ sep ++ Wire.join sep pieces.
Proof. destruct pieces; [congruence | reflexivity]. Qed.

Lemma join_nonempty (sep : list ascii) (pieces : list (list ascii)) :
  pieces ≠ [] → Forall (fun piece => piece ≠ []) pieces → Wire.join sep pieces ≠ [].
Proof.
  intros Hne Hall. destruct Hall as [|p ps Hp Hps]; [congruence|].
  destruct ps as [|p' ps']; [exact Hp|].
  rewrite join_cons by discriminate. destruct p; [congruence | discriminate].
Qed.

(** Joining non-empty clean pieces gives a clean text. *)
Lemma join_clean (sep : list ascii) (pieces : list (list ascii)) :
  Forall (fun piece => piece ≠ [] ∧ Wire.starts_clean piece ∧ Wire.ends_clean piece) pieces →
  Wire.starts_clean (Wire.join sep pieces) ∧ Wire.ends_clean (Wire.join sep pieces).
Proof.
  induction 1 as [|p ps (Hp & Hs & He) Hall [IHs IHe]].
  - split; intros c; discriminate.
  - destruct ps as [|p' ps']; [now split|].
    rewrite join_cons by discriminate. split; intros c.
    + rewrite head_app. destruct (head p) as [y|] eqn:Hh.
      * intros [= <-]. now apply Hs.
      * destruct p; [congruence | discriminate].
    + rewrite !last_app.
      destruct (last (Wire.join sep (p' :: ps'))) as [y|] eqn:Hl.
      * intros [= <-]. now apply IHe.
      * apply last_None in Hl. exfalso. revert Hl. apply join_nonempty; [discriminate|].
        eapply Forall_impl; [exact Hall|]. now intros ? [? _].
Qed.

Lemma strip_join (sep : list ascii) (pieces : list (list ascii)) :
  Forall (fun piece => piece ≠ [] ∧ Wire.starts_clean piece ∧ Wire.ends_clean piece) pieces →
  Wire.strip (Wire.join sep pieces) = Wire.join sep pieces.
Proof. intros [Hs He]%(join_clean sep). now apply strip_clean. Qed.

Lemma card_list_join (cards : list string) :
  Forall Wire.played_card_ok cards →
  Wire.card_list (Wire.join [","%char] (map Wire.chars cards)) = cards.
Proof.
  assert (Hone : ∀ card, Wire.played_card_ok card →
            match Wire.strip (Wire.chars card) with
            | [] => None
            | stripped => Some (Wire.str stripped)
            end = Some card).
  { intros card (Hne & Hs & He & _). rewrite (strip_clean _ Hs He).
    destruct (Wire.chars card) as [|a l] eqn:Hc; [congruence|].
    now rewrite <- Hc, str_chars. }
  induction 1 as [|card cards Hcard Hall IH]; [reflexivity|].
  pose proof Hcard as (_ & _ & _ & Hcomma & _).
  destruct cards as [|card' cards'].
  - cbn [map Wire.join]. unfold Wire.card_list. rewrite (split_on_clean _ _ Hcomma).
    cbn [omap list_omap]. now rewrite (Hone _ Hcard).
  - cbn [map]. rewrite join_cons by discriminate. cbn [app].
    unfold Wire.card_list. rewrite (split_on_app _ _ _ Hcomma).
    cbn [omap list_omap]. rewrite (Hone _ Hcard). f_equal. exact IH.
Qed.

Lemma played_entry_clean (entry : string * list string) :
  Wire.name_ok entry.1 → Forall Wire.played_card_ok entry.2 →
  Wire.played_entry entry ≠ [] ∧ Wire.starts_clean (Wire.played_entry entry)
  ∧ Wire.ends_clean (Wire.played_entry entry).
Proof.
  intros (Hs & He & _) Hcards. unfold Wire.played_entry.
  split; [now destruct (Wire.chars entry.1)|]. split; intros c.
  - rewrite head_app. destruct (head (Wire.chars entry.1)) as [y|] eqn:Hh.
    + intros [= <-]. now apply Hs.
    + cbn. now intros [= <-].
  - rewrite last_app, last_cons.
    destruct (last (Wire.join _ _)) as [y|] eqn:Hl.
    + intros [= <-]. revert y Hl.
      apply (join_clean [","%char] (map Wire.chars entry.2)).
      apply Forall_fmap. eapply Forall_impl; [exact Hcards|].
      now intros card (H1 & H2 & H3 & _).
    + now intros [= <-].
Qed.

Lemma add_entry_played (reveals : gmap string (list string)) (ws : list ascii)
    (entry : string * list string) :
  Forall (fun c => Wire.isspace c = true) ws →
  Wire.name_ok entry.1 → Forall Wire.played_card_ok entry.2 →
  Wire.add_entry reveals (ws ++ Wire.played_entry entry) = <[entry.1 := entry.2]> reveals.
Proof.
  intros Hws Hname Hcards.
  destruct (played_entry_clean entry Hname Hcards) as (Hne & Hs & He).
  unfold Wire.add_entry. rewrite (strip_after_space ws _ Hws Hne Hs He).
  destruct (Wire.played_entry entry) as [|a e] eqn:Hentry; [congruence|].
  rewrite <- Hentry. unfold Wire.played_entry.
  destruct Hname as (Hs1 & He1 & Hcolon & _).
  assert (Hhas : Wire.has_char ":" (Wire.chars entry.1 ++
                   ":"%char :: Wire.join [","%char] (map Wire.chars entry.2)) = true).
  { apply has_char_elem_of. rewrite elem_of_app. right. left. }
  rewrite Hhas. cbn [negb]. rewrite (split_once_app _ _ _ Hcolon).
  rewrite (strip_clean _ Hs1 He1), str_chars. now rewrite card_list_join.
Qed.

Lemma split_on_join (entry : list ascii) (entries : list (list ascii)) :
  Forall (fun e => ";"%char ∉ e) (entry :: entries) →
  Wire.split_on ";" (Wire.join [";"%char; " "%char] (entry :: entries))
  = entry :: map (cons " "%char) entries.
Proof.
  revert entry. induction entries as [|e es IH]; intros entry Hall.
  - apply Forall_cons in Hall as [He _]. cbn [Wire.join map]. now apply split_on_clean.
  - apply Forall_cons in Hall as [He Hall]. rewrite join_cons by discriminate.
    cbn [app]. rewrite (split_on_app _ _ _ He).
    cbn [Wire.split_on]. change (Ascii.eqb " " ";") with false. cbv iota.
    now rewrite (IH e Hall).
Qed.

Lemma played_entry_no_semicolon (entry : string * list string) :
  Wire.name_ok entry.1 → Forall Wire.played_card_ok entry.2 →
  ";"%char ∉ Wire.played_entry entry.
Proof.
  intros (_ & _ & _ & Hname) Hcards. unfold Wire.played_entry.
  rewrite elem_of_app, elem_of_cons. intros [Hin|[Heq|Hin]]; [contradiction | discriminate |].
  revert Hin. generalize (entry.2) Hcards. clear.
  induction 1 as [|card cards (_ & _ & _ & _ & Hcard) Hall IH].
  - apply not_elem_of_nil.
  - destruct cards as [|card' cards']; [exact Hcard|].
    cbn [map] in *. rewrite join_cons by discriminate.
    rewrite !elem_of_app, elem_of_cons, elem_of_nil.
    intros [Hin|[[Heq|[]]|Hin]]; [contradiction | discriminate | now apply IH].
Qed.

Lemma fold_insert_list_to_map (entries : list (string * list string))
    (reveals : gmap string (list string)) :
  fold_left (fun m entry => <[entry.1 := entry.2]> m) entries reveals
  = foldr (fun entry m => <[entry.1 := entry.2]> m) reveals (reverse entries).
Proof.
  revert reveals. induction entries as [|e es IH]; intros reveals; [reflexivity|].
  cbn [fold_left]. rewrite IH, reverse_cons, foldr_app. reflexivity.
Qed.

Lemma list_to_map_foldr (entries : list (string * list string)) :
  (list_to_map entries : gmap string (list string))
  = foldr (fun entry m => <[entry.1 := entry.2]> m) ∅ entries.
Proof. induction entries as [|[k v] es IH]; [reflexivity|]. cbn. now rewrite IH. Qed.

Lemma fold_add_entry_played (entries : list (string * list string))
    (reveals : gmap string (list string)) :
  Forall (fun entry => Wire.name_ok entry.1 ∧ Forall Wire.played_card_ok entry.2) entries →
  fold_left Wire.add_entry (map (cons " "%char) (map Wire.played_entry entries)) reveals
  = fold_left (fun m entry => <[entry.1 := entry.2]> m) entries reveals.
Proof.
  intros Hall. revert reveals.
  induction Hall as [|e es [Hname Hcards] _ IH]; intros reveals; [reflexivity|].
  cbn [map fold_left].
  change (" "%char :: Wire.played_entry e) with ([" "%char] ++ Wire.played_entry e).
  rewrite (add_entry_played reveals [" "%char] e); [apply IH | | exact Hname | exact Hcards].
  now constructor.
Qed.

(** Parsing a line in the shape of the docstring stores its entries one
    after the other. *)
Lemma parse_played_line (entries : list (string * list string)) :
  Forall (fun entry => Wire.name_ok entry.1 ∧ Forall Wire.played_card_ok entry.2) entries →
  Wire.parse_played (Wire.played_line entries)
  = fold_left (fun m entry => <[entry.1 := entry.2]> m) entries ∅.
Proof.
  intros Hall.
  unfold Wire.parse_played, Wire.played_line. rewrite chars_str.
  change (drop 7 (Wire.chars "PLAYED " ++ ?b)) with b.
  rewrite strip_join.
  2:{ apply Forall_fmap. eapply Forall_impl; [exact Hall|].
      intros e [Hname Hcards]. now apply played_entry_clean. }
  destruct Hall as [|e es [Hname Hcards] Hall]; [reflexivity|].
  cbn [map]. rewrite split_on_join.
  2:{ constructor; [now apply played_entry_no_semicolon|].
      apply Forall_fmap. eapply Forall_impl; [exact Hall|].
      intros e' [Hname' Hcards']. now apply played_entry_no_semicolon. }
  cbn [fold_left].
  change (Wire.played_entry e) with ([] ++ Wire.played_entry e) at 1.
  rewrite (add_entry_played ∅ [] e); [| constructor | exact Hname | exact Hcards].
  now apply fold_add_entry_played.
Qed.

(** X21: a [PLAYED] line in the shape of the docstring, with clean names and
    cards, is read back as the mapping from each name to its cards; when a
    name comes twice, its last entry is the one kept. *)
Theorem parse_played_round_trip (entries : list (string * list string)) :
  Forall (fun entry => Wire.name_ok entry.1 ∧ Forall Wire.played_card_ok entry.2) entries →
  Wire.parse_played (Wire.played_line entries) = list_to_map (reverse entries).
Proof.
  intros Hall. rewrite (parse_played_line entries Hall).
  rewrite fold_insert_list_to_map. symmetry. apply list_to_map_foldr.
Qed.

Lemma parse_played_round_trip_witness :
  Wire.parse_played
    (Wire.played_line [("Alice", ["Squid Nigiri"; "Tempura"]); ("Bob", ["Sashimi"])])
  = list_to_map (reverse [("Alice", ["Squid Nigiri"; "Tempura"]); ("Bob", ["Sashimi"])]).
Proof.
  apply (parse_played_round_trip
           [("Alice", ["Squid Nigiri"; "Tempura"]); ("Bob", ["Sashimi"])]).
  repeat constructor; try discriminate;
    try (intros c Hc; vm_compute in Hc; injection Hc as <-; reflexivity);
    intros Hin%has_char_elem_of; vm_compute in Hin; discriminate.
Defined.

Lemma skip_digits_split (l : list ascii) :
  ∃ ds, Forall (fun c => Wire.isdigit c = true) ds ∧ l = ds ++ Wire.skip_digits l.
Proof.
  induction l as [|a l (ds & Hds & Heq)]; [now exists []|]. cbn.
  destruct (Wire.isdigit a) eqn:Ha.
  - exists (a :: ds). split; [now constructor | cbn; now rewrite <- Heq].
  - now exists [].
Qed.

Lemma skip_digits_label (ds l : list ascii) :
  Forall (fun c => Wire.isdigit c = true) ds →
  (∀ c, head l = Some c → Wire.isdigit c = false) →
  Wire.skip_digits (ds ++ l) = l.
Proof.
  intros Hds Hl. induction Hds as [|d ds Hd _ IH]; cbn.
  - destruct l as [|a l]; [reflexivity|]. cbn. now rewrite (Hl a eq_refl).
  - now rewrite Hd.
Qed.

Lemma digits_colon_label (ds rest : list ascii) :
  ds ≠ [] → Forall (fun c => Wire.isdigit c = true) ds →
  Wire.digits_colon (ds ++ ":"%char :: rest) = Some rest.
Proof.
  intros Hne Hds. destruct ds as [|d ds]; [congruence|].
  unfold Wire.digits_colon. cbn [app]. rewrite (Forall_inv Hds).
  change (d :: ds ++ ":"%char :: rest) with ((d :: ds) ++ ":"%char :: rest).
  rewrite skip_digits_label; [reflexivity | exact Hds |].
  now intros c [= <-].
Qed.

Lemma digits_colon_spec (l rest : list ascii) :
  Wire.digits_colon l = Some rest →
  ∃ ds, Forall (fun c => Wire.isdigit c = true) ds ∧ l = ds ++ ":"%char :: rest.
Proof.
  unfold Wire.digits_colon. destruct l as [|a l]; [discriminate|].
  destruct (Wire.isdigit a); [|discriminate].
  destruct (skip_digits_split (a :: l)) as (ds & Hds & Heq).
  destruct (Wire.skip_digits (a :: l)) as [|c' r]; [discriminate|].
  destruct (Ascii.eqb_spec c' ":"); [|discriminate].
  intros [= <-]. subst c'. now exists ds.
Qed.

Lemma no_label_across (card rest : list ascii) :
  (":"%char ∉ card) → Wire.after_card rest →
  ∀ ds r, Forall (fun c => Wire.isdigit c = true) ds → card ++ rest ≠ ds ++ ":"%char :: r.
Proof.
  intros Hcolon Hrest. induction card as [|a card IH]; intros ds r Hds; cbn [app].
  - destruct Hrest as [->|(ds' & r' & _ & _ & ->)].
    + now destruct ds.
    + destruct Hds as [|d ds Hd _]; [discriminate|]. cbn [app]. intros [= <- _].
      discriminate.
  - apply not_elem_of_cons in Hcolon as [Hne Hcolon].
    destruct Hds as [|d ds Hd Hds]; cbn [app]; [congruence|].
    intros [= _ Heq]. now apply (IH Hcolon ds r).
Qed.

Lemma lstrip_app (l r : list ascii) :
  l ≠ [] → Wire.ends_clean l →
  ∃ l', l' `suffix_of` l ∧ Wire.lstrip (l ++ r) = l' ++ r.
Proof.
  induction l as [|a l IH]; intros Hne He; [congruence|]. cbn.
  destruct (Wire.isspace a) eqn:Ha; [|now exists (a :: l)].
  destruct l as [|b l].
  - specialize (He a eq_refl). congruence.
  - destruct IH as (l' & Hsuf & Heq); [discriminate | |].
    + eapply ends_clean_suffix; [|exact He]. apply suffix_cons_r. reflexivity.
    + exists l'. split; [now apply suffix_cons_r | exact Heq].
Qed.

Lemma lookahead_inside (card rest : list ascii) :
  card ≠ [] → (":"%char ∉ card) → (ascii_of_nat 10 ∉ card) →
  Wire.ends_clean card → Wire.after_card rest →
  Wire.lookahead (card ++ rest) = false.
Proof.
  intros Hne Hcolon Hnl He Hrest.
  destruct (lstrip_app card rest Hne He) as (l' & [k Hsuf] & Hstrip).
  destruct card as [|a card]; [congruence|]. cbn [app] in *. unfold Wire.lookahead.
  apply not_elem_of_cons in Hnl as [Hnl _].
  destruct (Ascii.eqb_spec a (ascii_of_nat 10)) as [->|_]; [congruence|].
  rewrite andb_false_l, orb_false_r. apply andb_false_iff. right.
  apply bool_decide_eq_false. intros [r Hr]. rewrite Hstrip in Hr.
  apply digits_colon_spec in Hr as (ds & Hds & Heq).
  revert Heq. apply no_label_across; [|exact Hrest|exact Hds].
  intros Hin. apply Hcolon. rewrite Hsuf, elem_of_app. now right.
Qed.

Lemma lookahead_after_card (rest : list ascii) :
  Wire.after_card rest → Wire.lookahead rest = true.
Proof.
  intros [->|(ds & r & Hne & Hds & ->)]; [reflexivity|].
  unfold Wire.lookahead. apply orb_true_iff. left.
  apply andb_true_iff. split; [reflexivity|]. apply bool_decide_eq_true.
  cbn [Wire.lstrip]. change (Wire.isspace " ") with true. cbv iota.
  rewrite lstrip_clean.
  - rewrite (digits_colon_label ds r Hne Hds). now eexists.
  - destruct Hds as [|d ds Hd _]; [congruence|]. intros c [= <-].
    now apply isdigit_not_space.
Qed.

Lemma lazy_group_eq (l : list ascii) :
  Wire.lazy_group l =
  if Wire.lookahead l then Some ([], l)
  else match l with
       | [] => None
       | c :: l' =>
           if Ascii.eqb c (ascii_of_nat 10) then None
           else match Wire.lazy_group l' with
                | Some (card, rest) => Some (c :: card, rest)
                | None => None
                end
       end.
Proof. now destruct l. Qed.

Lemma lazy_group_card (card rest : list ascii) :
  (":"%char ∉ card) → (ascii_of_nat 10 ∉ card) → Wire.ends_clean card →
  Wire.after_card rest →
  Wire.lazy_group (card ++ rest) = Some (card, rest).
Proof.
  intros Hcolon Hnl He Hrest. induction card as [|a card IH]; rewrite lazy_group_eq.
  - cbn [app]. now rewrite (lookahead_after_card rest Hrest).
  - rewrite lookahead_inside by (assumption || discriminate). cbn [app].
    apply not_elem_of_cons in Hcolon as [_ Hcolon].
    apply not_elem_of_cons in Hnl as [Hne Hnl].
    destruct (Ascii.eqb_spec a (ascii_of_nat 10)) as [->|_]; [congruence|].
    rewrite IH; [reflexivity | exact Hcolon | exact Hnl |].
    eapply ends_clean_suffix; [|exact He]. apply suffix_cons_r. reflexivity.
Qed.

Lemma match_here_entry (entry : string * string) (rest : list ascii) :
  Wire.label_ok entry.1 → Wire.hand_card_ok entry.2 → Wire.after_card rest →
  Wire.match_here (Wire.hand_entry entry ++ rest) = Some (Wire.chars entry.2, rest).
Proof.
  intros [Hne Hds] (_ & He & Hcolon & Hnl) Hrest.
  unfold Wire.match_here, Wire.hand_entry. rewrite <- app_assoc. cbn [app].
  rewrite (digits_colon_label _ _ Hne Hds). now apply lazy_group_card.
Qed.

Lemma finditer_match (fuel : nat) (l card rest : list ascii) :
  Wire.match_here l = Some (card, rest) →
  Wire.finditer (S fuel) l = card :: Wire.finditer fuel rest.
Proof.
  intros Hm. destruct l as [|a l]; [discriminate|]. cbn [Wire.finditer]. now rewrite Hm.
Qed.

Lemma join_hand_after_card (entry : string * string) (entries : list (string * string)) :
  Wire.label_ok entry.1 →
  Wire.after_card (" "%char :: Wire.join [" "%char] (map Wire.hand_entry (entry :: entries))).
Proof.
  intros [Hne Hds]. right. exists (Wire.chars entry.1). cbn [map].
  destruct entries as [|e es].
  - exists (Wire.chars entry.2). now repeat split.
  - rewrite join_cons by discriminate. unfold Wire.hand_entry at 1.
    rewrite <- app_assoc. cbn [app]. eexists. now repeat split.
Qed.

Lemma finditer_hand (entries : list (string * string)) :
  Forall (fun entry => Wire.label_ok entry.1 ∧ Wire.hand_card_ok entry.2) entries →
  ∀ fuel, length (Wire.join [" "%char] (map Wire.hand_entry entries)) ≤ fuel →
  Wire.finditer fuel (Wire.join [" "%char] (map Wire.hand_entry entries))
  = map (fun entry => Wire.chars entry.2) entries.
Proof.
  induction 1 as [|e es [Hlabel Hcard] Hall IH]; intros fuel Hfuel.
  - now destruct fuel.
  - destruct es as [|e' es'].
    + cbn [map Wire.join] in *.
      assert (Hlen : 0 < length (Wire.hand_entry e)).
      { unfold Wire.hand_entry. rewrite length_app. cbn. lia. }
      destruct fuel as [|fuel]; [lia|].
      rewrite <- (app_nil_r (Wire.hand_entry e)).
      rewrite (finditer_match fuel _ _ _ (match_here_entry e [] Hlabel Hcard (or_introl eq_refl))).
      now destruct fuel.
    + pose proof (Forall_inv Hall) as [Hlabel' _].
      change (map Wire.hand_entry (e :: e' :: es'))
        with (Wire.hand_entry e :: map Wire.hand_entry (e' :: es')) in *.
      rewrite join_cons in * by (cbn; discriminate). cbn [app] in *.
      rewrite length_app in Hfuel. cbn [length] in Hfuel.
      assert (Hlen : 0 < length (Wire.hand_entry e)).
      { unfold Wire.hand_entry. rewrite length_app. cbn. lia. }
      destruct fuel as [|fuel]; [lia|].
      rewrite (finditer_match fuel _ _ _
                 (match_here_entry e _ Hlabel Hcard (join_hand_after_card e' es' Hlabel'))).
      change (map ?f (e :: ?l)) with (f e :: map f l). f_equal.
      destruct fuel as [|fuel]; [lia|].
      cbn [Wire.finditer]. change (Wire.match_here (" "%char :: ?l)) with (@None (list ascii * list ascii)).
      cbv iota. apply IH. lia.
Qed.

Lemma hand_entry_clean (entry : string * string) :
  Wire.label_ok entry.1 → Wire.hand_card_ok entry.2 →
  Wire.hand_entry entry ≠ [] ∧ Wire.starts_clean (Wire.hand_entry entry)
  ∧ Wire.ends_clean (Wire.hand_entry entry).
Proof.
  intros [Hne Hds] (_ & He & _). unfold Wire.hand_entry.
  split; [now destruct (Wire.chars entry.1)|]. split; intros c.
  - destruct Hds as [|d ds Hd _]; [congruence|]. cbn. intros [= <-].
    now apply isdigit_not_space.
  - rewrite last_app, last_cons. destruct (last (Wire.chars entry.2)) as [y|] eqn:Hl.
    + intros [= <-]. now apply He.
    + now intros [= <-].
Qed.

(** X22: a [HAND] line in the shape of the docstring is read back as its
    cards, in order; the index before each colon can be any run of digits
    and is not looked at. *)
Theorem parse_hand_round_trip (entries : list (string * string)) :
  Forall (fun entry => Wire.label_ok entry.1 ∧ Wire.hand_card_ok entry.2) entries →
  Wire.parse_hand (Wire.hand_line entries) = map snd entries.
Proof.
  intros Hall. unfold Wire.parse_hand, Wire.hand_line. rewrite chars_str.
  change (drop 5 (Wire.chars "HAND " ++ ?b)) with b.
  rewrite strip_join.
  2:{ apply Forall_fmap. eapply Forall_impl; [exact Hall|].
      intros e [Hlabel Hcard]. now apply hand_entry_clean. }
  rewrite (finditer_hand entries Hall) by lia.
  rewrite map_map. apply map_ext_Forall. eapply Forall_impl; [exact Hall|].
  intros e [_ (Hs & He & _)]. cbn beta. now rewrite (strip_clean _ Hs He), str_chars.
Qed.

Lemma parse_hand_round_trip_witness :
  Wire.parse_hand (Wire.hand_line [("0", "Maki Roll (3)"); ("12", "Salmon Nigiri"); ("7", "Wasabi")])
  = ["Maki Roll (3)"; "Salmon Nigiri"; "Wasabi"].
Proof.
  apply (parse_hand_round_trip [("0", "Maki Roll (3)"); ("12", "Salmon Nigiri"); ("7", "Wasabi")]).
  repeat constructor; try discriminate;
    try (intros c Hc; vm_compute in Hc; injection Hc as <-; reflexivity);
    intros Hin%has_char_elem_of; vm_compute in Hin; discriminate.
Defined.

Lemma finditer_no_colon (fuel : nat) (l : list ascii) :
  (":"%char ∉ l) → Wire.finditer fuel l = [].
Proof.
  revert l. induction fuel as [|fuel IH]; intros l Hl; [reflexivity|].
  destruct l as [|a l]; [reflexivity|]. cbn [Wire.finditer].
  unfold Wire.match_here.
  destruct (Wire.digits_colon (a :: l)) as [r|] eqn:Hd.
  - apply digits_colon_spec in Hd as (ds & _ & Heq). exfalso. apply Hl.
    rewrite Heq, elem_of_app. right. left.
  - apply IH. now apply not_elem_of_cons in Hl as [_ Hl].
Qed.

Lemma add_entry_no_colon (reveals : gmap string (list string)) (entry : list ascii) :
  (":"%char ∉ entry) → Wire.add_entry reveals entry = reveals.
Proof.
  intros Hentry. unfold Wire.add_entry.
  destruct (Wire.strip entry) as [|a e] eqn:Hstrip; [reflexivity|].
  destruct (Wire.has_char ":" (a :: e)) eqn:Hhas; [|reflexivity].
  apply has_char_elem_of in Hhas. rewrite <- Hstrip in Hhas.
  now apply strip_elem_of in Hhas.
Qed.

Lemma elem_of_drop (c : ascii) (n : nat) (l : list ascii) : c ∈ drop n l → c ∈ l.
Proof. intros Hc. rewrite <- (take_drop n l), elem_of_app. now right. Qed.

(** X23: a line without a colon holds no entry for either parser:
    [parse_hand] gives the empty hand and [parse_played] the empty mapping. *)
Theorem parsers_need_colon (message : string) :
  (":"%char ∉ Wire.chars message) →
  Wire.parse_hand message = [] ∧ Wire.parse_played message = ∅.
Proof.
  intros Hcolon. split.
  - unfold Wire.parse_hand. rewrite finditer_no_colon; [reflexivity|].
    now intros Hin%strip_elem_of%elem_of_drop.
  - unfold Wire.parse_played.
    assert (Hpieces : Forall (fun piece => ":"%char ∉ piece)
                        (Wire.split_on ";" (Wire.strip (drop 7 (Wire.chars message))))).
    { apply Forall_forall. intros piece Hpiece Hin.
      destruct (split_on_pieces _ _ _ Hpiece) as [_ Hsub].
      now apply Hsub, strip_elem_of, elem_of_drop in Hin. }
    induction Hpieces as [|piece pieces Hpiece _ IH]; [reflexivity|].
    cbn [fold_left]. now rewrite add_entry_no_colon.
Qed.

Lemma parsers_need_colon_witness :
  Wire.parse_hand "HAND 0 Tempura; 1 Sashimi" = []
  ∧ Wire.parse_played "HAND 0 Tempura; 1 Sashimi" = ∅.
Proof.
  apply (parsers_need_colon "HAND 0 Tempura; 1 Sashimi").
  intros Hin%has_char_elem_of. vm_compute in Hin. discriminate.
Defined.

(** X24: with the parser of the bot, handling a [PLAYED] line in the shape
    of the docstring, with clean and distinct names, appends the cards of
    every entry to the tableau of its player, and leaves the tableau of a
    player the line does not name as it was. *)
Theorem handle_played_line (split : string → list string) (int : string → result Z)
    (entries : list (string * list string)) (state : GameState) :
  Forall (fun entry => Wire.name_ok entry.1 ∧ Forall Wire.played_card_ok entry.2) entries →
  NoDup entries.*1 →
  let state' := handle_played_msg (wire_codec split int) (Wire.played_line entries) state in
  (∀ name cards, (name, cards) ∈ entries →
     all_tableaux state' !! name = Some (default [] (all_tableaux state !! name) ++ cards))
  ∧ (∀ name, name ∉ entries.*1 →
       all_tableaux state' !! name = all_tableaux state !! name).
Proof.
  intros Hall Hnd state'. subst state'. unfold handle_played_msg, handle_played.
  cbn [all_tableaux parse_played wire_codec].
  rewrite (parse_played_line entries Hall), fold_insert_list_to_map, <- list_to_map_foldr.
  assert (Hnd' : NoDup (reverse entries).*1).
  { now rewrite fmap_reverse, reverse_Permutation. }
  split.
  - intros name cards Hin. rewrite extend_tableaux_lookup.
    now rewrite (elem_of_list_to_map_1 (reverse entries) name cards Hnd')
      by now apply elem_of_reverse.
  - intros name Hname. rewrite extend_tableaux_lookup.
    rewrite (not_elem_of_list_to_map_1 (reverse entries) name); [reflexivity|].
    now rewrite fmap_reverse, elem_of_reverse.
Qed.

Lemma handle_played_line_witness :
  let entries := [("Alice", ["Squid Nigiri"; "Tempura"]); ("Bob", ["Sashimi"])] in
  let state' := handle_played_msg (wire_codec split_fields decimal)
                  (Wire.played_line entries) fresh_state in
  all_tableaux state' !! "Alice" = Some ["Squid Nigiri"; "Tempura"]
  ∧ all_tableaux state' !! "Carol" = None.
Proof.
  intros entries state'.
  assert (Hall : Forall (fun entry => Wire.name_ok entry.1 ∧ Forall Wire.played_card_ok entry.2)
                   entries).
  { repeat constructor; try discriminate;
      try (intros c Hc; vm_compute in Hc; injection Hc as <-; reflexivity);
      intros Hin%has_char_elem_of; vm_compute in Hin; discriminate. }
  assert (Hnd : NoDup entries.*1).
  { apply NoDup_cons. split; [|apply NoDup_singleton].
    intros Hin%list_elem_of_singleton. discriminate. }
  destruct (handle_played_line split_fields decimal entries fresh_state Hall Hnd)
    as [Hnamed Hother].
  split.
  - apply (Hnamed "Alice" ["Squid Nigiri"; "Tempura"]). left.
  - apply (Hother "Carol").
    intros [Hin|Hin%list_elem_of_singleton]%elem_of_cons; discriminate.
Defined.
